(** * FM-90s drum-sample pipeline: [tools/extract_drums.py]

    A shallow embedding of the sample-preparation pipeline (drum resolver,
    audio normaliser, asset encoder, source reader) together with the
    properties its specification states about it.

    Conventions of the embedding.

    - Python integers are [Z]; the bit operations of the packer are
      [Z.land], [Z.lor], [Z.shiftl], which agree with Python's on negative
      numbers as well (infinite two's complement).
    - numpy float buffers are lists of exact rationals [Q]: every
      arithmetic step of the normaliser is the real-number operation the
      float operation approximates, so statements about amplitudes hold up
      to the rounding error of IEEE arithmetic, which is not modelled
      there.  The one product whose rounding decides an integer result,
      [audio_data * 32767] before [.astype(np.int16)], is rounded to
      float32 as numpy does.
    - Python exceptions are the [Err] branch of [result].
    - Directory listings follow a case-sensitive (POSIX) file system, the
      platform the tool's [Path.glob] and [Path] ordering are read on. *)

From Stdlib Require Import Ascii String DecimalString.
From Stdlib Require Import ZArith QArith Qabs Qround Qminmax Qpower.
From Stdlib Require Import List Lia Lqa Bool.
From Stdlib Require Import Permutation Sorted.
Import ListNotations.

Set Implicit Arguments.

(** ** Exceptions *)

(** The exceptions the specification names or the modelled code can raise. *)
Inductive error : Type :=
| EmptyAudioError      (* named by the specification only *)
| ValueError           (* numpy reduction over an empty array *)
| StructError          (* struct.unpack on a buffer of the wrong size *)
| ZeroDivisionError    (* division by a zero sample rate *)
| SystemExit.          (* sys.exit(1) *)

Inductive result (A : Type) : Type :=
| Ok (a : A)
| Err (e : error).

Arguments Ok {A} a.
Arguments Err {A} e.

Definition bind {A B : Type} (r : result A) (k : A -> result B) : result B :=
  match r with
  | Ok a => k a
  | Err e => Err e
  end.

Notation "x <- r ;; k" := (bind r (fun x => k))
  (at level 61, r at next level, right associativity).

(** ** Asset encoder, packed array: [generate_c_header] *)

Module Packing.
Local Open Scope Z_scope.

(** [range(0, stop, 2)] of the packing loop. *)
Definition range_step2 (stop : nat) : list nat :=
  map (fun k => 2 * k)%nat (seq 0 (Nat.div2 (stop + 1))).

(** One [h] field of [struct.unpack('<..h')]: two bytes, little endian,
    read as a signed 16-bit number. *)
Definition to_signed16 (u : Z) : Z :=
  if u <? 32768 then u else u - 65536.

Definition unpack_h (lo hi : Z) : Z := to_signed16 (lo + 256 * hi).

Fixpoint unpack_samples (data : list Z) : list Z :=
  match data with
  | lo :: hi :: rest => unpack_h lo hi :: unpack_samples rest
  | _ => []
  end.

(** [struct.unpack(f'<{num_samples}h', data)] with
    [num_samples = len(data) // 2]: the call raises when the buffer is not
    exactly [2 * num_samples] bytes long, that is when its length is odd. *)
Definition struct_unpack (data : list Z) : result (list Z) :=
  if Nat.even (length data) then Ok (unpack_samples data) else Err StructError.

(** [format_word = (0x81 << 24) | (num_samples & 0xFFFFFF)] *)
Definition format_word (num_samples : Z) : Z :=
  Z.lor (Z.shiftl 0x81 24) (Z.land num_samples 0xFFFFFF).

(** Body of the packing loop at index [i]. *)
Definition packed (samples : list Z) (i : nat) : Z :=
  let num_samples := length samples in
  let sample1 := Z.land (nth i samples 0) 0xFFFF in
  let sample2 :=
    if (i + 1 <? num_samples)%nat
    then Z.land (nth (i + 1) samples 0) 0xFFFF
    else 0 in
  Z.lor sample1 (Z.shiftl sample2 16).

(** The words written into the [.cpp] array, in order. *)
Definition pack_words (samples : list Z) : list Z :=
  let num_samples := length samples in
  format_word (Z.of_nat num_samples)
    :: map (packed samples) (range_step2 num_samples).

(** [num_uint32 = 1 + (num_samples + 1) // 2], the declared array length. *)
Definition num_uint32 (num_samples : nat) : nat :=
  (1 + (num_samples + 1) / 2)%nat.

(** [generate_c_header] on the bytes of the raw file: the declared length
    and the array contents. *)
Definition generate_c_header (data : list Z) : result (nat * list Z) :=
  samples <- struct_unpack data ;;
  Ok (num_uint32 (length samples), pack_words samples).

(** *** The consumer's view of the array *)

(** Modelled from the spec: the decoder of section 6 (the firmware player
    that reads the array is not part of the pipeline).  Each data word
    yields bits [15:0] then bits [31:16], both read as two's-complement
    16-bit numbers; the sample count of the header, bits [23:0] of word 0,
    says how many of them are samples. *)
Definition low_half (w : Z) : Z := Z.land w 0xFFFF.
Definition high_half (w : Z) : Z := Z.land (Z.shiftr w 16) 0xFFFF.

Definition header_tag (w : Z) : Z := Z.land (Z.shiftr w 24) 0xFF.
Definition header_count (w : Z) : Z := Z.land w 0xFFFFFF.

(** Modelled from the spec: the half-words of the data words, in order,
    each read as a two's-complement 16-bit number. *)
Fixpoint decode_halves (ws : list Z) : list Z :=
  match ws with
  | [] => []
  | w :: rest =>
      to_signed16 (low_half w) :: to_signed16 (high_half w) :: decode_halves rest
  end.

(** Modelled from the spec: the samples of an array, that is as many of
    the decoded half-words as the header counts, which drops the padding
    half-word of an odd count. *)
Definition decode_words_spec (ws : list Z) : list Z :=
  match ws with
  | [] => []
  | header :: data => firstn (Z.to_nat (header_count header)) (decode_halves data)
  end.

Definition int16 (s : Z) : Prop := -32768 <= s <= 32767.

End Packing.

(** ** Drum resolver: the note loop of [extract_drums_from_sf2] *)

Module Resolver.
Local Open Scope Z_scope.

(** [inst_bag.key_range] as the SoundFont parser exposes it: [None], a
    two-element list [[low, high]], or one integer holding both bytes. *)
Inductive key_range_t : Type :=
| KeyList (low high : Z)
| KeyInt (k : Z).

Section WithSample.

Variable Sample : Type.

(** Whether the [try] block that converts a sample and writes its WAV file
    completes; a failure is reported and the note is left out. *)
Variable wav_written : Sample -> bool.

Record bag : Type := Bag {
  key_range : option key_range_t;
  sample : option Sample
}.

(** [if key_range:] *)
Definition truthy (kr : option key_range_t) : bool :=
  match kr with
  | None => false
  | Some (KeyList _ _) => true
  | Some (KeyInt k) => negb (k =? 0)
  end.

(** [low_key] and [high_key] of a truthy key range. *)
Definition key_bounds (kr : key_range_t) : Z * Z :=
  match kr with
  | KeyList low high => (low, high)
  | KeyInt k => (Z.land k 0xFF, Z.land (Z.shiftr k 8) 0xFF)
  end.

(** The test guarding [sample_obj = inst_bag.sample; break]. *)
Definition contains_note (b : bag) (note_num : Z) : bool :=
  match key_range b with
  | Some kr =>
      truthy (Some kr) &&
      (let (low_key, high_key) := key_bounds kr in
       (low_key <=? note_num) && (note_num <=? high_key))
  | None => false
  end.

(** [for inst_bag in instrument.bags: ...], yielding [sample_obj]. *)
Fixpoint find_sample (bags : list bag) (note_num : Z) : option Sample :=
  match bags with
  | [] => None
  | inst_bag :: rest =>
      if contains_note inst_bag note_num
      then sample inst_bag
      else find_sample rest note_num
  end.

(** [range(27, 88)] *)
Definition drum_notes : list Z := map Z.of_nat (seq 27 61).

(** [extracted_samples]: the notes for which a WAV file was written, each
    with the sample it was written from. *)
Definition extract_drums (bags : list bag) : list (Z * Sample) :=
  flat_map
    (fun note_num =>
       match find_sample bags note_num with
       | Some sample_obj =>
           if wav_written sample_obj then [(note_num, sample_obj)] else []
       | None => []
       end)
    drum_notes.

End WithSample.

End Resolver.

(** ** Audio normaliser *)

Module Normalizer.
Local Open Scope Q_scope.

Definition Qgtb (a b : Q) : bool := negb (Qle_bool a b).

(** [np.abs] *)
Definition np_abs (a : list Q) : list Q := map Qabs a.

(** [np.max]; raises on an empty array. *)
Definition np_max (a : list Q) : result Q :=
  match a with
  | [] => Err ValueError
  | x :: rest => Ok (fold_left Qmax rest x)
  end.

(** [np.where(cond)[0]]: the indices at which the condition holds. *)
Definition np_where (cond : Q -> bool) (a : list Q) : list nat :=
  map fst (filter (fun p => cond (snd p)) (combine (seq 0 (length a)) a)).

(** [a[start:stop]] for non-negative bounds. *)
Definition slice {A : Type} (a : list A) (start stop : Z) : list A :=
  firstn (Z.to_nat stop - Z.to_nat start) (skipn (Z.to_nat start) a).

Definition trim_silence_with (threshold : Q) (audio_data : list Q)
  : result (list Q) :=
  let abs_audio := np_abs audio_data in
  max_val <- np_max abs_audio ;;
  let threshold_val := max_val * threshold in
  let non_silent := np_where (fun x => Qgtb x threshold_val) abs_audio in
  match non_silent with
  | [] => Ok audio_data
  | first :: _ =>
      let start := Z.max 0 (Z.of_nat first - 100) in
      let stop :=
        Z.min (Z.of_nat (length audio_data))
              (Z.of_nat (last non_silent first) + 4410) in
      Ok (slice audio_data start stop)
  end.

Definition trim_silence : list Q -> result (list Q) := trim_silence_with 0.01.

(** [np.linspace(start, stop, num)] *)
Definition linspace (start stop : Q) (num : nat) : list Q :=
  match num with
  | O => []
  | S O => [start]
  | S div =>
      map (fun i => start + inject_Z (Z.of_nat i) * ((stop - start) / inject_Z (Z.of_nat div)))
          (seq 0 num)
  end.

(** Elementwise product of a window with its envelope. *)
Fixpoint scale (window fade : list Q) : list Q :=
  match window, fade with
  | x :: window', f :: fade' => x * f :: scale window' fade'
  | _, _ => []
  end.

(** [apply_fade_in]: [audio_data[:fade_samples] *= fade].  The array is
    updated in place and returned; the pipeline owns it and rebinds the
    result, so the update is modelled by the returned value. *)
Definition apply_fade_in (audio_data : list Q) (fade_samples : nat) : list Q :=
  let fade_samples :=
    if (length audio_data <? fade_samples)%nat then length audio_data
    else fade_samples in
  let fade := linspace 0 1 fade_samples in
  scale (firstn fade_samples audio_data) fade ++ skipn fade_samples audio_data.

(** [apply_fade_out]: [audio_data[-fade_samples:] *= fade].  With a window
    of zero samples [audio_data[-0:]] is the whole array, which an empty
    envelope cannot be broadcast to unless the array is empty too. *)
Definition apply_fade_out (audio_data : list Q) (fade_samples : nat)
  : result (list Q) :=
  let fade_samples :=
    if (length audio_data <? fade_samples)%nat then length audio_data
    else fade_samples in
  let fade := linspace 1 0 fade_samples in
  match fade_samples, audio_data with
  | O, [] => Ok []
  | O, _ :: _ => Err ValueError
  | S _, _ =>
      let keep := (length audio_data - fade_samples)%nat in
      Ok (firstn keep audio_data ++ scale (skipn keep audio_data) fade)
  end.

Definition normalize_audio_to (target_peak : Q) (audio_data : list Q)
  : result (list Q) :=
  max_val <- np_max (np_abs audio_data) ;;
  if Qgtb max_val 0
  then Ok (map (fun x => x * (target_peak / max_val)) audio_data)
  else Ok audio_data.

Definition normalize_audio : list Q -> result (list Q) := normalize_audio_to 0.9.

(** Absolute peak of a non-empty buffer (0 for the empty one). *)
Definition peak (a : list Q) : Q :=
  match np_max (np_abs a) with
  | Ok m => m
  | Err _ => 0
  end.

(** The number of samples a fade acts on: [min(fade_samples, length)]. *)
Definition window (fade_samples : nat) (a : list Q) : nat :=
  Nat.min fade_samples (length a).

(** The test of [np.where] in [trim_silence] on the sample at index [i],
    as a proposition and as the boolean the code computes. *)
Definition exceeds (a : list Q) (i : nat) : Prop :=
  peak a * 0.01 < Qabs (nth i a 0).

Definition selected (a : list Q) (i : nat) : bool :=
  Qgtb (nth i (np_abs a) 0) (peak a * 0.01).

End Normalizer.

(** ** Asset encoder, quantisation: [save_as_raw] *)

Module Encoder.
Local Open Scope Z_scope.

(** Conversion of a float to an integer drops the fraction (rounds toward
    zero). *)
Definition Qtrunc (y : Q) : Z := Z.quot (Qnum y) (Z.pos (Qden y)).

(** numpy leaves the conversion of a float outside the 16-bit range to
    the C cast; its usual outcome, taken here, keeps the low 16 bits of
    the truncated value. *)
Definition wrap16 (z : Z) : Z := Packing.to_signed16 (z mod 65536).

(** [.astype(np.int16)] on one float. *)
Definition astype_int16 (y : Q) : Z := wrap16 (Qtrunc y).

(** Rounding to the nearest integer, ties to even: the rounding of IEEE
    arithmetic, and of Python's and numpy's [round]. *)
Definition round_half_even (y : Q) : Z :=
  let f := Qfloor y in
  match (y - inject_Z f ?= 1 # 2)%Q with
  | Lt => f
  | Gt => f + 1
  | Eq => if Z.even f then f else f + 1
  end.

(** The exponent of the leading binary digit of a nonzero number,
    [floor(log2 |y|)]: the difference of the bit lengths of numerator and
    denominator, or one less. *)
Definition ilog2 (y : Q) : Z :=
  let k := Z.log2 (Z.abs (Qnum y)) - Z.log2 (Z.pos (Qden y)) in
  if Qle_bool (2 ^ k) (Qabs y) then k else k - 1.

(** The exponent of the last place float32 keeps of [y]: 24 significant
    bits, and no place below 2^-149 (the subnormal numbers). *)
Definition ulp_exponent (y : Q) : Z := Z.max (-149) (ilog2 y - 23).

(** The float32 number an arithmetic result [y] is stored as: the nearest
    multiple of the last place, ties to even.  The buffer is a float32
    array and 32767 a Python integer, so numpy computes the product of
    [save_as_raw] in float32.  Results beyond the largest float32 number
    (about 3.4e38), which become infinite, are out of the model's
    reach. *)
Definition round_float32 (y : Q) : Q :=
  let e := ulp_exponent y in
  (inject_Z (round_half_even (y / 2 ^ e)) * 2 ^ e)%Q.

(** [audio_int16 = (audio_data * 32767).astype(np.int16)] *)
Definition quantize (audio_data : list Q) : list Z :=
  map (fun x => astype_int16 (round_float32 (x * 32767)%Q)) audio_data.

(** [audio_int16.tobytes()]: two bytes per sample, little endian. *)
Definition tobytes (audio_int16 : list Z) : list Z :=
  flat_map (fun s => [Z.land s 0xFF; Z.land (Z.shiftr s 8) 0xFF]) audio_int16.

(** [save_as_raw]: the bytes written to [output_path] and the returned
    size. *)
Definition save_as_raw (audio_data : list Q) : list Z * Z :=
  let audio_int16 := quantize audio_data in
  (tobytes audio_int16, Z.of_nat (length audio_int16) * 2).

(** What the encoder leaves on disk for one sample: the raw file, the
    array length declared in the header file and the array of the [.cpp]
    file. *)
Record asset : Type := Asset {
  raw_file : list Z;
  declared_length : nat;
  packed_words : list Z
}.

(** The encoding steps of [process_wav_to_raw]: [save_as_raw], then
    [generate_c_header] on the file just written. *)
Definition encode_asset (audio_data : list Q) : result asset :=
  let raw := fst (save_as_raw audio_data) in
  header <- Packing.generate_c_header raw ;;
  Ok (Asset raw (fst header) (snd header)).

(** The quantiser as the specification words it: [round(x * 32767)]
    (ties to even, as Python and numpy round), clamped to the signed
    16-bit range. *)
Definition clamp16 (z : Z) : Z := Z.max (-32768) (Z.min 32767 z).

Definition quantize_spec (audio_data : list Q) : list Z :=
  map (fun x => clamp16 (round_half_even (x * 32767)%Q)) audio_data.

End Encoder.

(** ** The per-file pipeline: [process_wav_to_raw] *)

Module Pipeline.
Import Normalizer.

Section WithResampler.

(** [scipy.signal.resample], when scipy can be imported.  Its FFT method
    is not modelled: the pipeline is stated for any function from a buffer
    and a sample count to a buffer. *)
Variable signal_resample : option (list Q -> Z -> list Q).

Definition resample_audio (audio_data : list Q) (orig_rate target_rate : Z)
  : result (list Q) :=
  if (orig_rate =? target_rate)%Z then Ok audio_data
  else
    match signal_resample with
    | Some resample =>
        if (orig_rate =? 0)%Z then Err ZeroDivisionError
        else
          let num_samples :=
            Encoder.Qtrunc
              (inject_Z (Z.of_nat (length audio_data)) * inject_Z target_rate
                 / inject_Z orig_rate)%Q in
          Ok (resample audio_data num_samples)
    | None => Ok audio_data
    end.

Definition Qsum (a : list Q) : Q := fold_left Qplus a 0%Q.

(** [convert_to_mono]: [reshape(-1, num_channels)] needs a length that is
    a multiple of the channel count; each row is then averaged. *)
Definition convert_to_mono (audio_data : list Q) (num_channels : nat)
  : result (list Q) :=
  if (num_channels =? 1)%nat then Ok audio_data
  else if (num_channels =? 0)%nat then Err ValueError
  else if negb (length audio_data mod num_channels =? 0)%nat then Err ValueError
  else
    Ok (map
          (fun row =>
             (Qsum (firstn num_channels (skipn (row * num_channels) audio_data))
                / inject_Z (Z.of_nat num_channels))%Q)
          (seq 0 (length audio_data / num_channels))).

(** The transform chain of [process_wav_to_raw], from the frames already
    decoded to floats to the normalised buffer. *)
Definition normalizer_chain (audio_data : list Q) (num_channels : nat)
    (sample_rate : Z) : result (list Q) :=
  audio_data <- convert_to_mono audio_data num_channels ;;
  audio_data <- resample_audio audio_data sample_rate 44100 ;;
  audio_data <- trim_silence audio_data ;;
  let audio_data := apply_fade_in audio_data 882 in
  audio_data <- apply_fade_out audio_data 2205 ;;
  normalize_audio audio_data.

Definition process_wav_to_raw (audio_data : list Q) (num_channels : nat)
    (sample_rate : Z) : result Encoder.asset :=
  audio_data <- normalizer_chain audio_data num_channels sample_rate ;;
  Encoder.encode_asset audio_data.

End WithResampler.

End Pipeline.

(** ** Source reader: the directory branch of [main] *)

Module SourceReader.
Local Open Scope string_scope.

(** Whether [name] matches the pattern made of a star and [suffix]. *)
Fixpoint ends_with (suffix name : string) : bool :=
  if String.eqb name suffix then true
  else
    match name with
    | EmptyString => false
    | String _ rest => ends_with suffix rest
    end.

(** [input_path.glob(pattern)] over the names of the directory. *)
Definition glob_star (suffix : string) (dir : list string) : list string :=
  filter (ends_with suffix) dir.

(** [list(input_path.glob("*.wav")) + list(input_path.glob("*.WAV"))] *)
Definition wav_files (dir : list string) : list string :=
  glob_star ".wav" dir ++ glob_star ".WAV" dir.

(** [sorted(wav_files)]: paths of one directory compare as their names do,
    character by character in code order. *)
Fixpoint insert_name (x : string) (l : list string) : list string :=
  match l with
  | [] => [x]
  | y :: rest => if String.leb x y then x :: l else y :: insert_name x rest
  end.

Definition sorted (l : list string) : list string :=
  fold_right insert_name [] l.

(** The order [sorted] puts the names in. *)
Definition name_le (x y : string) : Prop := String.leb x y = true.

(** The files the conversion loop visits, in order; the tool exits when
    the directory holds no match. *)
Definition directory_inputs (dir : list string) : result (list string) :=
  let files := wav_files dir in
  match files with
  | [] => Err SystemExit
  | _ => Ok (sorted files)
  end.

(** The admission rule as the specification words it: the extension,
    lower-cased, is that of a waveform file. *)
Definition lower (c : ascii) : ascii :=
  let n := nat_of_ascii c in
  if ((65 <=? n) && (n <=? 90))%nat then ascii_of_nat (n + 32) else c.

Fixpoint lower_string (s : string) : string :=
  match s with
  | EmptyString => EmptyString
  | String c rest => String (lower c) (lower_string rest)
  end.

Definition wav_extension_spec (name : string) : bool :=
  ends_with ".wav" (lower_string name).

End SourceReader.

(** ** Frames: from bytes to amplitudes *)

Module Frames.
Local Open Scope Z_scope.

(** A byte of a file or of a sample payload. *)
Definition is_byte (b : Z) : Prop := 0 <= b <= 255.

(** [np.frombuffer(data, dtype=np.int16)]: signed 16-bit numbers, low byte
    first; raises when the size is not a multiple of two bytes. *)
Definition frombuffer_int16 (data : list Z) : result (list Z) :=
  if Nat.even (length data) then Ok (Packing.unpack_samples data)
  else Err ValueError.

(** [.astype(np.float32) / 32768.0] on one 16-bit frame. *)
Definition int16_to_float (s : Z) : Q := (inject_Z s / 32768)%Q.

(** [(.astype(np.float32) - 128) / 128.0] on one unsigned 8-bit frame. *)
Definition uint8_to_float (u : Z) : Q := ((inject_Z u - 128) / 128)%Q.

(** The conversion of the bytes read from a WAV file in
    [process_wav_to_raw]: [None] stands for the early [return None] on a
    sample width other than 1 or 2. *)
Definition read_frames (sample_width : Z) (audio_bytes : list Z)
  : result (option (list Q)) :=
  if sample_width =? 2 then
    frames <- frombuffer_int16 audio_bytes ;;
    Ok (Some (map int16_to_float frames))
  else if sample_width =? 1 then
    Ok (Some (map uint8_to_float audio_bytes))
  else Ok None.

(** The frames [extract_drums_from_sf2] writes to the WAV file of a note:
    the payload converted to floats and back,
    [(audio_data * 32767).astype(np.int16)]. *)
Definition wav_frames (sample_data : list Z) : result (list Z) :=
  frames <- frombuffer_int16 sample_data ;;
  Ok (Encoder.quantize (map int16_to_float frames)).

End Frames.

(** ** One file, then all of them: [process_wav_to_raw] and [main] *)

Module Report.
Local Open Scope Z_scope.

(** What [wave.open] reports about a file, with the bytes of its frames. *)
Record wav_file : Type := WavFile {
  num_channels : nat;
  sample_width : Z;
  sample_rate : Z;
  audio_bytes : list Z
}.

(** The dictionary [process_wav_to_raw] returns, with the files it wrote
    in place of their names. *)
Record entry : Type := Entry {
  size_bytes : Z;
  duration_ms : Q;
  samples : nat;
  files : Encoder.asset
}.

Section WithResampler.

Variable signal_resample : option (list Q -> Z -> list Q).

(** [process_wav_to_raw] from the opened file on: [None] is the early
    return on an unsupported sample width. *)
Definition process_wav_file (wav : wav_file) : result (option entry) :=
  frames <- Frames.read_frames (sample_width wav) (audio_bytes wav) ;;
  match frames with
  | None => Ok None
  | Some audio_data =>
      audio_data <-
        Pipeline.normalizer_chain signal_resample audio_data
          (num_channels wav) (sample_rate wav) ;;
      let duration_ms := (inject_Z (Z.of_nat (length audio_data)) / 44.1)%Q in
      let size_bytes := Z.of_nat (length audio_data) * 2 in
      asset <- Encoder.encode_asset audio_data ;;
      Ok (Some (Entry size_bytes duration_ms (length audio_data) asset))
  end.

(** One round of the conversion loop of [main]: an exception ends the
    run, a [None] result is skipped, an entry is appended and its size
    added to the total. *)
Definition convert_one (state : result (list entry * Z)) (wav : wav_file)
  : result (list entry * Z) :=
  st <- state ;;
  r <- process_wav_file wav ;;
  match r with
  | Some result => Ok (fst st ++ [result], snd st + size_bytes result)
  | None => Ok st
  end.

(** [results] and [total_size] after the loop over the files. *)
Definition convert_all (wav_files : list wav_file) : result (list entry * Z) :=
  fold_left convert_one wav_files (Ok ([], 0)).

End WithResampler.

(** A mono 16-bit file of three frames at 44.1 kHz, and an empty one. *)
Definition three_frames : wav_file := WavFile 1 2 44100 [0; 32; 0; 192; 0; 16].
Definition no_frames : wav_file := WavFile 1 2 44100 [].

End Report.

(** ** Choosing the drum preset: the head of [extract_drums_from_sf2] *)

Module Presets.
Local Open Scope string_scope.

(** [pattern in s] *)
Fixpoint contains (pattern s : string) : bool :=
  if String.prefix pattern s then true
  else
    match s with
    | EmptyString => false
    | String _ rest => contains pattern rest
    end.

Section WithInstrument.

(** What [preset.bags[0].instrument] gives: the bags of an instrument. *)
Variable Instrument : Type.

(** A preset of the SoundFont: bank and preset numbers, name (taken to be
    ASCII text) and, for each of its bags, the instrument it refers to,
    if any. *)
Record preset : Type := Preset {
  bank : Z;
  preset_number : Z;
  name : string;
  bags : list (option Instrument)
}.

Definition named (pattern : string) (p : preset) : bool :=
  contains pattern (SourceReader.lower_string (name p)).

(** The test that puts a preset into [drum_presets]. *)
Definition is_drum_preset (p : preset) : bool :=
  (bank p =? 128)%Z || named "drum" p || named "kit" p || named "standard" p.

Definition drum_presets (presets : list preset) : list preset :=
  filter is_drum_preset presets.

(** [drum_preset]: the first candidate whose name holds "standard", or
    else the first candidate; [None] when there is no candidate. *)
Definition select_preset (presets : list preset) : option preset :=
  match drum_presets presets with
  | [] => None
  | first :: _ =>
      Some match find (named "standard") (drum_presets presets) with
           | Some p => p
           | None => first
           end
  end.

(** [instrument], or [None] where the function prints an error and
    returns the empty list. *)
Definition select_instrument (presets : list preset) : option Instrument :=
  match select_preset presets with
  | None => None
  | Some drum_preset =>
      match bags drum_preset with
      | [] => None
      | first_bag :: _ => first_bag
      end
  end.

End WithInstrument.

End Presets.

(** ** Names: drums, WAV files and array identifiers *)

Module Names.
Local Open Scope string_scope.

(** [GM_DRUM_MAP] *)
Definition GM_DRUM_MAP : list (Z * string) := [
  (27%Z, "High Q");
  (28%Z, "Slap");
  (29%Z, "Scratch Push");
  (30%Z, "Scratch Pull");
  (31%Z, "Sticks");
  (32%Z, "Square Click");
  (33%Z, "Metronome Click");
  (34%Z, "Metronome Bell");
  (35%Z, "Acoustic Bass Drum");
  (36%Z, "Bass Drum 1");
  (37%Z, "Side Stick");
  (38%Z, "Acoustic Snare");
  (39%Z, "Hand Clap");
  (40%Z, "Electric Snare");
  (41%Z, "Low Floor Tom");
  (42%Z, "Closed Hi-Hat");
  (43%Z, "High Floor Tom");
  (44%Z, "Pedal Hi-Hat");
  (45%Z, "Low Tom");
  (46%Z, "Open Hi-Hat");
  (47%Z, "Low-Mid Tom");
  (48%Z, "Hi-Mid Tom");
  (49%Z, "Crash Cymbal 1");
  (50%Z, "High Tom");
  (51%Z, "Ride Cymbal 1");
  (52%Z, "Chinese Cymbal");
  (53%Z, "Ride Bell");
  (54%Z, "Tambourine");
  (55%Z, "Splash Cymbal");
  (56%Z, "Cowbell");
  (57%Z, "Crash Cymbal 2");
  (58%Z, "Vibraslap");
  (59%Z, "Ride Cymbal 2");
  (60%Z, "Hi Bongo");
  (61%Z, "Low Bongo");
  (62%Z, "Mute Hi Conga");
  (63%Z, "Open Hi Conga");
  (64%Z, "Low Conga");
  (65%Z, "High Timbale");
  (66%Z, "Low Timbale");
  (67%Z, "High Agogo");
  (68%Z, "Low Agogo");
  (69%Z, "Cabasa");
  (70%Z, "Maracas");
  (71%Z, "Short Whistle");
  (72%Z, "Long Whistle");
  (73%Z, "Short Guiro");
  (74%Z, "Long Guiro");
  (75%Z, "Claves");
  (76%Z, "Hi Wood Block");
  (77%Z, "Low Wood Block");
  (78%Z, "Mute Cuica");
  (79%Z, "Open Cuica");
  (80%Z, "Mute Triangle");
  (81%Z, "Open Triangle");
  (82%Z, "Shaker");
  (83%Z, "Jingle Bell");
  (84%Z, "Bell Tree");
  (85%Z, "Castanets");
  (86%Z, "Mute Surdo");
  (87%Z, "Open Surdo")
].

(** [d.get(key, default)] *)
Fixpoint get (d : list (Z * string)) (key : Z) (default : string) : string :=
  match d with
  | [] => default
  | (k, v) :: rest => if (k =? key)%Z then v else get rest key default
  end.

(** [str(n)] and the [{n}] of a formatted string, for an integer. *)
Definition str (n : Z) : string := NilZero.string_of_int (Z.to_int n).

(** [drum_name = GM_DRUM_MAP.get(note_num, f"Note{note_num}")] *)
Definition drum_name (note_num : Z) : string :=
  get GM_DRUM_MAP note_num ("Note" ++ str note_num).

(** [s.replace(old, new)] for two characters. *)
Fixpoint replace (old new : ascii) (s : string) : string :=
  match s with
  | EmptyString => EmptyString
  | String c rest =>
      String (if Ascii.eqb c old then new else c) (replace old new rest)
  end.

Definition is_digit (c : ascii) : bool :=
  let n := nat_of_ascii c in ((48 <=? n) && (n <=? 57))%nat.

Definition is_lower (c : ascii) : bool :=
  let n := nat_of_ascii c in ((97 <=? n) && (n <=? 122))%nat.

Definition is_upper (c : ascii) : bool :=
  let n := nat_of_ascii c in ((65 <=? n) && (n <=? 90))%nat.

(** [c.isalnum()] on an ASCII character; the drum names hold no other. *)
Definition isalnum (c : ascii) : bool := is_digit c || is_lower c || is_upper c.

(** [''.join(c for c in s if keep(c))] *)
Fixpoint join_if (keep : ascii -> bool) (s : string) : string :=
  match s with
  | EmptyString => EmptyString
  | String c rest =>
      if keep c then String c (join_if keep rest) else join_if keep rest
  end.

(** [safe_name], the two statements that make the file name safe. *)
Definition safe_name (drum_name : string) : string :=
  let safe_name :=
    replace "-" "_" (replace " " "_" (SourceReader.lower_string drum_name)) in
  join_if (fun c => isalnum c || Ascii.eqb c "_") safe_name.

(** What the three rewriting steps of [safe_name] make of one character,
    before the filter. *)
Definition safe_char (c : ascii) : ascii :=
  let c1 := SourceReader.lower c in
  let c2 := if Ascii.eqb c1 " " then "_"%char else c1 in
  if Ascii.eqb c2 "-" then "_"%char else c2.

(** The name of [wav_path]: [f"{safe_name}_{note_num}.wav"]. *)
Definition wav_name (note_num : Z) : string :=
  safe_name (drum_name note_num) ++ "_" ++ str note_num ++ ".wav".

(** [name.rfind(c)], [None] for -1. *)
Fixpoint rfind (c : ascii) (s : string) : option nat :=
  match s with
  | EmptyString => None
  | String a rest =>
      match rfind c rest with
      | Some i => Some (S i)
      | None => if Ascii.eqb a c then Some 0%nat else None
      end
  end.

(** [Path.stem]: the name up to its last dot, when that dot is neither
    the first nor the last character. *)
Definition stem (name : string) : string :=
  match rfind "." name with
  | Some i =>
      if ((0 <? i) && (i <? String.length name - 1))%nat
      then substring 0 i name
      else name
  | None => name
  end.

(** [sample_name] in the conversion loop of [main]. *)
Definition sample_name (name : string) : string :=
  replace "-" "_" (replace " " "_" (SourceReader.lower_string (stem name))).

(** A lower-case C identifier: a letter or underscore first, then
    letters, digits and underscores. *)
Definition identifier_char (c : ascii) : bool :=
  is_lower c || is_digit c || Ascii.eqb c "_".

Fixpoint all_chars (p : ascii -> bool) (s : string) : bool :=
  match s with
  | EmptyString => true
  | String c rest => p c && all_chars p rest
  end.

Definition is_identifier (s : string) : bool :=
  match s with
  | EmptyString => false
  | String c rest =>
      (is_lower c || Ascii.eqb c "_") && all_chars identifier_char rest
  end.

(** [mapping], the patterns of the note suggestions of [main], in the
    order the dictionary is written and iterated. *)
Definition mapping : list (string * list Z) := [
  ("kick", [35; 36]%Z);
  ("bass_drum", [35; 36]%Z);
  ("snare", [38; 40]%Z);
  ("hh_closed", [42; 44]%Z);
  ("hihat_closed", [42; 44]%Z);
  ("hh_open", [46]%Z);
  ("hihat_open", [46]%Z);
  ("crash", [49; 57]%Z);
  ("ride", [51; 59]%Z);
  ("tom_low", [41; 43]%Z);
  ("tom_mid", [45; 47]%Z);
  ("tom_high", [48; 50]%Z);
  ("rim", [37]%Z);
  ("clap", [39]%Z)
].

(** [notes] for one result: those of the first pattern found in its
    name, or the empty list. *)
Definition suggest (name : string) : list Z :=
  match find (fun entry => Presets.contains (fst entry) name) mapping with
  | Some (_, note_list) => note_list
  | None => []
  end.

End Names.

(** * Properties *)

(** ** The packed array *)

Module PackingFacts.
Import Packing.
Local Open Scope Z_scope.

(** *** Two half-words in one word *)

Lemma mask16_range (x : Z) : 0 <= Z.land x 0xFFFF < 65536.
Proof.
  change 0xFFFF with (Z.ones 16).
  rewrite Z.land_ones by lia.
  change (2 ^ 16) with 65536. apply Z.mod_pos_bound. lia.
Qed.

Lemma mask16_small (a : Z) : 0 <= a < 65536 -> Z.land a 0xFFFF = a.
Proof.
  intros Ha. change 0xFFFF with (Z.ones 16).
  rewrite Z.land_ones by lia. apply Z.mod_small. exact Ha.
Qed.

Lemma low_half_lor (a b : Z) :
  0 <= a < 65536 -> low_half (Z.lor a (Z.shiftl b 16)) = a.
Proof.
  intros Ha. unfold low_half.
  rewrite Z.land_lor_distr_l, (mask16_small Ha).
  change 0xFFFF with (Z.ones 16).
  rewrite Z.land_ones, Z.shiftl_mul_pow2, Z.mod_mul by lia.
  apply Z.lor_0_r.
Qed.

Lemma shiftr16_lor (a b : Z) :
  0 <= a < 65536 -> Z.shiftr (Z.lor a (Z.shiftl b 16)) 16 = b.
Proof.
  intros Ha.
  rewrite Z.shiftr_lor, Z.shiftr_shiftl_l, Z.shiftr_div_pow2 by lia.
  change (2 ^ 16) with 65536.
  rewrite Z.div_small by exact Ha.
  rewrite Z.sub_diag, Z.shiftl_0_r. reflexivity.
Qed.

Lemma high_half_lor (a b : Z) :
  0 <= a < 65536 -> 0 <= b < 65536 ->
  high_half (Z.lor a (Z.shiftl b 16)) = b.
Proof.
  intros Ha Hb. unfold high_half.
  rewrite (shiftr16_lor b Ha). apply mask16_small. exact Hb.
Qed.

Lemma word_range (a b : Z) :
  0 <= a < 65536 -> 0 <= b < 65536 ->
  0 <= Z.lor a (Z.shiftl b 16) < 2 ^ 32.
Proof.
  intros Ha Hb.
  assert (H0 : 0 <= Z.lor a (Z.shiftl b 16)).
  { apply Z.lor_nonneg. split; [lia | apply Z.shiftl_nonneg; lia]. }
  split; [exact H0 |].
  destruct (Z.eq_dec (Z.lor a (Z.shiftl b 16)) 0) as [E | E]; [rewrite E; lia |].
  apply Z.log2_lt_pow2; [lia |].
  rewrite Z.log2_lor by (try apply Z.shiftl_nonneg; lia).
  apply Z.max_lub_lt.
  - destruct (Z.eq_dec a 0) as [-> | Na]; [simpl; lia |].
    apply Z.log2_lt_pow2; lia.
  - destruct (Z.eq_dec b 0) as [-> | Nb]; [simpl; lia |].
    rewrite Z.log2_shiftl by lia.
    assert (Z.log2 b < 16) by (apply Z.log2_lt_pow2; lia). lia.
Qed.

Lemma to_signed16_mask (s : Z) : int16 s -> to_signed16 (Z.land s 0xFFFF) = s.
Proof.
  unfold int16, to_signed16. intros Hs.
  change 0xFFFF with (Z.ones 16). rewrite Z.land_ones by lia.
  change (2 ^ 16) with 65536.
  destruct (Z_lt_le_dec s 0) as [Hneg | Hpos].
  - replace (s mod 65536) with (s + 65536).
    + destruct (Z.ltb_spec (s + 65536) 32768); lia.
    + apply Z.mod_unique with (q := -1); lia.
  - rewrite Z.mod_small by lia.
    destruct (Z.ltb_spec s 32768); lia.
Qed.

(** *** The header word *)

Lemma format_word_tag (n : Z) : Z.shiftr (format_word n) 24 = 0x81.
Proof.
  unfold format_word.
  rewrite Z.shiftr_lor, Z.shiftr_shiftl_l by lia. simpl Z.sub.
  rewrite Z.shiftl_0_r.
  change 0xFFFFFF with (Z.ones 24).
  rewrite Z.land_ones, Z.shiftr_div_pow2 by lia.
  rewrite Z.div_small by (apply Z.mod_pos_bound; lia).
  apply Z.lor_0_r.
Qed.

Lemma format_word_count (n : Z) :
  header_count (format_word n) = Z.land n 0xFFFFFF.
Proof.
  unfold header_count, format_word.
  rewrite Z.land_lor_distr_l.
  change 0xFFFFFF with (Z.ones 24) at 1.
  rewrite Z.land_ones by lia.
  change (Z.shiftl 0x81 24) with (0x81 * 2 ^ 24).
  rewrite Z.mod_mul by lia. rewrite Z.lor_0_l.
  rewrite <- Z.land_assoc, Z.land_diag. reflexivity.
Qed.

Lemma format_word_count_small (n : Z) :
  0 <= n < 2 ^ 24 -> header_count (format_word n) = n.
Proof.
  intros Hn. rewrite format_word_count.
  change 0xFFFFFF with (Z.ones 24).
  rewrite Z.land_ones by lia. apply Z.mod_small. exact Hn.
Qed.

Lemma format_word_range (n : Z) : 0 <= format_word n < 2 ^ 32.
Proof.
  unfold format_word.
  assert (Hm : 0 <= Z.land n 0xFFFFFF < 2 ^ 24).
  { change 0xFFFFFF with (Z.ones 24). rewrite Z.land_ones by lia.
    apply Z.mod_pos_bound. lia. }
  assert (H0 : 0 <= Z.lor (Z.shiftl 0x81 24) (Z.land n 0xFFFFFF)).
  { apply Z.lor_nonneg. split; [apply Z.shiftl_nonneg |]; lia. }
  split; [exact H0 |].
  destruct (Z.eq_dec (Z.lor (Z.shiftl 0x81 24) (Z.land n 0xFFFFFF)) 0)
    as [E | E]; [rewrite E; lia |].
  apply Z.log2_lt_pow2; [lia |].
  rewrite Z.log2_lor by (try apply Z.shiftl_nonneg; lia).
  apply Z.max_lub_lt; [reflexivity |].
  destruct (Z.eq_dec (Z.land n 0xFFFFFF) 0) as [-> | Hnz]; [simpl; lia |].
  assert (Z.log2 (Z.land n 0xFFFFFF) < 24) by (apply Z.log2_lt_pow2; lia).
  lia.
Qed.

(** *** The packing loop *)

Lemma range_step2_length (n : nat) :
  length (range_step2 n) = ((n + 1) / 2)%nat.
Proof.
  unfold range_step2. rewrite length_map, length_seq. apply Nat.div2_div.
Qed.

Lemma range_step2_nth (n k d : nat) :
  (k < (n + 1) / 2)%nat -> nth k (range_step2 n) d = (2 * k)%nat.
Proof.
  intros Hk. unfold range_step2.
  rewrite (nth_indep _ d ((fun j => 2 * j)%nat 0%nat))
    by (rewrite length_map, length_seq, Nat.div2_div; exact Hk).
  rewrite map_nth, seq_nth by (rewrite Nat.div2_div; exact Hk).
  reflexivity.
Qed.

Lemma pack_words_length (samples : list Z) :
  length (pack_words samples) = num_uint32 (length samples).
Proof.
  unfold pack_words, num_uint32. simpl.
  rewrite length_map, range_step2_length. reflexivity.
Qed.

Lemma pack_words_nth (samples : list Z) (k : nat) :
  (k < (length samples + 1) / 2)%nat ->
  nth (S k) (pack_words samples) 0 = packed samples (2 * k).
Proof.
  intros Hk. unfold pack_words. cbn [nth].
  rewrite (nth_indep _ 0 (packed samples 0))
    by (rewrite length_map, range_step2_length; exact Hk).
  rewrite map_nth, range_step2_nth by exact Hk. reflexivity.
Qed.

Lemma packed_low (samples : list Z) (i : nat) :
  low_half (packed samples i) = Z.land (nth i samples 0) 0xFFFF.
Proof.
  unfold packed. apply low_half_lor, mask16_range.
Qed.

Lemma packed_high (samples : list Z) (i : nat) :
  (i + 1 < length samples)%nat ->
  high_half (packed samples i) = Z.land (nth (i + 1) samples 0) 0xFFFF.
Proof.
  intros Hi. unfold packed.
  apply Nat.ltb_lt in Hi. rewrite Hi.
  apply high_half_lor; apply mask16_range.
Qed.

Lemma packed_padding (samples : list Z) (i : nat) :
  (length samples <= i + 1)%nat -> Z.shiftr (packed samples i) 16 = 0.
Proof.
  intros Hi. unfold packed.
  apply Nat.ltb_ge in Hi. rewrite Hi.
  apply shiftr16_lor, mask16_range.
Qed.

Lemma packed_range (samples : list Z) (i : nat) :
  0 <= packed samples i < 2 ^ 32.
Proof.
  unfold packed. apply word_range; [apply mask16_range |].
  destruct (i + 1 <? length samples)%nat; [apply mask16_range | lia].
Qed.

Lemma last_as_nth (A : Type) (l : list A) (d : A) :
  last l d = nth (length l - 1) l d.
Proof.
  induction l as [| x [| y l'] IH]; try reflexivity.
  change (last (x :: y :: l') d) with (last (y :: l') d).
  rewrite IH. cbn [length]. rewrite !Nat.sub_succ, !Nat.sub_0_r. reflexivity.
Qed.

Lemma odd_half (n : nat) : Nat.odd n = true -> (2 * ((n + 1) / 2) = n + 1)%nat.
Proof.
  intros Ho. apply Nat.odd_spec in Ho. destruct Ho as [m ->].
  replace (2 * m + 1 + 1)%nat with ((m + 1) * 2)%nat by lia.
  rewrite Nat.div_mul by lia. lia.
Qed.

(** C1.  The array written for [n >= 1] samples has [1 + (n + 1) // 2]
    words, each a 32-bit value.  Word 0 is
    [(0x81 << 24) | (n & 0xFFFFFF)]: its bits [31:24] are the tag [0x81]
    and its bits [23:0] the sample count (the count itself below [2^24]).
    Word [i >= 1] carries sample [2*(i-1)] in bits [15:0] and sample
    [2*(i-1)+1], when there is one, in bits [31:16]; for odd [n] the upper
    half of the last word is zero. *)
Theorem c1_packed_layout (samples : list Z) (n : nat) :
  n = length samples -> (1 <= n)%nat ->
  let words := pack_words samples in
  length words = (1 + (n + 1) / 2)%nat
  /\ Forall (fun w => 0 <= w < 2 ^ 32) words
  /\ nth 0 words 0 = Z.lor (Z.shiftl 0x81 24) (Z.land (Z.of_nat n) 0xFFFFFF)
  /\ Z.shiftr (nth 0 words 0) 24 = 0x81
  /\ header_tag (nth 0 words 0) = 0x81
  /\ header_count (nth 0 words 0) = Z.land (Z.of_nat n) 0xFFFFFF
  /\ (Z.of_nat n < 2 ^ 24 -> header_count (nth 0 words 0) = Z.of_nat n)
  /\ (forall i : nat, (1 <= i < length words)%nat ->
        low_half (nth i words 0)
          = Z.land (nth (2 * (i - 1)) samples 0) 0xFFFF
        /\ ((2 * (i - 1) + 1 < n)%nat ->
              high_half (nth i words 0)
                = Z.land (nth (2 * (i - 1) + 1) samples 0) 0xFFFF))
  /\ (Nat.odd n = true -> Z.shiftr (last words 0) 16 = 0).
Proof.
  intros -> Hn words.
  assert (Hlen : length words = (1 + (length samples + 1) / 2)%nat)
    by apply pack_words_length.
  split; [exact Hlen |].
  split.
  { unfold words, pack_words. constructor; [apply format_word_range |].
    apply Forall_forall. intros w Hw. apply in_map_iff in Hw.
    destruct Hw as [i [<- _]]. apply packed_range. }
  split; [reflexivity |].
  split; [apply format_word_tag |].
  split.
  { unfold header_tag, words, pack_words.
    change (nth 0 (format_word (Z.of_nat (length samples)) :: _) 0)
      with (format_word (Z.of_nat (length samples))).
    rewrite format_word_tag. reflexivity. }
  split; [apply format_word_count |].
  split; [intros Hsmall; apply format_word_count_small; lia |].
  split.
  - intros i [Hi1 Hi2]. destruct i as [| k]; [lia |].
    rewrite Hlen in Hi2.
    replace (S k - 1)%nat with k by lia.
    unfold words. rewrite pack_words_nth by lia.
    split; [apply packed_low | apply packed_high].
  - intros Hodd. rewrite last_as_nth, Hlen.
    pose proof (odd_half _ Hodd) as Hhalf.
    replace (1 + (length samples + 1) / 2 - 1)%nat
      with (S ((length samples + 1) / 2 - 1)) by lia.
    unfold words. rewrite pack_words_nth by lia.
    apply packed_padding. lia.
Qed.

(** C1 at the three samples [1; -2; 3]. *)
Lemma c1_packed_layout_witness :
  pack_words [1; -2; 3] = [0x81000003; 0xFFFE0001; 0x00000003]
  /\ Z.shiftr (last (pack_words [1; -2; 3]) 0) 16 = 0.
Proof.
  split; [reflexivity |].
  apply (c1_packed_layout [1; -2; 3] (n := 3)); [reflexivity | lia | reflexivity].
Defined.

(** *** Reading the array back *)

Lemma decode_halves_length (ws : list Z) :
  length (decode_halves ws) = (2 * length ws)%nat.
Proof.
  induction ws as [| w ws IH]; [reflexivity |].
  cbn [decode_halves length]. rewrite IH. lia.
Qed.

Lemma decode_halves_nth (ws : list Z) (k : nat) :
  (k < length ws)%nat ->
  nth (2 * k) (decode_halves ws) 0 = to_signed16 (low_half (nth k ws 0))
  /\ nth (2 * k + 1) (decode_halves ws) 0
       = to_signed16 (high_half (nth k ws 0)).
Proof.
  revert k. induction ws as [| w ws IH]; intros k Hk; [cbn in Hk; lia |].
  destruct k as [| k].
  - split; reflexivity.
  - cbn [length] in Hk.
    replace (2 * S k)%nat with (S (S (2 * k))) by lia.
    replace (S (S (2 * k)) + 1)%nat with (S (S (2 * k + 1))) by lia.
    cbn [decode_halves nth]. apply IH. lia.
Qed.

Lemma data_words_nth (samples : list Z) (k : nat) :
  (k < (length samples + 1) / 2)%nat ->
  nth k (map (packed samples) (range_step2 (length samples))) 0
    = packed samples (2 * k).
Proof.
  intros Hk. exact (pack_words_nth samples Hk).
Qed.

Lemma half_bound (n j : nat) : (j < n)%nat -> (j / 2 < (n + 1) / 2)%nat.
Proof.
  intros Hj.
  pose proof (Nat.div_mod_eq j 2) as Ej.
  pose proof (Nat.div_mod_eq (n + 1) 2) as En.
  pose proof (Nat.mod_upper_bound j 2) as Bj.
  pose proof (Nat.mod_upper_bound (n + 1) 2) as Bn.
  lia.
Qed.

(** Every sample is found again at its own position among the decoded
    halves. *)
Lemma decode_halves_packed (samples : list Z) (j : nat) :
  Forall int16 samples -> (j < length samples)%nat ->
  nth j (decode_halves (map (packed samples) (range_step2 (length samples)))) 0
    = nth j samples 0.
Proof.
  intros Hall Hj.
  assert (Hin : int16 (nth j samples 0)).
  { rewrite Forall_forall in Hall. apply Hall, nth_In, Hj. }
  pose proof (half_bound Hj) as Hk.
  assert (Hlen : (j / 2 < length (map (packed samples)
                                     (range_step2 (length samples))))%nat)
    by (rewrite length_map, range_step2_length; exact Hk).
  destruct (decode_halves_nth _ Hlen) as [Hlo Hhi].
  rewrite (data_words_nth samples Hk) in Hlo, Hhi.
  pose proof (Nat.div_mod_eq j 2) as Ej.
  pose proof (Nat.mod_upper_bound j 2) as Bj.
  destruct (Nat.eq_dec (j mod 2) 0) as [E0 | E1].
  - replace j with (2 * (j / 2))%nat at 1 by lia.
    rewrite Hlo, packed_low.
    replace (2 * (j / 2))%nat with j by lia.
    apply to_signed16_mask, Hin.
  - replace j with (2 * (j / 2) + 1)%nat at 1 by lia.
    rewrite Hhi, packed_high by lia.
    replace (2 * (j / 2) + 1)%nat with j by lia.
    apply to_signed16_mask, Hin.
Qed.

(** C2, as the code has it.  For every sequence of fewer than [2^24]
    signed 16-bit samples, decoding the packed array by the layout of
    section 6 gives back the sequence. *)
Theorem c2_round_trip (samples : list Z) :
  Forall int16 samples -> Z.of_nat (length samples) < 2 ^ 24 ->
  decode_words_spec (pack_words samples) = samples.
Proof.
  intros Hall Hsmall.
  unfold decode_words_spec, pack_words.
  rewrite format_word_count_small by lia.
  rewrite Nat2Z.id.
  apply (nth_ext _ _ 0 0).
  - rewrite length_firstn, decode_halves_length, length_map,
      range_step2_length.
    pose proof (Nat.div_mod_eq (length samples + 1) 2) as En.
    pose proof (Nat.mod_upper_bound (length samples + 1) 2) as Bn.
    lia.
  - intros j Hj. rewrite length_firstn in Hj.
    assert (Hj' : (j < length samples)%nat) by lia.
    rewrite nth_firstn.
    apply Nat.ltb_lt in Hj'. rewrite Hj'. apply Nat.ltb_lt in Hj'.
    apply decode_halves_packed; assumption.
Qed.

(** C2 at the samples [-32768; 32767; -1]. *)
Lemma c2_round_trip_witness :
  decode_words_spec (pack_words [-32768; 32767; -1]) = [-32768; 32767; -1].
Proof.
  apply c2_round_trip.
  - repeat constructor; unfold int16; lia.
  - vm_compute. reflexivity.
Defined.

(** C2 as stated fails once the count no longer fits the 24 bits of the
    header: for [2^24] samples the header reads 0 and the decoder keeps
    nothing. *)
Lemma c2_round_trip_counterexample :
  Forall int16 (repeat 0 (Z.to_nat 16777216))
  /\ decode_words_spec (pack_words (repeat 0 (Z.to_nat 16777216)))
       <> repeat 0 (Z.to_nat 16777216).
Proof.
  remember (Z.to_nat 16777216) as N eqn:EN.
  split.
  - apply Forall_forall. intros x Hx. apply repeat_spec in Hx. subst x.
    unfold int16. lia.
  - unfold decode_words_spec, pack_words.
    rewrite format_word_count, repeat_length.
    assert (E : Z.of_nat N = 16777216) by (subst N; apply Z2Nat.id; lia).
    rewrite E.
    change (Z.to_nat (Z.land 16777216 0xFFFFFF)) with 0%nat.
    rewrite firstn_O.
    intros Habs. apply (f_equal (@length Z)) in Habs.
    rewrite repeat_length in Habs. cbn [length] in Habs. lia.
Qed.

End PackingFacts.

(** ** The drum resolver *)

Module ResolverFacts.
Import Resolver.
Local Open Scope Z_scope.

Section WithSample.

Variable Sample : Type.
Variable wav_written : Sample -> bool.

Lemma drum_notes_spec (note_num : Z) :
  In note_num drum_notes <-> 27 <= note_num <= 87.
Proof.
  unfold drum_notes. rewrite in_map_iff. split.
  - intros [k [<- Hk]]. apply in_seq in Hk. lia.
  - intros Hn. exists (Z.to_nat note_num). split; [lia |].
    apply in_seq. lia.
Qed.

Lemma contains_note_list (low high : Z) (s : option Sample) (note_num : Z) :
  contains_note (Bag (Some (KeyList low high)) s) note_num = true
  <-> low <= note_num <= high.
Proof.
  unfold contains_note. cbn.
  rewrite andb_true_iff, !Z.leb_le. tauto.
Qed.

(** The scan stops at the first bag that contains the note. *)
Lemma find_sample_first (pre post : list (bag Sample)) (b : bag Sample) (note_num : Z) :
  Forall (fun b' => contains_note b' note_num = false) pre ->
  contains_note b note_num = true ->
  find_sample (pre ++ b :: post) note_num = sample b.
Proof.
  intros Hpre Hb. induction Hpre as [| b' pre' Hb' _ IH]; cbn.
  - rewrite Hb. reflexivity.
  - rewrite Hb'. exact IH.
Qed.

Lemma find_sample_none (bags : list (bag Sample)) (note_num : Z) :
  Forall (fun b => contains_note b note_num = false) bags ->
  find_sample bags note_num = None.
Proof.
  intros Hall. induction Hall as [| b bags' Hb _ IH]; cbn.
  - reflexivity.
  - rewrite Hb. exact IH.
Qed.

Lemma extract_drums_spec (bags : list (bag Sample)) (note_num : Z) (s : Sample) :
  In (note_num, s) (extract_drums wav_written bags)
  <-> 27 <= note_num <= 87
      /\ find_sample bags note_num = Some s
      /\ wav_written s = true.
Proof.
  unfold extract_drums. rewrite in_flat_map. split.
  - intros [n [Hn Hin]]. apply drum_notes_spec in Hn.
    destruct (find_sample bags n) as [s' |] eqn:Ef; [| destruct Hin].
    destruct (wav_written s') eqn:Ew; [| destruct Hin].
    destruct Hin as [E | []]. injection E as -> ->. auto.
  - intros [Hn [Ef Ew]]. exists note_num.
    split; [apply drum_notes_spec, Hn |].
    rewrite Ef, Ew. left. reflexivity.
Qed.

(** C4.  For a note in 27..87 the resolver takes the sample of the first
    bag, in declared order, whose key range contains the note, and the
    output holds an entry for the note exactly when that bag has a sample
    whose WAV file is written, the entry being that sample; a list-form
    key range [[low, high]] contains the notes from [low] to [high]; of
    the ranges [30,40] then [35,45], note 37 resolves to the first, whose
    sample is the one in the output; a note that no bag contains resolves
    to nothing and is absent from the output. *)
Theorem c4_first_match_wins (bags : list (bag Sample)) (note_num : Z) :
  27 <= note_num <= 87 ->
  (forall (pre post : list (bag Sample)) (b : bag Sample),
      bags = pre ++ b :: post ->
      Forall (fun b' => contains_note b' note_num = false) pre ->
      contains_note b note_num = true ->
      find_sample bags note_num = sample b
      /\ (forall s, In (note_num, s) (extract_drums wav_written bags)
                    <-> sample b = Some s /\ wav_written s = true))
  /\ (forall (low high : Z) (s : option Sample),
        contains_note (Bag (Some (KeyList low high)) s) note_num = true
        <-> low <= note_num <= high)
  /\ (forall (s1 s2 : option Sample) (s : Sample),
        find_sample [Bag (Some (KeyList 30 40)) s1;
                     Bag (Some (KeyList 35 45)) s2] 37 = s1
        /\ (In (37, s)
               (extract_drums wav_written
                  [Bag (Some (KeyList 30 40)) s1;
                   Bag (Some (KeyList 35 45)) s2])
            <-> s1 = Some s /\ wav_written s = true))
  /\ (Forall (fun b => contains_note b note_num = false) bags ->
      find_sample bags note_num = None
      /\ forall s, ~ In (note_num, s) (extract_drums wav_written bags)).
Proof.
  intros Hn. split; [| split; [| split]].
  - intros pre post b -> Hpre Hb. split.
    + apply find_sample_first; assumption.
    + intros s. rewrite extract_drums_spec.
      rewrite (@find_sample_first pre post b note_num Hpre Hb). tauto.
  - intros low high s. apply contains_note_list.
  - intros s1 s2 s. split; [reflexivity |].
    rewrite extract_drums_spec.
    change (find_sample [Bag (Some (KeyList 30 40)) s1;
                         Bag (Some (KeyList 35 45)) s2] 37) with s1.
    split; [tauto | intros [H1 H2]; split; [lia | auto]].
  - intros Hall. split.
    + apply find_sample_none. exact Hall.
    + intros s Hin. apply extract_drums_spec in Hin.
      destruct Hin as [_ [Ef _]].
      rewrite find_sample_none in Ef by assumption. discriminate.
Qed.

End WithSample.

(** C4 on an instrument of three bags, the first without a key range, at
    notes 37 (in both ranges) and 50 (in none). *)
Lemma c4_first_match_wins_witness :
  let bags := [Bag None (Some 0%nat);
               Bag (Some (KeyList 30 40)) (Some 1%nat);
               Bag (Some (KeyList 35 45)) (Some 2%nat)] in
  find_sample bags 37 = Some 1%nat
  /\ In (37, 1%nat) (extract_drums (fun _ => true) bags)
  /\ ~ In (37, 2%nat) (extract_drums (fun _ => true) bags)
  /\ find_sample bags 50 = None
  /\ ~ In (50, 2%nat) (extract_drums (fun _ => true) bags).
Proof.
  intros bags.
  destruct (c4_first_match_wins (fun _ : nat => true) bags (note_num := 37))
    as [Hfirst _]; [lia |].
  destruct (c4_first_match_wins (fun _ : nat => true) bags (note_num := 50))
    as [_ [_ [_ Hnone]]]; [lia |].
  assert (Hpre : Forall (fun b => contains_note b 37 = false)
                        [Bag None (Some 0%nat)])
    by (repeat constructor).
  destruct (Hfirst [Bag None (Some 0%nat)]
                   [Bag (Some (KeyList 35 45)) (Some 2%nat)]
                   (Bag (Some (KeyList 30 40)) (Some 1%nat))
                   eq_refl Hpre eq_refl) as [Hsel Hout37].
  assert (Hall : Forall (fun b => contains_note b 50 = false) bags)
    by (repeat constructor).
  destruct (Hnone Hall) as [Hf Hout].
  split; [exact Hsel |].
  split; [apply Hout37; split; reflexivity |].
  split; [intros Hin; apply Hout37 in Hin; destruct Hin as [E _];
          discriminate E |].
  split; [exact Hf | apply Hout].
Defined.

End ResolverFacts.

(** ** The audio normaliser *)

Module NormalizerFacts.
Import Normalizer.
Local Open Scope Q_scope.

(** *** Comparisons *)

Lemma Qgtb_lt (a b : Q) : Qgtb a b = true <-> b < a.
Proof.
  unfold Qgtb. rewrite negb_true_iff. split.
  - intros Hb. apply Qnot_le_lt. intros Hle.
    apply Qle_bool_iff in Hle. congruence.
  - intros Hlt. destruct (Qle_bool a b) eqn:E; [| reflexivity].
    apply Qle_bool_iff in E. exfalso. exact (Qlt_not_le _ _ Hlt E).
Qed.

Lemma Qgtb_le (a b : Q) : Qgtb a b = false <-> a <= b.
Proof.
  unfold Qgtb. rewrite negb_false_iff. apply Qle_bool_iff.
Qed.

(** *** The running maximum *)

Lemma Qmax_pick (x y : Q) : Qmax x y = x \/ Qmax x y = y.
Proof.
  unfold Qmax, GenericMinMax.gmax. destruct (x ?= y); auto.
Qed.

Lemma fold_max_in (rest : list Q) (x : Q) :
  In (fold_left Qmax rest x) (x :: rest).
Proof.
  revert x. induction rest as [| y rest IH]; intros x; cbn [fold_left].
  - left. reflexivity.
  - destruct (IH (Qmax x y)) as [E | Hin].
    + rewrite <- E. destruct (Qmax_pick x y) as [-> | ->].
      * left. reflexivity.
      * right. left. reflexivity.
    + right. right. exact Hin.
Qed.

Lemma fold_max_acc (rest : list Q) (x : Q) : x <= fold_left Qmax rest x.
Proof.
  revert x. induction rest as [| y rest IH]; intros x; cbn [fold_left].
  - apply Qle_refl.
  - eapply Qle_trans; [apply Q.le_max_l | apply IH].
Qed.

Lemma fold_max_ge (rest : list Q) (x y : Q) :
  In y (x :: rest) -> y <= fold_left Qmax rest x.
Proof.
  revert x. induction rest as [| z rest IH]; intros x Hin.
  - destruct Hin as [-> | []]. apply Qle_refl.
  - cbn [fold_left]. destruct Hin as [-> | [-> | Hin]].
    + eapply Qle_trans; [apply Q.le_max_l | apply fold_max_acc].
    + eapply Qle_trans; [apply Q.le_max_r | apply fold_max_acc].
    + apply IH. right. exact Hin.
Qed.

Lemma np_max_nonempty (a : list Q) :
  a <> [] -> exists m, np_max a = Ok m /\ In m a /\ forall y, In y a -> y <= m.
Proof.
  destruct a as [| x rest]; [congruence |]. intros _.
  exists (fold_left Qmax rest x). split; [reflexivity |].
  split; [apply fold_max_in | apply fold_max_ge].
Qed.

Lemma np_abs_nonempty (a : list Q) : a <> [] -> np_abs a <> [].
Proof.
  destruct a; [congruence | discriminate].
Qed.

(** The absolute peak of a non-empty buffer is the magnitude of one of its
    samples and bounds them all. *)
Lemma peak_spec (a : list Q) :
  a <> [] ->
  np_max (np_abs a) = Ok (peak a)
  /\ (exists x, In x a /\ peak a = Qabs x)
  /\ (forall x, In x a -> Qabs x <= peak a).
Proof.
  intros Ha. unfold peak.
  destruct (np_max_nonempty (np_abs_nonempty Ha)) as [m [-> [Hin Hub]]].
  split; [reflexivity |]. split.
  - unfold np_abs in Hin. apply in_map_iff in Hin.
    destruct Hin as [x [E Hx]]. exists x. auto.
  - intros x Hx. apply Hub. unfold np_abs. apply in_map. exact Hx.
Qed.

Lemma peak_nonneg (a : list Q) : a <> [] -> 0 <= peak a.
Proof.
  intros Ha. destruct (peak_spec Ha) as [_ [[x [_ ->]] _]].
  apply Qabs_nonneg.
Qed.

Lemma Qabs_zero (x : Q) : Qabs x <= 0 -> x == 0.
Proof.
  intros Hx. apply Qabs_Qle_condition in Hx. destruct Hx as [H1 H2].
  apply Qle_antisym; [exact H2 | exact H1].
Qed.

(** *** Peak normalisation *)

Lemma normalize_scaled (t : Q) (a : list Q) :
  a <> [] -> 0 < peak a ->
  normalize_audio_to t a = Ok (map (fun x => x * (t / peak a)) a).
Proof.
  intros Ha Hpos. unfold normalize_audio_to.
  destruct (peak_spec Ha) as [-> _]. cbn [bind].
  apply Qgtb_lt in Hpos. rewrite Hpos. reflexivity.
Qed.

Lemma normalize_silent (t : Q) (a : list Q) :
  a <> [] -> peak a == 0 -> normalize_audio_to t a = Ok a.
Proof.
  intros Ha Hz. unfold normalize_audio_to.
  destruct (peak_spec Ha) as [-> _]. cbn [bind].
  assert (Hle : peak a <= 0) by (rewrite Hz; apply Qle_refl).
  apply Qgtb_le in Hle. rewrite Hle. reflexivity.
Qed.

Lemma scaled_magnitude (t m x : Q) :
  0 <= t -> 0 < m -> Qabs (x * (t / m)) == Qabs x * (t / m).
Proof.
  intros Ht Hm. rewrite Qabs_Qmult.
  rewrite (Qabs_pos (t / m)); [reflexivity |].
  apply Qle_shift_div_l; [exact Hm |].
  rewrite Qmult_0_l. exact Ht.
Qed.

Lemma peak_scaled (t : Q) (a : list Q) :
  a <> [] -> 0 <= t -> 0 < peak a ->
  peak (map (fun x => x * (t / peak a)) a) == t.
Proof.
  intros Ha Ht Hpos.
  set (m := peak a) in *.
  set (b := map (fun x => x * (t / m)) a).
  assert (Hb : b <> []) by (unfold b; destruct a; [congruence | discriminate]).
  assert (Hm0 : ~ m == 0)
    by (intros E; rewrite E in Hpos; exact (Qlt_irrefl _ Hpos)).
  assert (Hfull : m * (t / m) == t) by (field; exact Hm0).
  assert (Hc : 0 <= t / m).
  { apply Qle_shift_div_l; [exact Hpos |]. rewrite Qmult_0_l. exact Ht. }
  destruct (peak_spec Ha) as [_ [[x0 [Hx0 Em]] Hub]]. fold m in Em, Hub.
  destruct (peak_spec Hb) as [_ [[y [Hy Ey]] Hubb]].
  apply Qle_antisym.
  - rewrite Ey. unfold b in Hy. apply in_map_iff in Hy.
    destruct Hy as [x [<- Hx]].
    rewrite (scaled_magnitude x Ht Hpos).
    apply Qle_trans with (m * (t / m)).
    + apply Qmult_le_compat_r; [apply Hub, Hx | exact Hc].
    + rewrite Hfull. apply Qle_refl.
  - assert (Hin : In (x0 * (t / m)) b)
      by exact (in_map (fun x => x * (t / m)) a x0 Hx0).
    apply Hubb in Hin.
    apply Qle_trans with (Qabs x0 * (t / m)).
    + rewrite <- Em, Hfull. apply Qle_refl.
    + rewrite <- (scaled_magnitude x0 Ht Hpos). exact Hin.
Qed.

Lemma silent_all_zero (a : list Q) :
  a <> [] -> peak a == 0 -> Forall (fun x => x == 0) a.
Proof.
  intros Ha Hz. destruct (peak_spec Ha) as [_ [_ Hub]].
  apply Forall_forall. intros x Hx. apply Qabs_zero.
  rewrite <- Hz. apply Hub, Hx.
Qed.

(** Whatever normalisation returns has the length of its input and stays
    within the target peak. *)
Lemma normalize_result (a b : list Q) :
  normalize_audio a = Ok b ->
  a <> [] /\ length b = length a /\ Forall (fun x => Qabs x <= 0.9) b.
Proof.
  intros E.
  assert (Ha : a <> []) by (intros ->; discriminate E).
  split; [exact Ha |].
  destruct (peak_spec Ha) as [_ [_ Hub]].
  destruct (Qlt_le_dec 0 (peak a)) as [Hpos | Hle].
  - unfold normalize_audio in E. rewrite (normalize_scaled 0.9 Ha Hpos) in E.
    injection E as <-. split; [apply length_map |].
    apply Forall_forall. intros y Hy. apply in_map_iff in Hy.
    destruct Hy as [x [<- Hx]].
    assert (H09 : 0 <= 0.9) by discriminate.
    rewrite (scaled_magnitude x H09 Hpos).
    assert (Hm0 : ~ peak a == 0)
      by (intros Ez; rewrite Ez in Hpos; exact (Qlt_irrefl _ Hpos)).
    apply Qle_trans with (peak a * (0.9 / peak a)).
    + apply Qmult_le_compat_r; [apply Hub, Hx |].
      apply Qle_shift_div_l; [exact Hpos |]. rewrite Qmult_0_l. exact H09.
    + assert (Efull : peak a * (0.9 / peak a) == 0.9) by (field; exact Hm0).
      rewrite Efull. apply Qle_refl.
  - assert (Hz : peak a == 0)
      by (apply Qle_antisym; [exact Hle | apply peak_nonneg, Ha]).
    unfold normalize_audio in E. rewrite (normalize_silent 0.9 Ha Hz) in E.
    injection E as <-. split; [reflexivity |].
    apply Forall_forall. intros x Hx.
    apply Qle_trans with (peak a); [apply Hub, Hx |].
    rewrite Hz. discriminate.
Qed.

(** C5.  Peak normalisation of a non-empty buffer returns a buffer; when
    the absolute peak of the input is nonzero the absolute peak of the
    result is 0.9 (so within 1e-4 of it), and when it is zero the result
    is the input itself, all of whose samples are zero. *)
Theorem c5_peak_normalize (a : list Q) :
  a <> [] ->
  exists b,
    normalize_audio a = Ok b
    /\ length b = length a
    /\ 0 <= peak a
    /\ (0 < peak a -> peak b == 0.9 /\ Qabs (peak b - 0.9) <= 1 # 10000)
    /\ (peak a == 0 -> b = a /\ Forall (fun x => x == 0) b).
Proof.
  intros Ha.
  pose proof (peak_nonneg Ha) as Hnn.
  destruct (Qlt_le_dec 0 (peak a)) as [Hpos | Hle].
  - exists (map (fun x => x * (0.9 / peak a)) a).
    split; [apply normalize_scaled; assumption |].
    split; [apply length_map |].
    split; [exact Hnn |].
    split.
    + intros _.
      assert (Hp : peak (map (fun x => x * (0.9 / peak a)) a) == 0.9)
        by (apply peak_scaled; [exact Ha | discriminate | exact Hpos]).
      split; [exact Hp |].
      rewrite Hp. discriminate.
    + intros Hz. rewrite Hz in Hpos. exfalso. exact (Qlt_irrefl _ Hpos).
  - assert (Hz : peak a == 0) by (apply Qle_antisym; assumption).
    exists a.
    split; [apply normalize_silent; assumption |].
    split; [reflexivity |].
    split; [exact Hnn |].
    split.
    + intros Hpos. exfalso. exact (Qlt_not_le _ _ Hpos Hle).
    + intros _. split; [reflexivity | apply silent_all_zero; assumption].
Qed.

(** C5 at the buffer [1/4; -1/2; 1/8] and at a silent one. *)
Lemma c5_peak_normalize_witness :
  (exists b, normalize_audio [1 # 4; - (1 # 2); 1 # 8] = Ok b
             /\ peak b == 0.9)
  /\ normalize_audio [0; 0] = Ok [0; 0].
Proof.
  split.
  - destruct (@c5_peak_normalize [1 # 4; - (1 # 2); 1 # 8])
      as [b [Hb [_ [_ [Hpos _]]]]]; [discriminate |].
    exists b. split; [exact Hb |]. apply Hpos. reflexivity.
  - destruct (@c5_peak_normalize [0; 0]) as [b [Hb [_ [_ [_ Hz]]]]];
      [discriminate |].
    destruct Hz as [-> _]; [reflexivity | exact Hb].
Defined.

(** *** Silence trimming *)

Lemma np_where_filter_from (cond : Q -> bool) (a : list Q) (s : nat) :
  map fst (filter (fun p => cond (snd p)) (combine (seq s (length a)) a))
    = filter (fun i => cond (nth (i - s) a 0)) (seq s (length a)).
Proof.
  revert s. induction a as [| x a IH]; intros s; [reflexivity |].
  cbn [length seq combine filter snd]. rewrite Nat.sub_diag.
  change (nth 0 (x :: a) 0) with x.
  assert (Etail : filter (fun i => cond (nth (i - s) (x :: a) 0))
                         (seq (S s) (length a))
                  = filter (fun i => cond (nth (i - S s) a 0))
                           (seq (S s) (length a))).
  { apply filter_ext_in. intros i Hi. apply in_seq in Hi.
    replace (i - s)%nat with (S (i - S s)) by lia. reflexivity. }
  destruct (cond x); cbn [map fst]; rewrite IH, Etail; reflexivity.
Qed.

Lemma np_where_filter (cond : Q -> bool) (a : list Q) :
  np_where cond a = filter (fun i => cond (nth i a 0)) (seq 0 (length a)).
Proof.
  unfold np_where. rewrite np_where_filter_from.
  apply filter_ext. intros i. rewrite Nat.sub_0_r. reflexivity.
Qed.

(** The head of the selected indices is the least selected index. *)
Lemma filter_seq_head (p : nat -> bool) (n s f : nat) (rest : list nat) :
  filter p (seq s n) = f :: rest ->
  p f = true /\ (s <= f < s + n)%nat
  /\ forall i, (s <= i < f)%nat -> p i = false.
Proof.
  revert s. induction n as [| n IH]; intros s Hf; [discriminate |].
  cbn [seq filter] in Hf. destruct (p s) eqn:Es.
  - injection Hf as <- _. repeat split; [exact Es | lia | lia | intros; lia].
  - destruct (IH _ Hf) as [Hp [Hr Hlow]].
    repeat split; [exact Hp | lia | lia |].
    intros i Hi. destruct (Nat.eq_dec i s) as [-> | Ne]; [exact Es |].
    apply Hlow. lia.
Qed.

(** Their last element is the greatest selected index. *)
Lemma filter_seq_last (p : nat -> bool) (n s d : nat) :
  filter p (seq s n) <> [] ->
  let l := last (filter p (seq s n)) d in
  p l = true /\ (s <= l < s + n)%nat
  /\ forall i, (l < i < s + n)%nat -> p i = false.
Proof.
  induction n as [| n IH]; intros Hne; [cbn in Hne; congruence |].
  revert Hne. rewrite seq_S, filter_app. cbn [filter].
  destruct (p (s + n)%nat) eqn:En.
  - intros _. rewrite last_last.
    repeat split; [exact En | lia | lia | intros; lia].
  - rewrite app_nil_r. intros Hne.
    destruct (IH Hne) as [Hp [Hr Hhigh]].
    repeat split; [exact Hp | lia | lia |].
    intros i Hi. destruct (Nat.eq_dec i (s + n)) as [-> | Ne]; [exact En |].
    apply Hhigh. lia.
Qed.

Lemma filter_seq_empty (p : nat -> bool) (n s : nat) :
  filter p (seq s n) = [] -> forall i, (s <= i < s + n)%nat -> p i = false.
Proof.
  intros He i Hi.
  destruct (p i) eqn:Ei; [| reflexivity].
  assert (Hin : In i (filter p (seq s n)))
    by (apply filter_In; split; [apply in_seq; lia | exact Ei]).
  rewrite He in Hin. destruct Hin.
Qed.

Lemma slice_length (A : Type) (a : list A) (start stop : Z) :
  (0 <= start)%Z -> (start <= stop)%Z -> (stop <= Z.of_nat (length a))%Z ->
  length (slice a start stop) = Z.to_nat (stop - start).
Proof.
  intros H0 H1 H2. unfold slice. rewrite length_firstn, length_skipn. lia.
Qed.

Section Trim.

Variable a : list Q.

Lemma selected_exceeds (i : nat) : selected a i = true <-> exceeds a i.
Proof.
  unfold selected, exceeds, np_abs.
  change 0 with (Qabs 0) at 1. rewrite map_nth. apply Qgtb_lt.
Qed.

Lemma selected_not_exceeds (i : nat) : selected a i = false <-> ~ exceeds a i.
Proof.
  rewrite <- selected_exceeds. destruct (selected a i); split; congruence.
Qed.

Lemma trim_silence_unfold :
  a <> [] ->
  trim_silence a =
    match filter (selected a) (seq 0 (length a)) with
    | [] => Ok a
    | first :: _ =>
        Ok (slice a (Z.max 0 (Z.of_nat first - 100))
                  (Z.min (Z.of_nat (length a))
                         (Z.of_nat (last (filter (selected a) (seq 0 (length a)))
                                         first) + 4410)))
    end.
Proof.
  intros Ha. unfold trim_silence, trim_silence_with.
  destruct (peak_spec Ha) as [-> _]. cbn [bind].
  rewrite np_where_filter.
  replace (length (np_abs a)) with (length a)
    by (symmetry; apply length_map).
  reflexivity.
Qed.

(** What silence trimming returns on a non-empty buffer. *)
Lemma trim_silence_spec :
  a <> [] ->
  exists b,
    trim_silence a = Ok b
    /\ b <> []
    /\ ((forall i, (i < length a)%nat -> ~ exceeds a i) -> b = a)
    /\ (forall first last : nat,
          (first < length a)%nat -> (last < length a)%nat ->
          exceeds a first -> exceeds a last ->
          (forall i, (i < first)%nat -> ~ exceeds a i) ->
          (forall i, (last < i < length a)%nat -> ~ exceeds a i) ->
          let start := Z.max 0 (Z.of_nat first - 100) in
          let stop := Z.min (Z.of_nat (length a)) (Z.of_nat last + 4410) in
          b = slice a start stop
          /\ length b = Z.to_nat (stop - start)
          /\ forall j, (j < length b)%nat ->
                       nth j b 0 = nth (Z.to_nat start + j) a 0).
Proof.
  intros Ha. rewrite (trim_silence_unfold Ha).
  destruct (filter (selected a) (seq 0 (length a))) as [| f rest] eqn:Ef.
  - exists a. split; [reflexivity |]. split; [exact Ha |].
    split; [reflexivity |].
    intros first last Hf _ Hex _ _ _. exfalso.
    apply selected_exceeds in Hex.
    rewrite (@filter_seq_empty (selected a) (length a) 0%nat Ef first) in Hex by lia. discriminate.
  - destruct (@filter_seq_head (selected a) (length a) 0%nat f rest Ef) as [Hpf [Hrf Hlowf]].
    assert (Hne : filter (selected a) (seq 0 (length a)) <> [])
      by (rewrite Ef; discriminate).
    destruct (@filter_seq_last (selected a) (length a) 0%nat f Hne) as [Hpl [Hrl Hhighl]].
    rewrite Ef in Hpl, Hrl, Hhighl.
    set (l := last (f :: rest) f) in *.
    assert (Hfl : (f <= l)%nat).
    { destruct (le_lt_dec f l) as [H | H]; [exact H | exfalso].
      rewrite Hhighl in Hpf by lia. discriminate. }
    eexists. split; [reflexivity |]. split.
    + intros Hnil. apply (f_equal (@length Q)) in Hnil.
      rewrite slice_length in Hnil by lia. cbn [length] in Hnil. lia.
    + split.
      * intros Hnone. exfalso. apply (Hnone f); [lia |].
        apply selected_exceeds, Hpf.
      * intros first last Hf Hl Hexf Hexl Hlow Hhigh.
        assert (Ef1 : f = first).
        { destruct (lt_eq_lt_dec f first) as [[H | H] | H];
            [exfalso | exact H | exfalso].
          - apply (Hlow f H). apply selected_exceeds, Hpf.
          - apply selected_exceeds in Hexf.
            rewrite Hlowf in Hexf by lia. discriminate. }
        assert (El1 : l = last).
        { destruct (lt_eq_lt_dec l last) as [[H | H] | H];
            [exfalso | exact H | exfalso].
          - apply selected_exceeds in Hexl.
            rewrite Hhighl in Hexl by lia. discriminate.
          - apply (Hhigh l); [lia |]. apply selected_exceeds, Hpl. }
        rewrite Ef1, El1 in *. cbv zeta.
        set (start := Z.max 0 (Z.of_nat first - 100)).
        set (stop := Z.min (Z.of_nat (length a)) (Z.of_nat last + 4410)).
        assert (Hlen : length (slice a start stop) = Z.to_nat (stop - start))
          by (apply slice_length; unfold start, stop; lia).
        split; [reflexivity |]. split; [exact Hlen |].
        intros j Hj. rewrite Hlen in Hj. unfold slice.
        rewrite nth_firstn.
        assert (Hjb : (j <? Z.to_nat stop - Z.to_nat start)%nat = true)
          by (apply Nat.ltb_lt; unfold start, stop in *; lia).
        rewrite Hjb. apply nth_skipn.
Qed.

(** A sample equal to zero is not above the threshold. *)
Lemma zero_not_exceeds (i : nat) : a <> [] -> nth i a 0 == 0 -> ~ exceeds a i.
Proof.
  intros Ha Hz Hex. unfold exceeds in Hex. rewrite Hz in Hex.
  change (Qabs 0) with 0 in Hex.
  pose proof (peak_nonneg Ha) as Hp. lra.
Qed.

(** C6, as the code has it.  On a non-empty buffer silence trimming
    returns a non-empty buffer.  With the threshold at 1% of the absolute
    peak: if no sample exceeds it in magnitude the buffer comes back
    unchanged; otherwise, [first] and [last] being the first and the last
    index whose sample exceeds it, the result is the slice that starts 100
    samples before [first], clamped to 0, and stops at index [last + 4410],
    clamped to the buffer length.  The stop index of a slice is left out:
    where the buffer is long enough on both sides, 100 samples come before
    the sample at [first] and 4409, not 4410, after the sample at
    [last]. *)
Theorem c6_trim_silence :
  a <> [] ->
  exists b,
    trim_silence a = Ok b
    /\ b <> []
    /\ ((forall i, (i < length a)%nat -> ~ exceeds a i) -> b = a)
    /\ (forall first last : nat,
          (first < length a)%nat -> (last < length a)%nat ->
          exceeds a first -> exceeds a last ->
          (forall i, (i < first)%nat -> ~ exceeds a i) ->
          (forall i, (last < i < length a)%nat -> ~ exceeds a i) ->
          let start := Z.max 0 (Z.of_nat first - 100) in
          let stop := Z.min (Z.of_nat (length a)) (Z.of_nat last + 4410) in
          b = slice a start stop
          /\ length b = Z.to_nat (stop - start)
          /\ (forall j, (j < length b)%nat ->
                        nth j b 0 = nth (Z.to_nat start + j) a 0)
          /\ ((100 <= first)%nat ->
                (100 < length b)%nat /\ nth 100 b 0 = nth first a 0)
          /\ ((last + 4410 <= length a)%nat ->
                let at_last := (last - Z.to_nat start)%nat in
                nth at_last b 0 = nth last a 0
                /\ length b = (at_last + 1 + 4409)%nat
                /\ nth (length b - 1) b 0 = nth (last + 4409) a 0)).
Proof.
  intros Ha. destruct (trim_silence_spec Ha) as [b [Eb [Hne [Hnone Hsl]]]].
  exists b. split; [exact Eb |]. split; [exact Hne |]. split; [exact Hnone |].
  intros first last Hf Hl Hexf Hexl Hlow Hhigh start stop.
  destruct (Hsl first last Hf Hl Hexf Hexl Hlow Hhigh) as [Es [Hlen Hnth]].
  fold start stop in Es, Hlen, Hnth.
  assert (Hfl : (first <= last)%nat).
  { destruct (le_lt_dec first last) as [H | H]; [exact H | exfalso].
    apply (Hlow last H). exact Hexl. }
  split; [exact Es |]. split; [exact Hlen |]. split; [exact Hnth |].
  split.
  - intros H100.
    assert (Hb : (100 < length b)%nat) by (unfold start, stop in Hlen; lia).
    split; [exact Hb |]. rewrite (Hnth _ Hb). f_equal. unfold start. lia.
  - intros Hroom at_last.
    assert (Hat : (at_last < length b)%nat)
      by (unfold at_last, start, stop in *; lia).
    assert (Hbl : length b = (at_last + 1 + 4409)%nat)
      by (unfold at_last, start, stop in *; lia).
    split; [| split; [exact Hbl |]].
    + rewrite (Hnth _ Hat). f_equal. unfold at_last, start. lia.
    + rewrite Hnth by lia. f_equal. unfold at_last, start in *. lia.
Qed.

End Trim.

(** C6 at a buffer of 200 silent samples, one loud sample and 4500 silent
    ones: the result holds 100 silent samples before the loud one and
    4409 after it. *)
Lemma c6_trim_silence_witness :
  let a := repeat 0 200 ++ 1 :: repeat 0 4500 in
  exists b,
    trim_silence a = Ok b
    /\ length b = (100 + 1 + 4409)%nat
    /\ nth 100 b 0 = 1
    /\ b = repeat 0 100 ++ 1 :: repeat 0 4409.
Proof.
  intros a.
  assert (Ha : a <> []) by discriminate.
  assert (Hlen : length a = 4701%nat)
    by (unfold a; rewrite length_app; cbn [length];
        rewrite !repeat_length; reflexivity).
  assert (Hloud : nth 200 a 0 = 1).
  { unfold a. rewrite app_nth2; rewrite repeat_length; [| lia].
    reflexivity. }
  assert (Hsilent : forall i, i <> 200%nat -> ~ exceeds a i).
  { intros i Hi. apply (@zero_not_exceeds a i Ha).
    unfold a. destruct (Nat.lt_ge_cases i 200) as [Hlt | Hge].
    - rewrite app_nth1 by (rewrite repeat_length; exact Hlt).
      rewrite nth_repeat. reflexivity.
    - rewrite app_nth2; rewrite repeat_length; [| exact Hge].
      destruct (i - 200)%nat as [| k] eqn:Ek; [lia |].
      cbn [nth]. rewrite nth_repeat. reflexivity. }
  assert (Hpeak : peak a = 1) by (vm_compute; reflexivity).
  assert (Hex : exceeds a 200).
  { unfold exceeds. rewrite Hpeak, Hloud. reflexivity. }
  destruct (@c6_trim_silence a Ha) as [b [Eb [_ [_ Hsl]]]].
  exists b. split; [exact Eb |].
  destruct (Hsl 200%nat 200%nat) as [Es [_ [_ [Hlead Htail]]]];
    try (rewrite Hlen; lia); try exact Hex;
    try (intros i Hi; apply Hsilent; lia).
  destruct Hlead as [_ H100]; [lia |].
  destruct Htail as [_ [Hl _]]; [rewrite Hlen; lia |].
  split; [exact Hl |].
  split; [rewrite H100; exact Hloud |].
  rewrite Es, Hlen. vm_compute. reflexivity.
Defined.

(** A run on a longer buffer: 150 silent samples, one loud sample, 5 silent
    ones; the first 50 samples go. *)
Example trim_silence_run :
  let a := repeat 0 150 ++ [1 # 2] ++ repeat 0 5 in
  trim_silence a = Ok (repeat 0 100 ++ [1 # 2] ++ repeat 0 5).
Proof.
  vm_compute. reflexivity.
Qed.

(** *** Fades *)

Lemma linspace_length (s e : Q) (k : nat) : length (linspace s e k) = k.
Proof.
  destruct k as [| [| k]]; try reflexivity.
  unfold linspace. rewrite length_map, length_seq. reflexivity.
Qed.

(** The [i]-th value of a ramp of at least two values. *)
Lemma linspace_nth (s e : Q) (k i : nat) :
  (2 <= k)%nat -> (i < k)%nat ->
  nth i (linspace s e k) 0
    = s + inject_Z (Z.of_nat i) * ((e - s) / inject_Z (Z.of_nat (k - 1))).
Proof.
  intros Hk Hi. destruct k as [| [| k]]; try lia.
  unfold linspace.
  set (f := fun j : nat => s + inject_Z (Z.of_nat j)
                               * ((e - s) / inject_Z (Z.of_nat (S k)))).
  rewrite (nth_indep _ 0 (f 0%nat)) by (rewrite length_map, length_seq; exact Hi).
  rewrite map_nth, seq_nth by exact Hi.
  unfold f. replace (S (S k) - 1)%nat with (S k) by lia. reflexivity.
Qed.

Lemma linspace_single (s e : Q) : linspace s e 1 = [s].
Proof. reflexivity. Qed.

Lemma inject_nat_le (i j : nat) :
  (i <= j)%nat -> inject_Z (Z.of_nat i) <= inject_Z (Z.of_nat j).
Proof.
  intros H. rewrite <- Zle_Qle. lia.
Qed.

Lemma inject_nat_pos (n : nat) : (1 <= n)%nat -> 0 < inject_Z (Z.of_nat n).
Proof.
  intros H. change 0 with (inject_Z 0). rewrite <- Zlt_Qlt. lia.
Qed.

Lemma linspace_first (s e : Q) (k : nat) :
  (1 <= k)%nat -> nth 0 (linspace s e k) 0 == s.
Proof.
  intros Hk. destruct (Nat.eq_dec k 1) as [-> | Hne]; [reflexivity |].
  rewrite linspace_nth by lia. cbn [Z.of_nat]. ring.
Qed.

Lemma linspace_last (s e : Q) (k : nat) :
  (2 <= k)%nat -> nth (k - 1) (linspace s e k) 0 == e.
Proof.
  intros Hk. rewrite linspace_nth by lia.
  field. intros E.
  pose proof (@inject_nat_pos (k - 1) ltac:(lia)) as Hpos.
  rewrite E in Hpos. exact (Qlt_irrefl _ Hpos).
Qed.

(** A ramp that goes up never steps down, one that goes down never steps
    up. *)
Lemma linspace_up (s e : Q) (k i j : nat) :
  s <= e -> (i <= j < k)%nat ->
  nth i (linspace s e k) 0 <= nth j (linspace s e k) 0.
Proof.
  intros Hse [Hij Hj].
  destruct (Nat.eq_dec k 1) as [-> | Hne].
  - assert (i = 0%nat) as -> by lia. assert (j = 0%nat) as -> by lia.
    apply Qle_refl.
  - rewrite !linspace_nth by lia.
    apply Qplus_le_r. apply Qmult_le_compat_r; [apply inject_nat_le, Hij |].
    apply Qle_shift_div_l; [apply inject_nat_pos; lia |].
    rewrite Qmult_0_l. unfold Qminus. rewrite <- Qle_minus_iff. exact Hse.
Qed.

Lemma linspace_down (s e : Q) (k i j : nat) :
  e <= s -> (i <= j < k)%nat ->
  nth j (linspace s e k) 0 <= nth i (linspace s e k) 0.
Proof.
  intros Hes [Hij Hj].
  destruct (Nat.eq_dec k 1) as [-> | Hne].
  - assert (i = 0%nat) as -> by lia. assert (j = 0%nat) as -> by lia.
    apply Qle_refl.
  - rewrite !linspace_nth by lia.
    set (c := (s - e) / inject_Z (Z.of_nat (k - 1))).
    assert (Hc : 0 <= c).
    { apply Qle_shift_div_l; [apply inject_nat_pos; lia |].
      rewrite Qmult_0_l. unfold Qminus. rewrite <- Qle_minus_iff. exact Hes. }
    assert (Eneg : (e - s) / inject_Z (Z.of_nat (k - 1)) == - c).
    { unfold c. field. intros E.
      pose proof (@inject_nat_pos (k - 1) ltac:(lia)) as Hpos.
      rewrite E in Hpos. exact (Qlt_irrefl _ Hpos). }
    rewrite Eneg.
    apply Qplus_le_r.
    setoid_replace (inject_Z (Z.of_nat j) * - c)
      with (- (inject_Z (Z.of_nat j) * c)) by ring.
    setoid_replace (inject_Z (Z.of_nat i) * - c)
      with (- (inject_Z (Z.of_nat i) * c)) by ring.
    apply Qopp_le_compat.
    apply Qmult_le_compat_r; [apply inject_nat_le, Hij | exact Hc].
Qed.

Lemma scale_length (w f : list Q) :
  length w = length f -> length (scale w f) = length w.
Proof.
  revert f. induction w as [| x w IH]; intros [| y f] H; cbn in *;
    try reflexivity; try discriminate.
  rewrite IH by lia. reflexivity.
Qed.

Lemma scale_nth (w f : list Q) (i : nat) :
  length w = length f -> (i < length w)%nat ->
  nth i (scale w f) 0 = nth i w 0 * nth i f 0.
Proof.
  revert f i. induction w as [| x w IH]; intros [| y f] i H Hi; cbn in *;
    try lia.
  destruct i as [| i]; [reflexivity |]. apply IH; lia.
Qed.

Lemma clamp_window (fade_samples : nat) (a : list Q) :
  (if (length a <? fade_samples)%nat then length a else fade_samples)
    = window fade_samples a.
Proof.
  unfold window. destruct (Nat.ltb_spec (length a) fade_samples); lia.
Qed.

Section Fades.

Variable a : list Q.
Variable fade_samples : nat.

Let k := window fade_samples a.

Lemma window_le : (k <= length a)%nat.
Proof. unfold k, window. lia. Qed.

Lemma fade_in_unfold :
  apply_fade_in a fade_samples
    = scale (firstn k a) (linspace 0 1 k) ++ skipn k a.
Proof.
  unfold apply_fade_in. rewrite clamp_window. reflexivity.
Qed.

Lemma fade_in_window_length : length (scale (firstn k a) (linspace 0 1 k)) = k.
Proof.
  pose proof window_le.
  rewrite scale_length; rewrite length_firstn, ?linspace_length; lia.
Qed.

Lemma fade_in_length : length (apply_fade_in a fade_samples) = length a.
Proof.
  pose proof window_le.
  rewrite fade_in_unfold, length_app, fade_in_window_length, length_skipn. lia.
Qed.

Lemma fade_in_inside (i : nat) :
  (i < k)%nat ->
  nth i (apply_fade_in a fade_samples) 0
    = nth i a 0 * nth i (linspace 0 1 k) 0.
Proof.
  intros Hi. pose proof window_le.
  rewrite fade_in_unfold, app_nth1 by (rewrite fade_in_window_length; exact Hi).
  rewrite scale_nth by (rewrite length_firstn, ?linspace_length; lia).
  rewrite nth_firstn.
  apply Nat.ltb_lt in Hi. rewrite Hi. reflexivity.
Qed.

Lemma fade_in_outside (i : nat) :
  (k <= i)%nat -> nth i (apply_fade_in a fade_samples) 0 = nth i a 0.
Proof.
  intros Hi.
  rewrite fade_in_unfold, app_nth2 by (rewrite fade_in_window_length; lia).
  rewrite fade_in_window_length, nth_skipn. f_equal. lia.
Qed.

Hypothesis Ha : a <> [].
Hypothesis Hfade : (1 <= fade_samples)%nat.

Lemma window_pos : (1 <= k)%nat.
Proof.
  unfold k, window. destruct a; [congruence | cbn [length]; lia].
Qed.

Lemma fade_out_unfold :
  apply_fade_out a fade_samples
    = Ok (firstn (length a - k) a
            ++ scale (skipn (length a - k) a) (linspace 1 0 k)).
Proof.
  unfold apply_fade_out. rewrite clamp_window. fold k.
  pose proof window_pos. destruct k; [lia | reflexivity].
Qed.

Lemma fade_out_length (b : list Q) :
  apply_fade_out a fade_samples = Ok b -> length b = length a.
Proof.
  rewrite fade_out_unfold. intros E. injection E as <-.
  pose proof window_le.
  rewrite length_app, length_firstn, scale_length;
    rewrite length_skipn, ?linspace_length; lia.
Qed.

Lemma fade_out_outside (b : list Q) (i : nat) :
  apply_fade_out a fade_samples = Ok b ->
  (i < length a - k)%nat -> nth i b 0 = nth i a 0.
Proof.
  rewrite fade_out_unfold. intros E Hi. injection E as <-.
  rewrite app_nth1 by (rewrite length_firstn; lia).
  rewrite nth_firstn. apply Nat.ltb_lt in Hi. rewrite Hi. reflexivity.
Qed.

Lemma fade_out_inside (b : list Q) (j : nat) :
  apply_fade_out a fade_samples = Ok b ->
  (j < k)%nat ->
  nth (length a - k + j) b 0
    = nth (length a - k + j) a 0 * nth j (linspace 1 0 k) 0.
Proof.
  rewrite fade_out_unfold. intros E Hj. injection E as <-.
  pose proof window_le.
  rewrite app_nth2 by (rewrite length_firstn; lia).
  rewrite length_firstn.
  replace (length a - k + j - Nat.min (length a - k) (length a))%nat
    with j by lia.
  rewrite scale_nth by (rewrite length_skipn, ?linspace_length; lia).
  rewrite nth_skipn. reflexivity.
Qed.

End Fades.

(** The two envelopes. *)
Lemma ramp_up_value (k i : nat) :
  (2 <= k)%nat -> (i < k)%nat ->
  nth i (linspace 0 1 k) 0 == inject_Z (Z.of_nat i) / inject_Z (Z.of_nat (k - 1)).
Proof.
  intros Hk Hi. rewrite linspace_nth by assumption.
  field. intros E.
  pose proof (@inject_nat_pos (k - 1) ltac:(lia)) as Hpos.
  rewrite E in Hpos. exact (Qlt_irrefl _ Hpos).
Qed.

Lemma ramp_down_value (k i : nat) :
  (2 <= k)%nat -> (i < k)%nat ->
  nth i (linspace 1 0 k) 0
    == 1 - inject_Z (Z.of_nat i) / inject_Z (Z.of_nat (k - 1)).
Proof.
  intros Hk Hi. rewrite linspace_nth by assumption.
  field. intros E.
  pose proof (@inject_nat_pos (k - 1) ltac:(lia)) as Hpos.
  rewrite E in Hpos. exact (Qlt_irrefl _ Hpos).
Qed.

(** C7.  On a non-empty buffer, fade-in multiplies the first
    [min(882, length)] samples by the values of a linear ramp that starts
    at 0, ends at 1 and never decreases, and leaves the other samples as
    they are; fade-out multiplies the last [min(2205, length)] samples by
    the values of a linear ramp that starts at 1, ends at 0 and never
    increases, and leaves the other samples as they are.  (A window of a
    single sample holds the start value of its ramp only.) *)
Theorem c7_fades (a : list Q) :
  a <> [] ->
  let k_in := window 882 a in
  let k_out := window 2205 a in
  let up := linspace 0 1 k_in in
  let down := linspace 1 0 k_out in
  (length (apply_fade_in a 882) = length a
   /\ (forall i, (i < k_in)%nat ->
         nth i (apply_fade_in a 882) 0 = nth i a 0 * nth i up 0)
   /\ (forall i, (k_in <= i)%nat -> nth i (apply_fade_in a 882) 0 = nth i a 0)
   /\ nth 0 up 0 == 0
   /\ ((2 <= k_in)%nat -> nth (k_in - 1) up 0 == 1)
   /\ (forall i, (2 <= k_in)%nat -> (i < k_in)%nat ->
         nth i up 0 == inject_Z (Z.of_nat i) / inject_Z (Z.of_nat (k_in - 1)))
   /\ (forall i j, (i <= j < k_in)%nat -> nth i up 0 <= nth j up 0))
  /\ (exists b,
        apply_fade_out a 2205 = Ok b
        /\ length b = length a
        /\ (forall j, (j < k_out)%nat ->
              nth (length a - k_out + j) b 0
                = nth (length a - k_out + j) a 0 * nth j down 0)
        /\ (forall i, (i < length a - k_out)%nat -> nth i b 0 = nth i a 0)
        /\ nth 0 down 0 == 1
        /\ ((2 <= k_out)%nat -> nth (k_out - 1) down 0 == 0)
        /\ (forall j, (2 <= k_out)%nat -> (j < k_out)%nat ->
              nth j down 0
                == 1 - inject_Z (Z.of_nat j) / inject_Z (Z.of_nat (k_out - 1)))
        /\ (forall i j, (i <= j < k_out)%nat -> nth j down 0 <= nth i down 0)).
Proof.
  intros Ha k_in k_out up down.
  assert (Hin : (1 <= k_in)%nat) by (apply window_pos; [exact Ha | lia]).
  assert (Hout : (1 <= k_out)%nat) by (apply window_pos; [exact Ha | lia]).
  split.
  - split; [apply fade_in_length |].
    split; [intros i Hi; apply fade_in_inside; exact Hi |].
    split; [intros i Hi; apply fade_in_outside; exact Hi |].
    split; [apply linspace_first; exact Hin |].
    split; [intros H2; apply linspace_last; exact H2 |].
    split; [intros i H2 Hi; apply ramp_up_value; assumption |].
    intros i j Hij. apply linspace_up; [discriminate | exact Hij].
  - assert (H1 : (1 <= 2205)%nat) by lia.
    pose proof (fade_out_unfold Ha H1) as Eb.
    eexists. split; [exact Eb |].
    split; [apply (fade_out_length Ha H1 Eb) |].
    split; [intros j Hj; apply (fade_out_inside Ha H1 Eb Hj) |].
    split; [intros i Hi; apply (fade_out_outside Ha H1 Eb Hi) |].
    split; [apply linspace_first; exact Hout |].
    split; [intros H2; apply linspace_last; exact H2 |].
    split; [intros j H2 Hj; apply ramp_down_value; assumption |].
    intros i j Hij. apply linspace_down; [discriminate | exact Hij].
Qed.

(** C7 at the buffer [1; 1; 1]: both windows are the whole buffer. *)
Lemma c7_fades_witness :
  apply_fade_in [1; 1; 1] 882 = [0 # 2; 1 # 2; 2 # 2]
  /\ length (apply_fade_in [1; 1; 1] 882) = 3%nat
  /\ exists b, apply_fade_out [1; 1; 1] 2205 = Ok b /\ length b = 3%nat.
Proof.
  destruct (@c7_fades [1; 1; 1]) as [[Hlen _] [b [Hb [Hblen _]]]];
    [discriminate |].
  split; [vm_compute; reflexivity |].
  split; [exact Hlen |].
  exists b. split; [exact Hb | exact Hblen].
Defined.

End NormalizerFacts.

(** ** The quantiser *)

Module EncoderFacts.
Import Encoder.
Local Open Scope Z_scope.

Lemma wrap16_id (z : Z) : -32768 <= z <= 32767 -> wrap16 z = z.
Proof.
  intros Hz. unfold wrap16.
  change 65536 with (2 ^ 16). rewrite <- Z.land_ones by lia.
  apply PackingFacts.to_signed16_mask. exact Hz.
Qed.

(** Truncation keeps the sign, does not grow the magnitude and drops less
    than one unit. *)
Lemma Qtrunc_spec (y : Q) :
  (Qabs (inject_Z (Qtrunc y)) <= Qabs y)%Q
  /\ (Qabs (y - inject_Z (Qtrunc y)) < 1)%Q
  /\ ((0 <= y)%Q -> 0 <= Qtrunc y)
  /\ ((y <= 0)%Q -> Qtrunc y <= 0).
Proof.
  destruct y as [n d]. unfold Qtrunc. cbn [Qnum Qden].
  pose proof (Z.quot_rem' n (Z.pos d)) as E.
  assert (Hd : 0 < Z.pos d) by lia.
  set (q := Z.quot n (Z.pos d)) in *. set (r := Z.rem n (Z.pos d)) in *.
  assert (Hcase : (0 <= n /\ 0 <= r < Z.pos d /\ 0 <= q)
                  \/ (n <= 0 /\ - Z.pos d < r <= 0 /\ q <= 0)).
  { destruct (Z_le_gt_dec 0 n) as [Hn | Hn].
    - left. pose proof (Z.rem_bound_pos n (Z.pos d) Hn Hd).
      split; [exact Hn |]. split; [assumption |].
      apply Z.quot_pos; lia.
    - right.
      assert (Hm : 0 <= - n) by lia.
      pose proof (Z.rem_bound_pos (- n) (Z.pos d) Hm Hd) as Hr.
      pose proof (Z.quot_pos (- n) (Z.pos d) Hm Hd) as Hq.
      rewrite Z.rem_opp_l in Hr by lia. rewrite Z.quot_opp_l in Hq by lia.
      fold r in Hr. fold q in Hq. lia. }
  split; [| split; [| split]].
  - unfold Qabs, inject_Z, Qle. cbn [Qnum Qden Z.abs].
    destruct Hcase as [[Hn [Hr Hq]] | [Hn [Hr Hq]]]; nia.
  - apply Qabs_Qlt_condition. unfold Qlt, Qminus, Qplus, Qopp, inject_Z.
    cbn [Qnum Qden]. destruct Hcase as [[Hn [Hr Hq]] | [Hn [Hr Hq]]]; nia.
  - unfold Qle. cbn [Qnum Qden]. intros H0.
    destruct Hcase as [[Hn [Hr Hq]] | [Hn [Hr Hq]]]; nia.
  - unfold Qle. cbn [Qnum Qden]. intros H0.
    destruct Hcase as [[Hn [Hr Hq]] | [Hn [Hr Hq]]]; nia.
Qed.

Lemma Qtrunc_bounds (y : Q) (B : Z) :
  (Qabs y <= inject_Z B)%Q -> - B <= Qtrunc y <= B.
Proof.
  intros Hy. destruct (Qtrunc_spec y) as [Habs _].
  assert (H : (Qabs (inject_Z (Qtrunc y)) <= inject_Z B)%Q)
    by (eapply Qle_trans; eassumption).
  unfold Qabs, inject_Z, Qle in H. cbn [Qnum Qden] in H. lia.
Qed.

(** *** Rounding to float32 *)

(** The rounded value is the floor or the one above it, whichever is
    nearer. *)
Lemma round_half_even_cases (z : Q) :
  let f := Qfloor z in
  (inject_Z f <= z /\ z < inject_Z f + 1)%Q
  /\ ((round_half_even z = f /\ (z - inject_Z f <= 1 # 2)%Q)
      \/ (round_half_even z = f + 1 /\ (1 # 2 <= z - inject_Z f)%Q)).
Proof.
  intros f. pose proof (Qfloor_le z) as H1. pose proof (Qlt_floor z) as H2.
  fold f in H1, H2. rewrite inject_Z_plus in H2.
  change (inject_Z 1) with 1%Q in H2.
  split; [split; assumption |].
  unfold round_half_even. fold f.
  destruct (z - inject_Z f ?= 1 # 2)%Q eqn:E.
  - apply Qeq_alt in E.
    destruct (Z.even f); [left | right]; split; try reflexivity; lra.
  - apply Qlt_alt in E. left. split; [reflexivity | lra].
  - apply Qgt_alt in E. right. split; [reflexivity | lra].
Qed.

Lemma round_half_even_le (z : Q) (M : Z) :
  (z <= inject_Z M)%Q -> round_half_even z <= M.
Proof.
  intros Hz. destruct (round_half_even_cases z) as [[H1 H2] [[-> H] | [-> H]]].
  - assert (Hq : (inject_Z (Qfloor z) <= inject_Z M)%Q) by lra.
    rewrite <- Zle_Qle in Hq. exact Hq.
  - assert (Hq : (inject_Z (Qfloor z) < inject_Z M)%Q) by lra.
    rewrite <- Zlt_Qlt in Hq. lia.
Qed.

Lemma round_half_even_ge (z : Q) (M : Z) :
  (inject_Z M <= z)%Q -> M <= round_half_even z.
Proof.
  intros Hz. destruct (round_half_even_cases z) as [[H1 H2] [[-> H] | [-> H]]].
  - assert (Hq : (inject_Z M < inject_Z (Qfloor z + 1))%Q)
      by (rewrite inject_Z_plus; change (inject_Z 1) with 1%Q; lra).
    rewrite <- Zlt_Qlt in Hq. lia.
  - assert (Hq : (inject_Z M < inject_Z (Qfloor z + 1))%Q)
      by (rewrite inject_Z_plus; change (inject_Z 1) with 1%Q; lra).
    rewrite <- Zlt_Qlt in Hq. lia.
Qed.

Lemma round_half_even_near (z : Q) :
  (Qabs (inject_Z (round_half_even z) - z) <= 1 # 2)%Q.
Proof.
  apply Qabs_Qle_condition.
  destruct (round_half_even_cases z) as [[H1 H2] [[-> H] | [-> H]]].
  - lra.
  - rewrite inject_Z_plus. change (inject_Z 1) with 1%Q. lra.
Qed.

Lemma round_half_even_lt (z : Q) (M : Z) :
  (z < inject_Z M - (1 # 2))%Q -> round_half_even z < M.
Proof.
  intros Hz. destruct (round_half_even_cases z) as [[H1 H2] [[-> H] | [-> H]]].
  - assert (Hq : (inject_Z (Qfloor z) < inject_Z M)%Q) by lra.
    rewrite <- Zlt_Qlt in Hq. lia.
  - assert (Hq : (inject_Z (Qfloor z + 1) < inject_Z M)%Q)
      by (rewrite inject_Z_plus; change (inject_Z 1) with 1%Q; lra).
    rewrite <- Zlt_Qlt in Hq. lia.
Qed.

Lemma round_half_even_gt (z : Q) (M : Z) :
  (inject_Z M + (1 # 2) < z)%Q -> M < round_half_even z.
Proof.
  intros Hz. destruct (round_half_even_cases z) as [[H1 H2] [[-> H] | [-> H]]].
  - assert (Hq : (inject_Z M < inject_Z (Qfloor z))%Q) by lra.
    rewrite <- Zlt_Qlt in Hq. lia.
  - assert (Hq : (inject_Z M < inject_Z (Qfloor z + 1))%Q)
      by (rewrite inject_Z_plus; change (inject_Z 1) with 1%Q; lra).
    rewrite <- Zlt_Qlt in Hq. lia.
Qed.

(** *** Powers of two *)

Lemma pow2_pos (e : Z) : (0 < 2 ^ e)%Q.
Proof. apply Qpower_0_lt. reflexivity. Qed.

Lemma pow2_plus (a b : Z) : (2 ^ (a + b) == 2 ^ a * 2 ^ b)%Q.
Proof. apply Qpower_plus. discriminate. Qed.

Lemma pow2_inject (a : Z) : 0 <= a -> (2 ^ a == inject_Z (2 ^ a))%Q.
Proof. intros Ha. symmetry. apply (Zpower_Qpower 2 a Ha). Qed.

Lemma Qabs_frac (y : Q) :
  (Qabs y == inject_Z (Z.abs (Qnum y)) / inject_Z (Z.pos (Qden y)))%Q.
Proof.
  destruct y as [n d]. unfold Qabs. cbn [Qnum Qden].
  rewrite (Qmake_Qdiv (Z.abs n) d). reflexivity.
Qed.

(** [ilog2] is the exponent of the leading binary digit. *)
Lemma ilog2_spec (y : Q) :
  ~ (y == 0)%Q -> (2 ^ ilog2 y <= Qabs y /\ Qabs y < 2 ^ (ilog2 y + 1))%Q.
Proof.
  intros Hy.
  set (n := Z.abs (Qnum y)). set (d := Z.pos (Qden y)).
  assert (Hn : 0 < n).
  { unfold n. destruct y as [yn yd]. unfold Qeq in Hy. cbn in Hy |- *. lia. }
  assert (Hd : 0 < d) by (unfold d; lia).
  destruct (Z.log2_spec n Hn) as [Hn1 Hn2].
  destruct (Z.log2_spec d Hd) as [Hd1 Hd2].
  set (a := Z.log2 n) in *. set (b := Z.log2 d) in *.
  assert (Ha : 0 <= a) by apply Z.log2_nonneg.
  assert (Hb : 0 <= b) by apply Z.log2_nonneg.
  assert (Ey : (Qabs y == inject_Z n / inject_Z d)%Q) by apply Qabs_frac.
  assert (Hdq : (0 < inject_Z d)%Q) by (rewrite Zlt_Qlt in Hd; exact Hd).
  assert (Hup : (Qabs y < 2 ^ (a - b + 1))%Q).
  { rewrite Ey. apply Qlt_shift_div_r; [exact Hdq |].
    replace (a - b + 1) with ((a + 1) + - b) by lia.
    rewrite pow2_plus, Qpower_opp.
    apply Qlt_le_trans with (2 ^ (a + 1))%Q.
    - rewrite pow2_inject by lia. rewrite <- Zlt_Qlt.
      replace (a + 1) with (Z.succ a) by lia. exact Hn2.
    - assert (Hb2 : (2 ^ b <= inject_Z d)%Q)
        by (rewrite pow2_inject by lia; rewrite <- Zle_Qle; exact Hd1).
      pose proof (pow2_pos b) as Pb. pose proof (pow2_pos (a + 1)) as Pa.
      setoid_replace (2 ^ (a + 1))%Q with (2 ^ (a + 1) * / 2 ^ b * 2 ^ b)%Q at 1
        by (field; lra).
      apply Qmult_le_l; [| exact Hb2].
      apply Qmult_lt_0_compat; [exact Pa | apply Qinv_lt_0_compat; exact Pb]. }
  assert (Hlow : (2 ^ (a - b - 1) < Qabs y)%Q).
  { rewrite Ey. apply Qlt_shift_div_l; [exact Hdq |].
    replace (a - b - 1) with (a + - (b + 1)) by lia.
    rewrite pow2_plus, Qpower_opp.
    apply Qlt_le_trans with (2 ^ a)%Q.
    - assert (Hb2 : (inject_Z d < 2 ^ (b + 1))%Q)
        by (rewrite pow2_inject by lia; rewrite <- Zlt_Qlt;
            replace (b + 1) with (Z.succ b) by lia; exact Hd2).
      pose proof (pow2_pos (b + 1)) as Pb. pose proof (pow2_pos a) as Pa.
      setoid_replace (2 ^ a)%Q with (2 ^ a * / 2 ^ (b + 1) * 2 ^ (b + 1))%Q at 2
        by (field; lra).
      apply Qmult_lt_l; [| exact Hb2].
      apply Qmult_lt_0_compat; [exact Pa | apply Qinv_lt_0_compat; exact Pb].
    - rewrite pow2_inject by lia. rewrite <- Zle_Qle. exact Hn1. }
  unfold ilog2. fold n d a b.
  destruct (Qle_bool (2 ^ (a - b)) (Qabs y)) eqn:E.
  - apply Qle_bool_iff in E. split; [exact E | exact Hup].
  - split; [apply Qlt_le_weak; exact Hlow |].
    replace (a - b - 1 + 1) with (a - b) by lia.
    apply Qnot_le_lt. intros H. apply Qle_bool_iff in H. congruence.
Qed.

Lemma ilog2_zero (y : Q) : (y == 0)%Q -> ilog2 y < 0.
Proof.
  intros Hy. unfold ilog2.
  assert (Hn : Qnum y = 0).
  { destruct y as [n d]. unfold Qeq in Hy. cbn in Hy |- *. lia. }
  rewrite Hn. cbn [Z.abs]. change (Z.log2 0) with 0.
  pose proof (Z.log2_nonneg (Z.pos (Qden y))) as Hb.
  destruct (Qle_bool _ _) eqn:E; [| lia].
  exfalso. apply Qle_bool_iff in E.
  assert (H0 : (Qabs y == 0)%Q) by (rewrite Hy; reflexivity).
  pose proof (pow2_pos (0 - Z.log2 (Z.pos (Qden y)))) as P. lra.
Qed.

Lemma ilog2_below (y : Q) (K : Z) :
  0 <= K -> (Qabs y < 2 ^ K)%Q -> ilog2 y < K.
Proof.
  intros HK Hy. destruct (Qeq_dec y 0) as [E | N].
  - pose proof (@ilog2_zero y E). lia.
  - destruct (@ilog2_spec y N) as [Hl _].
    apply (Qpower_lt_compat_l_inv 2); [| reflexivity].
    eapply Qle_lt_trans; eassumption.
Qed.

(** The last place of a float32 product of magnitude below 2^15 is at most
    2^-9. *)
Lemma ulp_exponent_range (y : Q) :
  (Qabs y < 32768)%Q -> -149 <= ulp_exponent y <= -9.
Proof.
  intros Hy. unfold ulp_exponent.
  assert (H : ilog2 y < 15) by (apply ilog2_below; [lia | exact Hy]).
  lia.
Qed.

(** A multiple of 2^-9 is a multiple of every finer last place. *)
Lemma grid_point (m e : Z) :
  e <= -9 ->
  (inject_Z m / 512 == inject_Z (m * 2 ^ (-9 - e)) * 2 ^ e)%Q.
Proof.
  intros He. rewrite inject_Z_mult, <- pow2_inject by lia.
  rewrite <- Qmult_assoc, <- pow2_plus.
  replace (-9 - e + e) with (-9) by lia.
  change (2 ^ (-9))%Q with (/ 512)%Q. reflexivity.
Qed.

Lemma round_float32_le (y : Q) (m : Z) :
  (Qabs y < 32768)%Q -> (y <= inject_Z m / 512)%Q ->
  (round_float32 y <= inject_Z m / 512)%Q.
Proof.
  intros Hy Hm. pose proof (@ulp_exponent_range y Hy) as [_ He].
  unfold round_float32. set (e := ulp_exponent y) in *.
  pose proof (pow2_pos e) as Pe.
  rewrite (@grid_point m e He) in Hm |- *.
  apply Qmult_le_compat_r; [| lra].
  rewrite <- Zle_Qle. apply round_half_even_le.
  apply Qle_shift_div_r; assumption.
Qed.

Lemma round_float32_ge (y : Q) (m : Z) :
  (Qabs y < 32768)%Q -> (inject_Z m / 512 <= y)%Q ->
  (inject_Z m / 512 <= round_float32 y)%Q.
Proof.
  intros Hy Hm. pose proof (@ulp_exponent_range y Hy) as [_ He].
  unfold round_float32. set (e := ulp_exponent y) in *.
  pose proof (pow2_pos e) as Pe.
  rewrite (@grid_point m e He) in Hm |- *.
  apply Qmult_le_compat_r; [| lra].
  rewrite <- Zle_Qle. apply round_half_even_ge.
  apply Qle_shift_div_l; assumption.
Qed.

(** Rounding moves a product of magnitude below 2^15 by at most 2^-10. *)
Lemma round_float32_near (y : Q) :
  (Qabs y < 32768)%Q -> (Qabs (round_float32 y - y) <= 1 # 1024)%Q.
Proof.
  intros Hy. pose proof (@ulp_exponent_range y Hy) as [_ He].
  unfold round_float32. set (e := ulp_exponent y) in *.
  pose proof (pow2_pos e) as Pe.
  pose proof (round_half_even_near (y / 2 ^ e)) as Hn.
  setoid_replace (inject_Z (round_half_even (y / 2 ^ e)) * 2 ^ e - y)%Q
    with ((inject_Z (round_half_even (y / 2 ^ e)) - y / 2 ^ e) * 2 ^ e)%Q
    by (field; lra).
  rewrite Qabs_Qmult. rewrite (Qabs_pos (2 ^ e)) by lra.
  apply Qle_trans with ((1 # 2) * 2 ^ e)%Q.
  - apply Qmult_le_compat_r; [exact Hn | lra].
  - assert (H9 : (2 ^ e <= 2 ^ (-9))%Q)
      by (apply Qpower_le_compat_l; [exact He | discriminate]).
    change (2 ^ (-9))%Q with (1 # 512)%Q in H9. lra.
Qed.

Lemma round_float32_bound (y : Q) (m : Z) :
  (Qabs y < 32768)%Q -> (Qabs y <= inject_Z m / 512)%Q ->
  (Qabs (round_float32 y) <= inject_Z m / 512)%Q.
Proof.
  intros Hy Hm. apply Qabs_Qle_condition in Hm. destruct Hm as [H1 H2].
  apply Qabs_Qle_condition. split.
  - assert (E : (- (inject_Z m / 512) == inject_Z (- m) / 512)%Q)
      by (rewrite inject_Z_opp; field).
    rewrite E in H1 |- *. apply round_float32_ge; assumption.
  - apply round_float32_le; assumption.
Qed.

Lemma round_float32_zero (y : Q) : (y == 0)%Q -> (round_float32 y == 0)%Q.
Proof.
  intros Hy. 
  assert (Hb : (Qabs y < 32768)%Q) by (rewrite Hy; reflexivity).
  pose proof (@round_float32_le y 0 Hb) as H1.
  pose proof (@round_float32_ge y 0 Hb) as H2.
  change (inject_Z 0 / 512)%Q with (0 # 512)%Q in H1, H2.
  apply Qle_antisym.
  - apply Qle_trans with (0 # 512)%Q; [apply H1; lra | discriminate].
  - apply Qle_trans with (0 # 512)%Q; [discriminate | apply H2; lra].
Qed.

Lemma round_half_even_integer (z : Q) (M : Z) :
  (z == inject_Z M)%Q -> round_half_even z = M.
Proof.
  intros E.
  apply Z.le_antisymm; [apply round_half_even_le | apply round_half_even_ge];
    rewrite E; apply Qle_refl.
Qed.

(** A float32 number, that is a significand of at most 24 bits times a
    power of two not below 2^-149, is its own rounding. *)
Lemma round_float32_exact (y : Q) (m e' : Z) :
  Z.abs m < 2 ^ 24 -> -149 <= e' -> (y == inject_Z m * 2 ^ e')%Q ->
  (round_float32 y == y)%Q.
Proof.
  intros Hm He' Ey. destruct (Qeq_dec y 0) as [E0 | N0].
  - rewrite E0 at 2. apply round_float32_zero. exact E0.
  - destruct (@ilog2_spec y N0) as [Hl _].
    pose proof (pow2_pos e') as Pe'.
    assert (Hk : ilog2 y < 24 + e').
    { apply (Qpower_lt_compat_l_inv 2); [| reflexivity].
      eapply Qle_lt_trans; [exact Hl |].
      rewrite Ey, Qabs_Qmult, (Qabs_pos (2 ^ e')) by lra.
      rewrite pow2_plus. apply Qmult_lt_compat_r; [exact Pe' |].
      rewrite pow2_inject by lia.
      change (Qabs (inject_Z m)) with (inject_Z (Z.abs m)).
      rewrite <- Zlt_Qlt. exact Hm. }
    unfold round_float32.
    assert (He : ulp_exponent y <= e') by (unfold ulp_exponent; lia).
    set (e := ulp_exponent y) in *.
    pose proof (pow2_pos e) as Pe.
    assert (Ez : (y / 2 ^ e == inject_Z (m * 2 ^ (e' - e)))%Q).
    { rewrite Ey, inject_Z_mult, <- pow2_inject by lia.
      replace (e' - e) with (e' + - e) by lia.
      rewrite pow2_plus, Qpower_opp. field. lra. }
    rewrite (@round_half_even_integer _ _ Ez), <- Ez. field. lra.
Qed.

Lemma round_float32_lt (y : Q) (m : Z) :
  (Qabs y < 32768)%Q ->
  (y < inject_Z m / 512 - 2 ^ (ulp_exponent y - 1))%Q ->
  (round_float32 y < inject_Z m / 512)%Q.
Proof.
  intros Hy Hm. pose proof (@ulp_exponent_range y Hy) as [_ He].
  unfold round_float32. set (e := ulp_exponent y) in *.
  pose proof (pow2_pos e) as Pe.
  assert (Eh : (2 ^ (e - 1) == (1 # 2) * 2 ^ e)%Q).
  { replace (e - 1) with (-1 + e) by lia. rewrite pow2_plus. reflexivity. }
  rewrite (@grid_point m e He) in Hm |- *. rewrite Eh in Hm.
  apply Qmult_lt_compat_r; [exact Pe |].
  rewrite <- Zlt_Qlt. apply round_half_even_lt.
  apply Qlt_shift_div_r; [exact Pe |]. lra.
Qed.

Lemma round_float32_gt (y : Q) (m : Z) :
  (Qabs y < 32768)%Q ->
  (inject_Z m / 512 + 2 ^ (ulp_exponent y - 1) < y)%Q ->
  (inject_Z m / 512 < round_float32 y)%Q.
Proof.
  intros Hy Hm. pose proof (@ulp_exponent_range y Hy) as [_ He].
  unfold round_float32. set (e := ulp_exponent y) in *.
  pose proof (pow2_pos e) as Pe.
  assert (Eh : (2 ^ (e - 1) == (1 # 2) * 2 ^ e)%Q).
  { replace (e - 1) with (-1 + e) by lia. rewrite pow2_plus. reflexivity. }
  rewrite (@grid_point m e He) in Hm |- *. rewrite Eh in Hm.
  apply Qmult_lt_compat_r; [exact Pe |].
  rewrite <- Zlt_Qlt. apply round_half_even_gt.
  apply Qlt_shift_div_l; [exact Pe |]. lra.
Qed.

(** Half the last place of a product of magnitude at least 1/2 is at most
    its 2^-15 part. *)
Lemma half_ulp_small (y : Q) :
  (1 # 2 <= Qabs y)%Q -> (2 ^ (ulp_exponent y - 1) * 32768 <= Qabs y)%Q.
Proof.
  intros Hy.
  assert (N0 : ~ (y == 0)%Q).
  { intros E. rewrite E in Hy. apply Hy. reflexivity. }
  destruct (@ilog2_spec y N0) as [Hl _].
  change 32768%Q with (2 ^ 15)%Q. rewrite <- pow2_plus.
  unfold ulp_exponent.
  destruct (Z.max_spec (-149) (ilog2 y - 23)) as [[_ ->] | [_ ->]].
  - apply Qle_trans with (2 ^ ilog2 y)%Q; [| exact Hl].
    apply Qpower_le_compat_l; [lia | discriminate].
  - apply Qle_trans with (1 # 2)%Q; [discriminate | exact Hy].
Qed.

(** *** Truncation *)

(** The integer whose unit interval, on the side away from zero, holds a
    number is its truncation. *)
Lemma Qtrunc_unique (f : Q) (N : Z) :
  (0 <= N /\ (inject_Z N <= f)%Q /\ (f < inject_Z N + 1)%Q)
  \/ (N <= 0 /\ (inject_Z N - 1 < f)%Q /\ (f <= inject_Z N)%Q) ->
  Qtrunc f = N.
Proof.
  intros H. destruct (Qtrunc_spec f) as [Habs [Hnear [Hpos Hneg]]].
  apply Qabs_Qlt_condition in Hnear. destruct Hnear as [Hn1 Hn2].
  assert (H1 : (inject_Z 1 == 1)%Q) by reflexivity.
  destruct H as [[HN [Hlo Hhi]] | [HN [Hlo Hhi]]].
  - assert (HN' : (0 <= inject_Z N)%Q)
      by (change 0%Q with (inject_Z 0); rewrite <- Zle_Qle; exact HN).
    assert (Hq : 0 <= Qtrunc f) by (apply Hpos; lra).
    assert (Hq' : (0 <= inject_Z (Qtrunc f))%Q)
      by (change 0%Q with (inject_Z 0); rewrite <- Zle_Qle; exact Hq).
    rewrite (Qabs_pos _ Hq'), (Qabs_pos f) in Habs by lra.
    assert (Ha : (inject_Z (Qtrunc f) < inject_Z (N + 1))%Q)
      by (rewrite inject_Z_plus; lra).
    assert (Hb : (inject_Z (N - 1) < inject_Z (Qtrunc f))%Q)
      by (unfold Z.sub; rewrite inject_Z_plus, inject_Z_opp; lra).
    rewrite <- Zlt_Qlt in Ha, Hb. lia.
  - assert (HN' : (inject_Z N <= 0)%Q)
      by (change 0%Q with (inject_Z 0); rewrite <- Zle_Qle; exact HN).
    assert (Hq : Qtrunc f <= 0) by (apply Hneg; lra).
    assert (Hq' : (inject_Z (Qtrunc f) <= 0)%Q)
      by (change 0%Q with (inject_Z 0); rewrite <- Zle_Qle; exact Hq).
    rewrite (Qabs_neg _ Hq'), (Qabs_neg f) in Habs by lra.
    assert (Ha : (inject_Z (N - 1) < inject_Z (Qtrunc f))%Q)
      by (unfold Z.sub; rewrite inject_Z_plus, inject_Z_opp; lra).
    assert (Hb : (inject_Z (Qtrunc f) < inject_Z (N + 1))%Q)
      by (rewrite inject_Z_plus; lra).
    rewrite <- Zlt_Qlt in Ha, Hb. lia.
Qed.

Lemma Qtrunc_zero (f : Q) : (f == 0)%Q -> Qtrunc f = 0.
Proof.
  intros E. apply Qtrunc_unique. left.
  split; [lia |]. rewrite E. split; [discriminate | reflexivity].
Qed.

(** Truncation of a number of magnitude at most [m / 512]. *)
Lemma Qtrunc_grid_bounds (f : Q) (m B : Z) :
  (Qabs f <= inject_Z m / 512)%Q -> m < (B + 1) * 512 ->
  - B <= Qtrunc f <= B.
Proof.
  intros Hf Hm. destruct (Qtrunc_spec f) as [Habs _].
  assert (H : (Qabs (inject_Z (Qtrunc f)) < inject_Z (B + 1))%Q).
  { eapply Qle_lt_trans; [exact Habs |].
    eapply Qle_lt_trans; [exact Hf |].
    apply Qlt_shift_div_r; [reflexivity |].
    change 512%Q with (inject_Z 512). rewrite <- inject_Z_mult, <- Zlt_Qlt.
    exact Hm. }
  change (Qabs (inject_Z (Qtrunc f))) with (inject_Z (Z.abs (Qtrunc f))) in H.
  rewrite <- Zlt_Qlt in H. lia.
Qed.

(** *** The quantiser *)

Lemma quantize_nth (audio_data : list Q) (i : nat) :
  (i < length audio_data)%nat ->
  nth i (quantize audio_data) 0
    = astype_int16 (round_float32 (nth i audio_data 0%Q * 32767)%Q).
Proof.
  intros Hi. unfold quantize.
  rewrite (nth_indep _ 0 (astype_int16 (round_float32 (0 * 32767)%Q)))
    by (rewrite length_map; exact Hi).
  apply (map_nth (fun x => astype_int16 (round_float32 (x * 32767)%Q))).
Qed.

Lemma full_scale (x : Q) (B : Q) :
  (Qabs x <= B)%Q -> (Qabs (x * 32767) <= B * 32767)%Q.
Proof.
  intros Hx. rewrite Qabs_Qmult.
  change (Qabs 32767) with 32767%Q.
  apply Qmult_le_compat_r; [exact Hx | discriminate].
Qed.

(** The float32 product of a sample of magnitude at most [m / 512 / 32767],
    below full scale, truncates within the same bound. *)
Lemma quantize_sample_bounds (x : Q) (m B : Z) :
  (Qabs x * 32767 <= inject_Z m / 512)%Q -> m < (B + 1) * 512 ->
  B <= 32767 ->
  let y := round_float32 (x * 32767)%Q in
  (Qabs (y - x * 32767) <= 1 # 1024)%Q
  /\ astype_int16 y = Qtrunc y
  /\ - B <= Qtrunc y <= B.
Proof.
  intros Hx Hm HB y. subst y.
  assert (Ea : (Qabs (x * 32767) == Qabs x * 32767)%Q)
    by (rewrite Qabs_Qmult; reflexivity).
  assert (Hy : (Qabs (x * 32767) <= inject_Z m / 512)%Q)
    by (rewrite Ea; exact Hx).
  assert (Hlt : (Qabs (x * 32767) < 32768)%Q).
  { eapply Qle_lt_trans; [exact Hy |].
    apply Qlt_shift_div_r; [reflexivity |].
    change (32768 * 512)%Q with (inject_Z (32768 * 512)).
    rewrite <- Zlt_Qlt. lia. }
  pose proof (@round_float32_bound _ m Hlt Hy) as Hb.
  pose proof (@Qtrunc_grid_bounds _ m B Hb Hm) as Ht.
  split; [apply round_float32_near; exact Hlt |].
  split; [| exact Ht].
  unfold astype_int16. apply wrap16_id. lia.
Qed.

(** C3, as the code has it.  The encoder turns each sample [x] of a
    buffer into the float32 product [x * 32767] with its fraction dropped
    (rounded toward zero, not to nearest).  On a sample in [-1, 1] the
    float32 product is within 2^-10 of the exact one and the integer
    written lies in [-32767, 32767], so that a clamp to the signed 16-bit
    range would leave it as it is. *)
Theorem c3_quantize_truncates (audio_data : list Q) (i : nat) :
  (i < length audio_data)%nat ->
  (Qabs (nth i audio_data 0%Q) <= 1)%Q ->
  let x := nth i audio_data 0%Q in
  let y := round_float32 (x * 32767)%Q in
  let q := nth i (quantize audio_data) 0 in
  length (quantize audio_data) = length audio_data
  /\ (Qabs (y - x * 32767) <= 1 # 1024)%Q
  /\ q = Qtrunc y
  /\ (Qabs (inject_Z q) <= Qabs y)%Q
  /\ (Qabs (y - inject_Z q) < 1)%Q
  /\ ((0 <= y)%Q -> 0 <= q)
  /\ ((y <= 0)%Q -> q <= 0)
  /\ -32767 <= q <= 32767
  /\ clamp16 q = q.
Proof.
  intros Hi Hx x y q.
  assert (Hm : (Qabs x * 32767 <= inject_Z (32767 * 512) / 512)%Q).
  { setoid_replace (inject_Z (32767 * 512) / 512)%Q with (1 * 32767)%Q
      by reflexivity.
    apply Qmult_le_compat_r; [exact Hx | discriminate]. }
  destruct (@quantize_sample_bounds x (32767 * 512) 32767 Hm) as [Hn [Ew Hb]];
    [lia | lia |].
  fold y in Hn, Ew, Hb.
  assert (Eq : q = Qtrunc y).
  { unfold q. rewrite quantize_nth by exact Hi. exact Ew. }
  split; [apply length_map |].
  split; [exact Hn |].
  split; [exact Eq |].
  rewrite Eq. destruct (Qtrunc_spec y) as [H1 [H2 [H3 H4]]].
  repeat split; try assumption; try lia.
  unfold clamp16. lia.
Qed.

(** C3 at the second sample of the buffer [3/4; 1541999/2^21], whose
    exact product with 32767 lies just below 24093 and whose float32
    product is 24093. *)
Lemma c3_quantize_truncates_witness :
  let b := [3 # 4; 1541999 # 2097152]%Q in
  nth 1 (quantize b) 0 = Qtrunc (round_float32 ((1541999 # 2097152) * 32767))
  /\ -32767 <= nth 1 (quantize b) 0 <= 32767
  /\ quantize b = [24575; 24093].
Proof.
  intros b.
  destruct (@c3_quantize_truncates b 1%nat) as [_ [_ [Eq [_ [_ [_ [_ [Hr _]]]]]]]].
  - cbn. lia.
  - vm_compute. discriminate.
  - split; [exact Eq |]. split; [exact Hr |]. vm_compute. reflexivity.
Defined.

(** C3 as stated fails: for the sample 1/4 the product is 8191.75, a
    float32 number, which rounds to 8192 while the encoder writes 8191. *)
Lemma c3_quantize_counterexample :
  quantize [1 # 4] = [8191]
  /\ round_float32 ((1 # 4) * 32767) == (1 # 4) * 32767
  /\ quantize_spec [1 # 4] = [8192]
  /\ quantize [1 # 4] <> quantize_spec [1 # 4].
Proof.
  split; [vm_compute; reflexivity |].
  split; [vm_compute; reflexivity |].
  split; [vm_compute; reflexivity |].
  vm_compute. discriminate.
Qed.

(** The product is truncated after it has been rounded to float32: of
    these two samples the exact products, 1 - 2^-30 and 24093 - 1903 *
    2^-21, truncate to 0 and 24092, the float32 products to 1 and
    24093. *)
Example quantize_float32_product :
  let b := [32769 # 1073741824; 1541999 # 2097152]%Q in
  quantize b = [1; 24093]
  /\ map (fun x => Qtrunc (x * 32767)) b = [0; 24092].
Proof.
  split; vm_compute; reflexivity.
Qed.

(** *** The encoder on no samples *)

Lemma tobytes_length (audio_int16 : list Z) :
  length (tobytes audio_int16) = (2 * length audio_int16)%nat.
Proof.
  induction audio_int16 as [| s rest IH]; [reflexivity |].
  cbn [tobytes flat_map app length] in *. unfold tobytes in IH.
  rewrite IH. lia.
Qed.

Lemma even_double (n : nat) : Nat.even (2 * n) = true.
Proof.
  apply Nat.even_spec. exists n. reflexivity.
Qed.

(** The two bytes written for a sample read back as the sample. *)
Lemma unpack_h_bytes (s : Z) :
  Packing.int16 s ->
  Packing.unpack_h (Z.land s 0xFF) (Z.land (Z.shiftr s 8) 0xFF) = s.
Proof.
  intros Hs. unfold Packing.unpack_h.
  change 0xFF with (Z.ones 8).
  rewrite !Z.land_ones, Z.shiftr_div_pow2 by lia.
  change (2 ^ 8) with 256.
  rewrite <- Z.rem_mul_r by lia. change (256 * 256) with 65536.
  exact (wrap16_id Hs).
Qed.

Lemma unpack_tobytes (audio_int16 : list Z) :
  Forall Packing.int16 audio_int16 ->
  Packing.unpack_samples (tobytes audio_int16) = audio_int16.
Proof.
  induction 1 as [| s rest Hs _ IH]; [reflexivity |].
  change (tobytes (s :: rest))
    with (Z.land s 0xFF :: Z.land (Z.shiftr s 8) 0xFF :: tobytes rest).
  cbn [Packing.unpack_samples]. rewrite IH, (unpack_h_bytes Hs). reflexivity.
Qed.

Lemma wrap16_int16 (z : Z) : Packing.int16 (wrap16 z).
Proof.
  unfold wrap16, Packing.to_signed16, Packing.int16.
  pose proof (Z.mod_pos_bound z 65536 ltac:(lia)) as Hm.
  destruct (Z.ltb_spec (z mod 65536) 32768); lia.
Qed.

Lemma quantize_int16 (audio_data : list Q) :
  Forall Packing.int16 (quantize audio_data).
Proof.
  apply Forall_forall. intros q Hq. unfold quantize in Hq.
  apply in_map_iff in Hq. destruct Hq as [x [<- _]]. apply wrap16_int16.
Qed.

(** The encoder raises nothing: the raw file always holds an even number
    of bytes, so reading it back succeeds and returns the quantised
    samples, and the array is their packing. *)
Lemma encode_asset_ok (audio_data : list Q) :
  encode_asset audio_data
    = Ok (Asset (tobytes (quantize audio_data))
                (Packing.num_uint32 (length audio_data))
                (Packing.pack_words (quantize audio_data))).
Proof.
  unfold encode_asset, save_as_raw. cbn [fst].
  unfold Packing.generate_c_header, Packing.struct_unpack.
  rewrite tobytes_length, even_double. cbn [bind fst snd].
  rewrite (unpack_tobytes (quantize_int16 audio_data)).
  replace (length (quantize audio_data)) with (length audio_data)
    by (symmetry; apply length_map).
  reflexivity.
Qed.

End EncoderFacts.

(** ** The pipeline *)

Module PipelineFacts.
Import Normalizer Encoder Pipeline.
Local Open Scope Z_scope.

(** *** Which exceptions the stages raise *)

Lemma np_max_error (a : list Q) (e : error) :
  np_max a = Err e -> a = [] /\ e = ValueError.
Proof.
  destruct a; cbn; intros E; [injection E as <-; auto | discriminate].
Qed.

Lemma trim_silence_error (a : list Q) (e : error) :
  trim_silence a = Err e -> a = [] /\ e = ValueError.
Proof.
  unfold trim_silence, trim_silence_with.
  destruct (np_max (np_abs a)) as [m |e'] eqn:Em; cbn [bind].
  - destruct (np_where _ _); discriminate.
  - intros E. injection E as <-. apply np_max_error in Em.
    destruct Em as [Ea ->]. split; [| reflexivity].
    destruct a; [reflexivity | discriminate].
Qed.

Lemma normalize_error (a : list Q) (e : error) :
  normalize_audio a = Err e -> e = ValueError.
Proof.
  unfold normalize_audio, normalize_audio_to.
  destruct (np_max (np_abs a)) as [m |e'] eqn:Em; cbn [bind].
  - destruct (Qgtb m 0); discriminate.
  - intros E. injection E as <-. apply np_max_error in Em. apply Em.
Qed.

Lemma fade_out_error (a : list Q) (n : nat) (e : error) :
  apply_fade_out a n = Err e -> e = ValueError.
Proof.
  unfold apply_fade_out.
  destruct (if (length a <? n)%nat then length a else n);
    [destruct a |]; intros E; try discriminate.
  injection E as <-. reflexivity.
Qed.

Lemma convert_to_mono_error (a : list Q) (n : nat) (e : error) :
  convert_to_mono a n = Err e -> e = ValueError.
Proof.
  unfold convert_to_mono.
  destruct (n =? 1)%nat; [discriminate |].
  destruct (n =? 0)%nat; [intros E; injection E as <-; reflexivity |].
  destruct (negb _); [intros E; injection E as <-; reflexivity | discriminate].
Qed.

Section WithResampler.

Variable signal_resample : option (list Q -> Z -> list Q).

(** The buffer the chain returns comes out of peak normalisation and is
    as long as the trimmed buffer, which is not empty. *)
Lemma normalizer_chain_result (audio_data : list Q) (num_channels : nat)
    (sample_rate : Z) (b : list Q) :
  normalizer_chain signal_resample audio_data num_channels sample_rate = Ok b ->
  b <> [] /\ exists a, normalize_audio a = Ok b.
Proof.
  unfold normalizer_chain.
  destruct (convert_to_mono audio_data num_channels) as [mono |] eqn:Em;
    cbn [bind]; [| discriminate].
  destruct (resample_audio signal_resample mono sample_rate 44100)
    as [resampled |] eqn:Er; cbn [bind]; [| discriminate].
  destruct (trim_silence resampled) as [trimmed |] eqn:Et;
    cbn [bind]; [| discriminate].
  destruct (apply_fade_out (apply_fade_in trimmed 882) 2205)
    as [faded |] eqn:Ef; cbn [bind]; [| discriminate].
  intros En. split; [| exists faded; exact En].
  assert (Hr : resampled <> []) by (intros ->; discriminate Et).
  destruct (NormalizerFacts.trim_silence_spec Hr) as [t [Et' [Hne _]]].
  rewrite Et in Et'. injection Et' as <-.
  destruct (@NormalizerFacts.normalize_result faded b En) as [_ [Hlen _]].
  assert (Hin : apply_fade_in trimmed 882 <> []).
  { intros Enil. apply (f_equal (@length Q)) in Enil.
    rewrite NormalizerFacts.fade_in_length in Enil.
    destruct trimmed; [congruence | discriminate]. }
  assert (H1 : (1 <= 2205)%nat) by lia.
  pose proof (@NormalizerFacts.fade_out_length _ 2205%nat Hin H1 faded Ef)
    as Hfl.
  rewrite NormalizerFacts.fade_in_length in Hfl.
  intros ->. cbn [length] in Hlen.
  destruct trimmed; [congruence | cbn [length] in Hfl; lia].
Qed.

Lemma resample_audio_error (a : list Q) (orig_rate target_rate : Z)
    (e : error) :
  resample_audio signal_resample a orig_rate target_rate = Err e ->
  e = ZeroDivisionError.
Proof.
  unfold resample_audio.
  destruct (orig_rate =? target_rate); [discriminate |].
  destruct signal_resample; [| discriminate].
  destruct (orig_rate =? 0); [| discriminate].
  intros E. injection E as <-. reflexivity.
Qed.

Lemma normalizer_chain_error (audio_data : list Q) (num_channels : nat)
    (sample_rate : Z) (e : error) :
  normalizer_chain signal_resample audio_data num_channels sample_rate = Err e ->
  e = ValueError \/ e = ZeroDivisionError.
Proof.
  unfold normalizer_chain.
  destruct (convert_to_mono audio_data num_channels) as [mono |] eqn:Em;
    cbn [bind];
    [| intros E; injection E as <-; left;
       exact (@convert_to_mono_error _ _ _ Em)].
  destruct (resample_audio _ _ _ _) as [resampled |] eqn:Er; cbn [bind];
    [| intros E; injection E as <-; right;
       exact (@resample_audio_error _ _ _ _ Er)].
  destruct (trim_silence _) as [trimmed |] eqn:Et; cbn [bind];
    [| intros E; injection E as <-; left;
       exact (proj2 (@trim_silence_error _ _ Et))].
  destruct (apply_fade_out _ _) as [faded |] eqn:Ef; cbn [bind];
    [| intros E; injection E as <-; left;
       exact (@fade_out_error _ _ _ Ef)].
  intros E. left. exact (@normalize_error _ _ E).
Qed.

(** C10.  Every sample of a buffer returned by the normaliser chain lies
    in [-0.9, 0.9]; its product with 32767 then truncates to an integer
    within [-29490, 29490], so the conversion to a signed 16-bit integer
    returns that integer itself: nothing leaves the 16-bit range and
    nothing wraps, with no clamping in the code.  The same holds of the
    product as numpy computes it, rounded to float32: the samples the
    encoder writes lie in [-29490, 29490]. *)
Theorem c10_no_overflow (audio_data : list Q) (num_channels : nat)
    (sample_rate : Z) (b : list Q) :
  normalizer_chain signal_resample audio_data num_channels sample_rate = Ok b ->
  Forall (fun x => (- 0.9 <= x <= 0.9)%Q
                   /\ astype_int16 (x * 32767)%Q = Qtrunc (x * 32767)%Q
                   /\ -29490 <= Qtrunc (x * 32767)%Q <= 29490) b
  /\ Forall (fun q => -32768 <= q <= 32767) (quantize b)
  /\ Forall (fun x => astype_int16 (round_float32 (x * 32767)%Q)
                       = Qtrunc (round_float32 (x * 32767)%Q)) b
  /\ Forall (fun q => -29490 <= q <= 29490) (quantize b).
Proof.
  intros E.
  destruct (@normalizer_chain_result _ _ _ _ E) as [_ [a En]].
  destruct (@NormalizerFacts.normalize_result a b En) as [_ [_ Hb]].
  rewrite Forall_forall in Hb.
  assert (Hq : forall x, In x b ->
                 (- 0.9 <= x <= 0.9)%Q
                 /\ astype_int16 (x * 32767)%Q = Qtrunc (x * 32767)%Q
                 /\ -29490 <= Qtrunc (x * 32767)%Q <= 29490).
  { intros x Hx. specialize (Hb x Hx).
    assert (Ht : -29490 <= Qtrunc (x * 32767)%Q <= 29490).
    { destruct (EncoderFacts.Qtrunc_spec (x * 32767)%Q) as [Habs _].
      pose proof (@EncoderFacts.full_scale x 0.9%Q Hb) as Hy.
      assert (H : (Qabs (inject_Z (Qtrunc (x * 32767)%Q)) <= 0.9 * 32767)%Q)
        by (eapply Qle_trans; eassumption).
      unfold Qabs, inject_Z, Qle in H. cbn [Qnum Qden Qmult] in H. lia. }
    split; [exact (proj1 (Qabs_Qle_condition x 0.9) Hb) |].
    split; [| exact Ht].
    unfold astype_int16. apply EncoderFacts.wrap16_id. lia. }
  assert (Hf : forall x, In x b ->
                 astype_int16 (round_float32 (x * 32767)%Q)
                 = Qtrunc (round_float32 (x * 32767)%Q)
                 /\ -29490 <= Qtrunc (round_float32 (x * 32767)%Q) <= 29490).
  { intros x Hx. specialize (Hb x Hx).
    assert (Hm : (Qabs x * 32767 <= inject_Z 15099136 / 512)%Q).
    { apply Qle_trans with (0.9 * 32767)%Q; [| discriminate].
      apply Qmult_le_compat_r; [exact Hb | discriminate]. }
    destruct (@EncoderFacts.quantize_sample_bounds x 15099136 29490 Hm)
      as [_ [Ew Hr]]; [lia | lia |].
    split; assumption. }
  split; [apply Forall_forall; exact Hq |].
  split; [| split].
  - apply Forall_forall. intros q Hin. unfold quantize in Hin.
    apply in_map_iff in Hin. destruct Hin as [x [<- Hx]].
    destruct (Hf x Hx) as [-> Ht]. lia.
  - apply Forall_forall. intros x Hx. exact (proj1 (Hf x Hx)).
  - apply Forall_forall. intros q Hin. unfold quantize in Hin.
    apply in_map_iff in Hin. destruct Hin as [x [<- Hx]].
    destruct (Hf x Hx) as [-> Ht]. exact Ht.
Qed.

End WithResampler.

(** C10 on a mono 44.1 kHz buffer of three samples. *)
Lemma c10_no_overflow_witness :
  exists b,
    normalizer_chain None [1 # 4; (- (1 # 2))%Q; 1 # 8] 1 44100 = Ok b
    /\ Forall (fun q => -32768 <= q <= 32767) (quantize b)
    /\ Forall (fun q => -29490 <= q <= 29490) (quantize b).
Proof.
  destruct (normalizer_chain None [1 # 4; (- (1 # 2))%Q; 1 # 8] 1 44100)
    as [b | e] eqn:E; [| vm_compute in E; discriminate E].
  exists b. split; [reflexivity |].
  destruct (@c10_no_overflow None _ _ _ b E) as [_ [H16 [_ Hq]]].
  split; assumption.
Defined.

(** *** No samples *)

Lemma quantize_empty (audio_data : list Q) :
  length (quantize audio_data) = 0%nat -> audio_data = [].
Proof.
  unfold quantize. rewrite length_map.
  destruct audio_data; [reflexivity | discriminate].
Qed.

(** C8, as the code has it.  On an input whose quantised sample count is
    zero the encoder does not fail: it writes an empty raw file and an
    array of one word, the header [0x81000000].  The code raises no
    [EmptyAudioError] anywhere.  Inside [process_wav_to_raw] such a buffer
    never reaches the encoder: silence trimming raises [ValueError] on an
    empty buffer, and no buffer the normaliser chain returns is empty. *)
Theorem c8_empty_input (audio_data : list Q) :
  length (quantize audio_data) = 0%nat ->
  encode_asset audio_data = Ok (Asset [] 1 [0x81000000])
  /\ trim_silence audio_data = Err ValueError
  /\ (forall signal_resample raw num_channels sample_rate,
        normalizer_chain signal_resample raw num_channels sample_rate
          <> Ok audio_data)
  /\ (forall signal_resample raw num_channels sample_rate,
        process_wav_to_raw signal_resample raw num_channels sample_rate
          <> Err EmptyAudioError).
Proof.
  intros H0. apply quantize_empty in H0. subst audio_data.
  split; [reflexivity |]. split; [reflexivity |]. split.
  - intros sr raw ch rate E.
    destruct (@normalizer_chain_result sr raw ch rate [] E) as [Hne _].
    congruence.
  - intros sr raw ch rate. unfold process_wav_to_raw.
    destruct (normalizer_chain sr raw ch rate) as [b | e] eqn:E; cbn [bind].
    + rewrite EncoderFacts.encode_asset_ok. discriminate.
    + apply normalizer_chain_error in E. destruct E as [-> | ->]; discriminate.
Qed.

(** C8 at the empty buffer. *)
Lemma c8_empty_input_witness :
  encode_asset [] = Ok (Asset [] 1 [0x81000000])
  /\ trim_silence [] = Err ValueError.
Proof.
  destruct (@c8_empty_input []) as [H1 [H2 _]]; [reflexivity |].
  split; [exact H1 | exact H2].
Defined.

(** C8 as stated fails: given no samples the encoder returns an asset, not
    [EmptyAudioError]. *)
Lemma c8_empty_input_counterexample :
  length (quantize []) = 0%nat
  /\ encode_asset [] = Ok (Asset [] 1 [0x81000000])
  /\ encode_asset [] <> Err EmptyAudioError.
Proof.
  split; [reflexivity |]. split; [reflexivity |]. discriminate.
Qed.

End PipelineFacts.

(** ** The source reader *)

Module SourceReaderFacts.
Import SourceReader.
Local Open Scope string_scope.

(** *** The order of names *)

Lemma ascii_compare_trans_lt (a b c : ascii) :
  Ascii.compare a b = Lt -> Ascii.compare b c = Lt -> Ascii.compare a c = Lt.
Proof.
  unfold Ascii.compare. rewrite !N.compare_lt_iff. apply N.lt_trans.
Qed.

Lemma name_le_trans (x y z : string) : name_le x y -> name_le y z -> name_le x z.
Proof.
  unfold name_le, String.leb. revert y z.
  induction x as [| a x IH]; intros [| b y] [| c z]; cbn [String.compare];
    try (intros; reflexivity); try (intros; discriminate).
  destruct (Ascii.compare a b) eqn:Eab; try (intros; discriminate);
    destruct (Ascii.compare b c) eqn:Ebc; try (intros; discriminate).
  - apply Ascii.compare_eq_iff in Eab. subst b. rewrite Ebc. apply IH.
  - apply Ascii.compare_eq_iff in Eab. subst b. rewrite Ebc. reflexivity.
  - apply Ascii.compare_eq_iff in Ebc. subst c. rewrite Eab. reflexivity.
  - rewrite (ascii_compare_trans_lt _ _ _ Eab Ebc). reflexivity.
Qed.

Lemma name_le_total (x y : string) : String.leb x y = false -> name_le y x.
Proof.
  intros H. destruct (String.leb_total x y) as [E | E]; [congruence | exact E].
Qed.

(** *** Sorting *)

Lemma insert_name_perm (x : string) (l : list string) :
  Permutation (insert_name x l) (x :: l).
Proof.
  induction l as [| y l IH]; cbn [insert_name]; [reflexivity |].
  destruct (String.leb x y); [reflexivity |].
  rewrite IH. apply perm_swap.
Qed.

Lemma sorted_perm (l : list string) : Permutation (sorted l) l.
Proof.
  induction l as [| x l IH]; cbn; [reflexivity |].
  rewrite insert_name_perm, IH. reflexivity.
Qed.

Lemma insert_name_sorted (x : string) (l : list string) :
  StronglySorted name_le l -> StronglySorted name_le (insert_name x l).
Proof.
  induction 1 as [| y l Hl IH Hy]; cbn [insert_name].
  - constructor; constructor.
  - destruct (String.leb x y) eqn:Exy.
    + constructor; [constructor; assumption |].
      constructor; [exact Exy |].
      apply Forall_forall. intros z Hz.
      rewrite Forall_forall in Hy.
      apply name_le_trans with y; [exact Exy | apply Hy, Hz].
    + constructor; [exact IH |].
      apply Forall_forall. intros z Hz.
      apply (Permutation_in _ (insert_name_perm x l)) in Hz.
      destruct Hz as [<- | Hz]; [apply name_le_total, Exy |].
      rewrite Forall_forall in Hy. apply Hy, Hz.
Qed.

Lemma sorted_sorted (l : list string) : StronglySorted name_le (sorted l).
Proof.
  induction l as [| x l IH]; cbn; [constructor |].
  apply insert_name_sorted, IH.
Qed.

(** *** Matching *)

(** No name ends in both spellings of the extension. *)
Lemma wav_patterns_disjoint (name : string) :
  ends_with ".wav" name = true -> ends_with ".WAV" name = false.
Proof.
  induction name as [| c name IH]; [intros; reflexivity |].
  cbn [ends_with].
  destruct (String.eqb_spec (String c name) ".wav") as [E1 | N1].
  - injection E1 as -> ->. intros _. reflexivity.
  - destruct (String.eqb_spec (String c name) ".WAV") as [E2 | N2].
    + injection E2 as -> ->. cbn. discriminate.
    + exact IH.
Qed.

Lemma filter_either (A : Type) (p q : A -> bool) (l : list A) :
  (forall x, p x = true -> q x = false) ->
  Permutation (filter p l ++ filter q l) (filter (fun x => p x || q x) l).
Proof.
  intros Hpq. induction l as [| x l IH]; cbn [filter]; [reflexivity |].
  destruct (p x) eqn:Ep.
  - rewrite (Hpq x Ep). cbn. constructor. exact IH.
  - destruct (q x) eqn:Eq; cbn.
    + rewrite <- Permutation_middle. constructor. exact IH.
    + exact IH.
Qed.

(** C9, as the code has it.  The files taken from a directory are exactly
    those whose name ends in [.wav] or in [.WAV], each as often as the
    directory lists it; any other spelling of the extension is left out.
    They are visited in ascending order of their names compared character
    by character in code order, where upper-case letters come before
    lower-case ones: a directory holding a.wav, B.WAV and c.txt gives
    B.WAV then a.wav, and a file x.Wav alone gives no input at all. *)
Theorem c9_directory_inputs (dir : list string) :
  let matches name := ends_with ".wav" name || ends_with ".WAV" name in
  let files := sorted (wav_files dir) in
  Permutation files (filter matches dir)
  /\ (forall name, In name files <-> In name dir /\ matches name = true)
  /\ StronglySorted name_le files
  /\ directory_inputs dir
       = match filter matches dir with [] => Err SystemExit | _ => Ok files end
  /\ directory_inputs ["a.wav"; "B.WAV"; "c.txt"] = Ok ["B.WAV"; "a.wav"]
  /\ directory_inputs ["c.txt"; "B.WAV"; "a.wav"] = Ok ["B.WAV"; "a.wav"]
  /\ directory_inputs ["x.Wav"] = Err SystemExit.
Proof.
  intros matches files.
  assert (Hperm : Permutation files (filter matches dir)).
  { unfold files. rewrite sorted_perm. unfold wav_files, glob_star.
    apply filter_either. exact wav_patterns_disjoint. }
  split; [exact Hperm |].
  split.
  { intros name. rewrite <- filter_In. split; intros H.
    - apply (Permutation_in _ Hperm), H.
    - apply (Permutation_in _ (Permutation_sym Hperm)), H. }
  split; [apply sorted_sorted |].
  split.
  { unfold directory_inputs. fold files.
    assert (Hw : Permutation (wav_files dir) (filter matches dir)).
    { unfold wav_files, glob_star. apply filter_either.
      exact wav_patterns_disjoint. }
    destruct (wav_files dir) as [| w ws] eqn:Ew.
    - apply Permutation_nil in Hw. rewrite Hw. reflexivity.
    - destruct (filter matches dir) as [| m ms] eqn:Em; [| reflexivity].
      apply Permutation_sym, Permutation_nil in Hw. discriminate. }
  repeat split; reflexivity.
Qed.

(** C9 as stated fails: the listing of a.wav, B.WAV and c.txt is visited
    as B.WAV then a.wav, and a file named x.Wav, whose extension matches
    without regard to case, is not taken. *)
Lemma c9_directory_inputs_counterexample :
  directory_inputs ["a.wav"; "B.WAV"; "c.txt"] <> Ok ["a.wav"; "B.WAV"]
  /\ wav_extension_spec "x.Wav" = true
  /\ ~ In "x.Wav" (wav_files ["a.wav"; "x.Wav"]).
Proof.
  split; [discriminate |]. split; [reflexivity |].
  cbn. intros [H | []]. discriminate H.
Qed.

End SourceReaderFacts.

(** ** Bytes, frames and the raw file *)

Module FramesExtras.
Import Packing Encoder Frames.
Local Open Scope Z_scope.

Lemma tobytes_bytes (audio_int16 : list Z) :
  Forall is_byte (tobytes audio_int16).
Proof.
  assert (Hb : forall x, is_byte (Z.land x 0xFF)).
  { intros x. unfold is_byte.
    change (Z.land x 0xFF) with (Z.land x (Z.ones 8)).
    rewrite Z.land_ones by lia. change (2 ^ 8) with 256.
    assert (H256 : 0 < 256) by lia.
    pose proof (Z.mod_pos_bound x 256 H256). lia. }
  induction audio_int16 as [| s rest IH]; [constructor |].
  change (tobytes (s :: rest))
    with (Z.land s 0xFF :: Z.land (Z.shiftr s 8) 0xFF :: tobytes rest).
  constructor; [apply Hb |]. constructor; [apply Hb | exact IH].
Qed.

(** X1.  The raw file written by [save_as_raw] holds bytes only, twice as
    many as there are samples, which is the size the function returns;
    read back as [generate_c_header] reads it, it gives the quantised
    samples again. *)
Theorem x1_raw_file_reads_back (audio_data : list Q) :
  let raw := fst (save_as_raw audio_data) in
  struct_unpack raw = Ok (quantize audio_data)
  /\ Forall is_byte raw
  /\ length raw = (2 * length audio_data)%nat
  /\ snd (save_as_raw audio_data) = Z.of_nat (length raw).
Proof.
  cbn zeta. unfold save_as_raw. cbn [fst snd].
  assert (Hlen : length (tobytes (quantize audio_data))
                 = (2 * length audio_data)%nat).
  { rewrite EncoderFacts.tobytes_length. unfold quantize.
    rewrite length_map. reflexivity. }
  split.
  - unfold struct_unpack.
    rewrite EncoderFacts.tobytes_length, EncoderFacts.even_double.
    rewrite (EncoderFacts.unpack_tobytes (EncoderFacts.quantize_int16 audio_data)).
    reflexivity.
  - split; [apply tobytes_bytes |]. split; [exact Hlen |].
    rewrite Hlen. unfold quantize. rewrite length_map. lia.
Qed.

Lemma unpack_samples_half (data : list Z) :
  length (unpack_samples data) = (length data / 2)%nat.
Proof.
  assert (H : forall n data, (length data <= n)%nat ->
                length (unpack_samples data) = (length data / 2)%nat).
  { intros n. induction n as [| n IH]; intros d Hd.
    - destruct d; [reflexivity | cbn in Hd; lia].
    - destruct d as [| lo [| hi rest]]; try reflexivity.
      cbn [unpack_samples length] in *. rewrite IH by lia.
      change (S (S (length rest))) with (2 + length rest)%nat.
      replace (2 + length rest)%nat with (1 * 2 + length rest)%nat by lia.
      rewrite Nat.div_add_l by lia. reflexivity. }
  apply (H (length data)). lia.
Qed.

(** X2.  [generate_c_header] fails on a raw file of odd size
    ([struct.unpack] raises) and on no other; on an even size the array
    length it declares in the header file is the number of words it
    writes in the definition file, namely one more than the number of
    sample pairs, rounded up. *)
Theorem x2_declared_length_is_written (data : list Z) :
  (Nat.even (length data) = false ->
     generate_c_header data = Err StructError)
  /\ (Nat.even (length data) = true ->
      exists words,
        generate_c_header data
          = Ok ((1 + (length data / 2 + 1) / 2)%nat, words)
        /\ length words = (1 + (length data / 2 + 1) / 2)%nat
        /\ words = pack_words (unpack_samples data)).
Proof.
  unfold generate_c_header, struct_unpack. split; intros He; rewrite He.
  - reflexivity.
  - cbn [bind]. exists (pack_words (unpack_samples data)).
    rewrite PackingFacts.pack_words_length. unfold num_uint32.
    rewrite unpack_samples_half. auto.
Qed.

(** X2 on a file of three bytes and on one of six. *)
Lemma x2_declared_length_is_written_witness :
  generate_c_header [1; 0; 2] = Err StructError
  /\ exists words, generate_c_header [1; 0; 254; 255; 3; 0] = Ok (3%nat, words)
                   /\ length words = 3%nat.
Proof.
  destruct (x2_declared_length_is_written [1; 0; 2]) as [Hodd _].
  destruct (x2_declared_length_is_written [1; 0; 254; 255; 3; 0])
    as [_ Heven].
  split; [apply Hodd; reflexivity |].
  destruct (Heven eq_refl) as [words [Hw [Hl _]]].
  exists words. split; [exact Hw | exact Hl].
Defined.

Lemma unpack_h_int16 (lo hi : Z) :
  is_byte lo -> is_byte hi -> int16 (unpack_h lo hi).
Proof.
  unfold is_byte, int16, unpack_h, to_signed16. intros Hlo Hhi.
  destruct (Z.ltb_spec (lo + 256 * hi) 32768); lia.
Qed.

Lemma unpack_h_low (lo hi : Z) :
  is_byte lo -> is_byte hi -> Z.land (unpack_h lo hi) 0xFF = lo.
Proof.
  unfold is_byte, unpack_h, to_signed16. intros Hlo Hhi.
  change (Z.land ?x 0xFF) with (Z.land x (Z.ones 8)).
  rewrite Z.land_ones by lia. change (2 ^ 8) with 256.
  destruct (Z.ltb_spec (lo + 256 * hi) 32768).
  - symmetry. apply Z.mod_unique with (q := hi); lia.
  - symmetry. apply Z.mod_unique with (q := hi - 256); lia.
Qed.

Lemma unpack_h_high (lo hi : Z) :
  is_byte lo -> is_byte hi ->
  Z.land (Z.shiftr (unpack_h lo hi) 8) 0xFF = hi.
Proof.
  unfold is_byte, unpack_h, to_signed16. intros Hlo Hhi.
  change (Z.land ?x 0xFF) with (Z.land x (Z.ones 8)).
  rewrite Z.land_ones, Z.shiftr_div_pow2 by lia. change (2 ^ 8) with 256.
  destruct (Z.ltb_spec (lo + 256 * hi) 32768).
  - replace ((lo + 256 * hi) / 256) with hi
      by (apply Z.div_unique with (r := lo); lia).
    apply Z.mod_small. lia.
  - replace ((lo + 256 * hi - 65536) / 256) with (hi - 256)
      by (apply Z.div_unique with (r := lo); lia).
    symmetry. apply Z.mod_unique with (q := -1); lia.
Qed.

Lemma unpack_samples_int16 (data : list Z) :
  Forall is_byte data -> Forall int16 (unpack_samples data).
Proof.
  assert (H : forall n d, (length d <= n)%nat -> Forall is_byte d ->
                Forall int16 (unpack_samples d)).
  { intros n. induction n as [| n IH]; intros d Hd Hbd.
    - destruct d; [constructor | cbn in Hd; lia].
    - destruct d as [| lo [| hi rest]]; try constructor.
      + inversion Hbd as [| ? ? Hlo Hr]; subst.
        inversion Hr as [| ? ? Hhi _]; subst.
        apply unpack_h_int16; assumption.
      + inversion Hbd as [| ? ? _ Hr]; subst.
        inversion Hr as [| ? ? _ Hrest]; subst.
        apply IH; [cbn [length] in Hd; lia | exact Hrest]. }
  intros Hb. apply (H (length data)); [lia | exact Hb].
Qed.

(** X3.  Reading a byte buffer of even size as signed 16-bit numbers
    loses nothing: every number read lies in the signed 16-bit range,
    there is one per two bytes, and writing the numbers back as bytes
    gives the buffer again. *)
Theorem x3_bytes_read_back (data : list Z) :
  Forall is_byte data -> Nat.even (length data) = true ->
  Forall int16 (unpack_samples data)
  /\ length (unpack_samples data) = (length data / 2)%nat
  /\ tobytes (unpack_samples data) = data.
Proof.
  intros Hb He.
  split; [apply unpack_samples_int16, Hb |].
  split; [apply unpack_samples_half |].
  assert (H : forall n d, (length d <= n)%nat -> Forall is_byte d ->
                Nat.even (length d) = true ->
                tobytes (unpack_samples d) = d).
  { intros n. induction n as [| n IH]; intros d Hd Hbd Hed.
    - destruct d; [reflexivity | cbn in Hd; lia].
    - destruct d as [| lo [| hi rest]]; [reflexivity | discriminate Hed |].
      inversion Hbd as [| ? ? Hlo Hr]; subst.
      inversion Hr as [| ? ? Hhi Hrest]; subst.
      cbn [unpack_samples].
      change (tobytes (unpack_h lo hi :: unpack_samples rest))
        with (Z.land (unpack_h lo hi) 0xFF
                :: Z.land (Z.shiftr (unpack_h lo hi) 8) 0xFF
                :: tobytes (unpack_samples rest)).
      rewrite (unpack_h_low Hlo Hhi), (unpack_h_high Hlo Hhi).
      rewrite IH; [reflexivity | cbn [length] in Hd; lia | exact Hrest |].
      exact Hed. }
  apply (H (length data)); [lia | exact Hb | exact He].
Qed.

(** X3 on four bytes. *)
Lemma x3_bytes_read_back_witness :
  unpack_samples [0; 128; 255; 127] = [-32768; 32767]
  /\ tobytes (unpack_samples [0; 128; 255; 127]) = [0; 128; 255; 127].
Proof.
  split; [reflexivity |].
  apply (@x3_bytes_read_back [0; 128; 255; 127]).
  - repeat constructor; unfold is_byte; lia.
  - reflexivity.
Defined.

(** *** The WAV file of an extracted note *)

(** The float value of a nonzero frame [s], times 32767, is [s] less its
    2^-15 part: more than half a last place inside the unit interval next
    to [s] on the side of zero, where float32 rounding keeps it. *)
Lemma int16_back (s : Z) :
  int16 s ->
  astype_int16 (round_float32 (int16_to_float s * 32767)%Q) = s - Z.sgn s.
Proof.
  intros Hs. unfold int16 in Hs.
  set (y := (int16_to_float s * 32767)%Q).
  assert (Ey : (y == inject_Z s - inject_Z s * (1 # 32768))%Q)
    by (unfold y, int16_to_float; field).
  clearbody y.
  assert (Hlo : (-32768 <= inject_Z s)%Q)
    by (change (-32768)%Q with (inject_Z (-32768)); rewrite <- Zle_Qle; lia).
  assert (Hhi : (inject_Z s <= 32767)%Q)
    by (change 32767%Q with (inject_Z 32767); rewrite <- Zle_Qle; lia).
  assert (Hy : (Qabs y < 32768)%Q) by (apply Qabs_Qlt_condition; lra).
  assert (Eg : forall m : Z, (inject_Z (m * 512) / 512 == inject_Z m)%Q)
    by (intros m; rewrite inject_Z_mult; change (inject_Z 512) with 512%Q;
        field).
  assert (Et : Qtrunc (round_float32 y) = s - Z.sgn s).
  { destruct (Z.lt_total s 0) as [Hn | [-> | Hp]].
    - assert (Z.sgn s = -1) as -> by (apply Z.sgn_neg; lia).
      assert (Hs1 : (inject_Z s <= -1)%Q)
        by (change (-1)%Q with (inject_Z (-1)); rewrite <- Zle_Qle; lia).
      assert (Ha : (1 # 2 <= Qabs y)%Q) by (rewrite Qabs_neg; lra).
      pose proof (@EncoderFacts.half_ulp_small y Ha) as Hu.
      rewrite Qabs_neg in Hu by lra.
      apply EncoderFacts.Qtrunc_unique. right.
      replace (s - -1) with (s + 1) by lia.
      rewrite inject_Z_plus. change (inject_Z 1) with 1%Q.
      split; [lia |]. split.
      + setoid_replace (inject_Z s + 1 - 1)%Q with (inject_Z (s * 512) / 512)%Q
          by (rewrite Eg; ring).
        apply EncoderFacts.round_float32_gt; [exact Hy |].
        rewrite Eg. lra.
      + setoid_replace (inject_Z s + 1)%Q
          with (inject_Z ((s + 1) * 512) / 512)%Q
          by (rewrite Eg, inject_Z_plus; reflexivity).
        apply EncoderFacts.round_float32_le; [exact Hy |].
        rewrite Eg, inject_Z_plus. change (inject_Z 1) with 1%Q. lra.
    - apply EncoderFacts.Qtrunc_zero.
      apply EncoderFacts.round_float32_zero. rewrite Ey. reflexivity.
    - assert (Z.sgn s = 1) as -> by (apply Z.sgn_pos; lia).
      assert (Hs1 : (1 <= inject_Z s)%Q)
        by (change 1%Q with (inject_Z 1); rewrite <- Zle_Qle; lia).
      assert (Ha : (1 # 2 <= Qabs y)%Q) by (rewrite Qabs_pos; lra).
      pose proof (@EncoderFacts.half_ulp_small y Ha) as Hu.
      rewrite Qabs_pos in Hu by lra.
      apply EncoderFacts.Qtrunc_unique. left.
      unfold Z.sub. rewrite inject_Z_plus. change (inject_Z (- (1))) with (-1)%Q.
      split; [lia |]. split.
      + setoid_replace (inject_Z s + -1)%Q
          with (inject_Z ((s - 1) * 512) / 512)%Q
          by (rewrite Eg; unfold Z.sub; rewrite inject_Z_plus; reflexivity).
        apply EncoderFacts.round_float32_ge; [exact Hy |].
        rewrite Eg. unfold Z.sub. rewrite inject_Z_plus.
        change (inject_Z (- (1))) with (-1)%Q. lra.
      + setoid_replace (inject_Z s + -1 + 1)%Q
          with (inject_Z (s * 512) / 512)%Q by (rewrite Eg; ring).
        apply EncoderFacts.round_float32_lt; [exact Hy |].
        rewrite Eg. lra. }
  unfold astype_int16. rewrite Et. apply EncoderFacts.wrap16_id.
  destruct (Z.sgn_spec s) as [[? ->] | [[? ->] | [? ->]]]; lia.
Qed.

(** X4.  The WAV file written for an extracted note is not a copy of the
    payload: dividing by 32768, multiplying by 32767 and dropping the
    fraction moves every nonzero frame one step toward zero and keeps
    zero frames, so the file holds [s - sgn s] for each payload frame [s]
    (and never -32768). *)
Theorem x4_extracted_frames_shrink (sample_data : list Z) :
  Forall is_byte sample_data -> Nat.even (length sample_data) = true ->
  wav_frames sample_data
    = Ok (map (fun s => s - Z.sgn s) (unpack_samples sample_data))
  /\ forall frames, wav_frames sample_data = Ok frames ->
       Forall (fun q => -32767 <= q <= 32766) frames.
Proof.
  intros Hb He.
  pose proof (unpack_samples_int16 Hb) as Hint.
  assert (E : wav_frames sample_data
              = Ok (map (fun s => s - Z.sgn s) (unpack_samples sample_data))).
  { unfold wav_frames, frombuffer_int16. rewrite He. cbn [bind].
    unfold quantize. rewrite map_map. f_equal.
    apply map_ext_in. intros s Hs. apply int16_back.
    rewrite Forall_forall in Hint. apply Hint, Hs. }
  split; [exact E |].
  intros frames Hf. rewrite E in Hf. injection Hf as <-.
  apply Forall_forall. intros q Hq. apply in_map_iff in Hq.
  destruct Hq as [s [<- Hs]].
  rewrite Forall_forall in Hint. specialize (Hint s Hs). unfold int16 in Hint.
  destruct (Z.sgn_spec s) as [[? ->] | [[? ->] | [? ->]]]; lia.
Qed.

(** X4 on the payload of the frames 1000, -1000, 0 and -32768. *)
Lemma x4_extracted_frames_shrink_witness :
  wav_frames [232; 3; 24; 252; 0; 0; 0; 128] = Ok [999; -999; 0; -32767].
Proof.
  apply (@x4_extracted_frames_shrink [232; 3; 24; 252; 0; 0; 0; 128]).
  - repeat constructor; unfold is_byte; lia.
  - reflexivity.
Defined.

(** *** The frames of a WAV file *)

Lemma int16_to_float_range (s : Z) :
  int16 s -> (-1 <= int16_to_float s)%Q /\ (int16_to_float s < 1)%Q.
Proof.
  unfold int16, int16_to_float, Qle, Qlt, Qdiv, Qmult, Qinv, inject_Z.
  cbn [Qnum Qden]. intros Hs.
  change (Z.pos (1 * 32768)) with 32768. lia.
Qed.

Lemma uint8_to_float_range (u : Z) :
  is_byte u -> (-1 <= uint8_to_float u)%Q /\ (uint8_to_float u < 1)%Q.
Proof.
  unfold is_byte, uint8_to_float, Qle, Qlt, Qdiv, Qmult, Qinv, Qminus,
    Qplus, Qopp, inject_Z.
  cbn [Qnum Qden]. intros Hu.
  change (Z.pos (1 * 1 * 128)) with 128. lia.
Qed.

(** X5.  The frames of a WAV file become amplitudes in [-1, 1): a sample
    width of 2 gives one amplitude per two bytes and fails on an odd
    number of bytes, a width of 1 gives one amplitude per byte, and any
    other width gives up without a buffer. *)
Theorem x5_read_frames_range (sample_width : Z) (audio_bytes : list Z) :
  Forall is_byte audio_bytes ->
  (sample_width <> 1 -> sample_width <> 2 ->
     read_frames sample_width audio_bytes = Ok None)
  /\ (sample_width = 2 -> Nat.even (length audio_bytes) = false ->
        read_frames sample_width audio_bytes = Err ValueError)
  /\ (forall audio_data,
        read_frames sample_width audio_bytes = Ok (Some audio_data) ->
        Forall (fun x => (-1 <= x)%Q /\ (x < 1)%Q) audio_data
        /\ length audio_data
           = if sample_width =? 2 then (length audio_bytes / 2)%nat
             else length audio_bytes).
Proof.
  intros Hb. unfold read_frames, frombuffer_int16.
  split; [| split].
  - intros H1 H2.
    destruct (Z.eqb_spec sample_width 2); [contradiction |].
    destruct (Z.eqb_spec sample_width 1); [contradiction | reflexivity].
  - intros -> He. rewrite He. reflexivity.
  - intros audio_data.
    destruct (Z.eqb_spec sample_width 2) as [E2 | N2].
    + destruct (Nat.even (length audio_bytes)); cbn [bind]; [| discriminate].
      intros E. injection E as <-. split.
      * apply Forall_forall. intros x Hx. apply in_map_iff in Hx.
        destruct Hx as [f [<- Hf]]. apply int16_to_float_range.
        pose proof (unpack_samples_int16 Hb) as Hint.
        rewrite Forall_forall in Hint. apply Hint, Hf.
      * rewrite length_map. apply unpack_samples_half.
    + destruct (Z.eqb_spec sample_width 1) as [E1 | N1]; [| discriminate].
      intros E. injection E as <-. split; [| apply length_map].
      apply Forall_forall. intros x Hx. apply in_map_iff in Hx.
      destruct Hx as [u [<- Hu]]. apply uint8_to_float_range.
      rewrite Forall_forall in Hb. apply Hb, Hu.
Qed.

(** X5 on two bytes read at the widths 2, 1 and 3. *)
Lemma x5_read_frames_range_witness :
  read_frames 2 [0; 128] = Ok (Some [(-32768 # 32768)%Q])
  /\ read_frames 3 [0; 128] = Ok None
  /\ forall audio_data, read_frames 1 [0; 128] = Ok (Some audio_data) ->
                        length audio_data = 2%nat.
Proof.
  assert (Hb : Forall is_byte [0; 128])
    by (repeat constructor; unfold is_byte; lia).
  split; [reflexivity |]. split.
  - apply (proj1 (@x5_read_frames_range 3 [0; 128] Hb)); lia.
  - intros audio_data E.
    apply (proj2 (proj2 (@x5_read_frames_range 1 [0; 128] Hb)) audio_data E).
Defined.

End FramesExtras.

(** ** More on the normaliser stages *)

Module NormalizerExtras.
Import Normalizer NormalizerFacts.
Local Open Scope Q_scope.

(** *** What silence trimming keeps *)

(** Either nothing is above the threshold and the buffer comes back, or
    the result is the slice around the first and the last index above
    it. *)
Lemma trim_window (a : list Q) :
  a <> [] ->
  (trim_silence a = Ok a /\ forall i, (i < length a)%nat -> ~ exceeds a i)
  \/ exists f l : nat,
       (f <= l < length a)%nat
       /\ exceeds a f /\ exceeds a l
       /\ (forall i, (i < f)%nat -> ~ exceeds a i)
       /\ (forall i, (l < i < length a)%nat -> ~ exceeds a i)
       /\ trim_silence a
          = Ok (slice a (Z.max 0 (Z.of_nat f - 100))
                        (Z.min (Z.of_nat (length a)) (Z.of_nat l + 4410))).
Proof.
  intros Ha. rewrite (trim_silence_unfold Ha).
  destruct (filter (selected a) (seq 0 (length a))) as [| f rest] eqn:Ef.
  - left. split; [reflexivity |]. intros i Hi.
    apply selected_not_exceeds.
    apply (@filter_seq_empty (selected a) (length a) 0%nat Ef i). lia.
  - right.
    destruct (@filter_seq_head (selected a) (length a) 0%nat f rest Ef)
      as [Hpf [Hrf Hlowf]].
    assert (Hne : filter (selected a) (seq 0 (length a)) <> [])
      by (rewrite Ef; discriminate).
    destruct (@filter_seq_last (selected a) (length a) 0%nat f Hne)
      as [Hpl [Hrl Hhighl]].
    rewrite Ef in Hpl, Hrl, Hhighl.
    set (l := last (f :: rest) f) in *.
    assert (Hfl : (f <= l)%nat).
    { destruct (le_lt_dec f l) as [H | H]; [exact H | exfalso].
      rewrite Hhighl in Hpf by lia. discriminate. }
    exists f, l. split; [lia |].
    split; [apply selected_exceeds, Hpf |].
    split; [apply selected_exceeds, Hpl |].
    split; [intros i Hi; apply selected_not_exceeds, Hlowf; lia |].
    split; [intros i Hi; apply selected_not_exceeds, Hhighl; lia |].
    reflexivity.
Qed.

Lemma slice_nth (A : Type) (a : list A) (start stop : Z) (d : A) (j : nat) :
  (j < Z.to_nat stop - Z.to_nat start)%nat ->
  nth j (slice a start stop) d = nth (Z.to_nat start + j) a d.
Proof.
  intros Hj. unfold slice. rewrite nth_firstn.
  apply Nat.ltb_lt in Hj. rewrite Hj. apply nth_skipn.
Qed.

Lemma slice_whole (A : Type) (a : list A) (stop : Z) :
  (Z.of_nat (length a) <= stop)%Z -> slice a 0 stop = a.
Proof.
  intros H. unfold slice. cbn [Z.to_nat skipn]. rewrite Nat.sub_0_r.
  apply firstn_all2. lia.
Qed.

(** The peak of a buffer exceeds the threshold wherever it is reached,
    unless the buffer is silent. *)
Lemma peak_exceeds (a : list Q) (i : nat) :
  0 < peak a -> Qabs (nth i a 0) = peak a -> exceeds a i.
Proof.
  intros Hpos E. unfold exceeds. rewrite E.
  setoid_replace (peak a) with (peak a * 1) at 2 by ring.
  apply Qmult_lt_l; [exact Hpos | reflexivity].
Qed.

Lemma exceeds_loud (a : list Q) (i : nat) :
  a <> [] -> (i < length a)%nat -> exceeds a i -> 0 < peak a.
Proof.
  intros Ha Hi Hex. unfold exceeds in Hex.
  destruct (peak_spec Ha) as [_ [_ Hub]].
  pose proof (Hub _ (nth_In a 0 Hi)) as Hle.
  pose proof (peak_nonneg Ha) as Hnn.
  destruct (Qlt_le_dec 0 (peak a)) as [Hpos | Hnp]; [exact Hpos | exfalso].
  assert (Hz : peak a == 0) by (apply Qle_antisym; assumption).
  rewrite Hz in Hex, Hle. rewrite Qmult_0_l in Hex.
  exact (Qlt_not_le _ _ Hex Hle).
Qed.

(** The shape of a trimmed buffer: a run of consecutive samples of the
    input that holds every sample above the threshold. *)
Lemma trim_run (a : list Q) :
  a <> [] ->
  exists (b : list Q) (start : nat),
    trim_silence a = Ok b
    /\ b <> []
    /\ (start + length b <= length a)%nat
    /\ (forall j, (j < length b)%nat -> nth j b 0 = nth (start + j) a 0)
    /\ (forall i, (i < length a)%nat -> exceeds a i ->
                  (start <= i < start + length b)%nat)
    /\ ((forall i, (i < length a)%nat -> ~ exceeds a i)
        \/ exists f l : nat,
             (start <= f <= l)%nat /\ (l < start + length b)%nat
             /\ exceeds a f /\ exceeds a l
             /\ (forall i, (i < length a)%nat -> exceeds a i ->
                           (f <= i <= l)%nat)
             /\ (f <= start + 100)%nat
             /\ (start + length b <= l + 4410)%nat).
Proof.
  intros Ha. destruct (trim_window Ha) as [[Et Hnone] | Hsome].
  - exists a, 0%nat. split; [exact Et |]. split; [exact Ha |].
    split; [lia |]. split; [intros j _; reflexivity |].
    split; [intros i Hi Hex; exfalso; exact (Hnone i Hi Hex) |].
    left. exact Hnone.
  - destruct Hsome as [f [l [Hfl [Hef [Hel [Hlow [Hhigh Et]]]]]]].
    set (start := Z.max 0 (Z.of_nat f - 100)) in *.
    set (stop := Z.min (Z.of_nat (length a)) (Z.of_nat l + 4410)) in *.
    assert (Hlen : length (slice a start stop) = Z.to_nat (stop - start))
      by (apply slice_length; unfold start, stop; lia).
    assert (Hin : forall i, (i < length a)%nat -> exceeds a i ->
                            (f <= i <= l)%nat).
    { intros i Hi Hex. split.
      - destruct (le_lt_dec f i) as [H | H]; [exact H | exfalso].
        exact (Hlow i H Hex).
      - destruct (le_lt_dec i l) as [H | H]; [exact H | exfalso].
        apply (Hhigh i); [lia | exact Hex]. }
    exists (slice a start stop), (Z.to_nat start).
    split; [exact Et |].
    split.
    { intros Hnil. apply (f_equal (@length Q)) in Hnil.
      rewrite Hlen in Hnil. cbn [length] in Hnil. unfold start, stop in *. lia. }
    rewrite Hlen.
    split; [unfold start, stop; lia |].
    split; [intros j Hj; apply slice_nth; unfold start, stop in *; lia |].
    split;
      [intros i Hi Hex; destruct (Hin i Hi Hex); unfold start, stop; lia |].
    right. exists f, l.
    split; [unfold start; lia |]. split; [unfold start, stop; lia |].
    split; [exact Hef |]. split; [exact Hel |]. split; [exact Hin |].
    split; unfold start, stop; lia.
Qed.

(** A run of a buffer that holds every sample above the threshold has
    the absolute peak of the buffer. *)
Lemma run_peak (a b : list Q) (start : nat) :
  a <> [] -> b <> [] ->
  (start + length b <= length a)%nat ->
  (forall j, (j < length b)%nat -> nth j b 0 = nth (start + j) a 0) ->
  (forall i, (i < length a)%nat -> exceeds a i ->
             (start <= i < start + length b)%nat) ->
  peak b == peak a.
Proof.
  intros Ha Hb Hfit Hrun Hkeep.
  destruct (peak_spec Ha) as [_ [[x0 [Hx0 Ea]] Huba]].
  destruct (peak_spec Hb) as [_ [[y [Hy Eb]] Hubb]].
  apply Qle_antisym.
  - rewrite Eb. apply Huba.
    destruct (In_nth b y 0 Hy) as [j [Hj <-]].
    rewrite (Hrun j Hj). apply nth_In. lia.
  - destruct (Qlt_le_dec 0 (peak a)) as [Hpos | Hnp].
    + destruct (In_nth a x0 0 Hx0) as [i0 [Hi0 Ei0]].
      assert (Hex : exceeds a i0)
        by (apply peak_exceeds; [exact Hpos | rewrite Ei0; auto]).
      destruct (Hkeep i0 Hi0 Hex) as [Hlo Hhi].
      rewrite Ea. apply Hubb.
      rewrite <- Ei0.
      replace i0 with (start + (i0 - start))%nat by lia.
      rewrite <- Hrun by lia. apply nth_In. lia.
    + eapply Qle_trans; [exact Hnp | apply peak_nonneg, Hb].
Qed.

(** X6.  Silence trimming only cuts at the two ends: the result is a run
    of consecutive samples of the input, it keeps every sample whose
    magnitude is above the threshold, and its absolute peak is that of
    the input. *)
Theorem x6_trim_keeps_loud (a : list Q) :
  a <> [] ->
  exists (b : list Q) (start : nat),
    trim_silence a = Ok b
    /\ (start + length b <= length a)%nat
    /\ (forall j, (j < length b)%nat -> nth j b 0 = nth (start + j) a 0)
    /\ (forall i, (i < length a)%nat -> exceeds a i ->
                  (start <= i < start + length b)%nat)
    /\ peak b == peak a.
Proof.
  intros Ha.
  destruct (trim_run Ha) as [b [start [Et [Hb [Hfit [Hrun [Hkeep _]]]]]]].
  exists b, start.
  split; [exact Et |]. split; [exact Hfit |]. split; [exact Hrun |].
  split; [exact Hkeep |].
  exact (run_peak Ha Hb Hfit Hrun Hkeep).
Qed.

(** X6 on a buffer whose loud sample sits after 150 silent ones. *)
Lemma x6_trim_keeps_loud_witness :
  exists (b : list Q) (start : nat),
    trim_silence (repeat 0 150 ++ [1 # 2] ++ repeat 0 5) = Ok b
    /\ peak b == peak (repeat 0 150 ++ [1 # 2] ++ repeat 0 5).
Proof.
  destruct (@x6_trim_keeps_loud (repeat 0 150 ++ [1 # 2] ++ repeat 0 5))
    as [b [start [Et [_ [_ [_ Hp]]]]]]; [discriminate |].
  exists b, start. split; [exact Et | exact Hp].
Defined.

(** X7.  Trimming a trimmed buffer changes nothing. *)
Theorem x7_trim_idempotent (a b : list Q) :
  trim_silence a = Ok b -> trim_silence b = Ok b.
Proof.
  intros Et.
  assert (Ha : a <> []) by (intros ->; discriminate Et).
  destruct (trim_run Ha) as [b' [start [Et' [Hb [Hfit [Hrun [Hkeep Hends]]]]]]].
  rewrite Et in Et'. injection Et' as <-.
  pose proof (run_peak Ha Hb Hfit Hrun Hkeep) as Hp.
  assert (Hsame : forall j, (j < length b)%nat ->
                    (exceeds b j <-> exceeds a (start + j))).
  { intros j Hj. unfold exceeds. rewrite (Hrun j Hj), Hp. reflexivity. }
  destruct (trim_silence_spec Hb) as [b2 [Et2 [_ [Hnone Hslice]]]].
  rewrite Et2. f_equal.
  destruct Hends as [Hquiet | [f [l [Hf [Hl [Hef [Hel [Hin [Hlead Htail]]]]]]]]].
  - apply Hnone. intros j Hj Hex. apply (Hsame j Hj) in Hex.
    apply (Hquiet (start + j)%nat); [lia | exact Hex].
  - destruct (Hslice (f - start)%nat (l - start)%nat) as [E _].
    + lia.
    + lia.
    + apply Hsame; [lia |].
      replace (start + (f - start))%nat with f by lia. exact Hef.
    + apply Hsame; [lia |].
      replace (start + (l - start))%nat with l by lia. exact Hel.
    + intros j Hj Hex. apply Hsame in Hex; [| lia].
      destruct (Hin (start + j)%nat) as [Hlo _]; [lia | exact Hex | lia].
    + intros j Hj Hex. apply Hsame in Hex; [| lia].
      destruct (Hin (start + j)%nat) as [_ Hhi]; [lia | exact Hex | lia].
    + rewrite E.
      replace (Z.max 0 (Z.of_nat (f - start) - 100)) with 0%Z by lia.
      apply slice_whole. lia.
Qed.

(** X7 on a buffer that trimming shortens. *)
Lemma x7_trim_idempotent_witness :
  trim_silence (repeat 0 100 ++ [1 # 2] ++ repeat 0 5)
    = Ok (repeat 0 100 ++ [1 # 2] ++ repeat 0 5).
Proof.
  apply (@x7_trim_idempotent (repeat 0 150 ++ [1 # 2] ++ repeat 0 5)).
  vm_compute. reflexivity.
Defined.

(** *** What the fades do to a buffer *)

Lemma ramp_up_unit (k i : nat) :
  (i < k)%nat -> 0 <= nth i (linspace 0 1 k) 0 <= 1.
Proof.
  intros Hi. destruct (Nat.eq_dec k 1) as [-> | Hk].
  - assert (i = 0%nat) as -> by lia. split; discriminate.
  - assert (H01 : 0 <= 1) by discriminate. split.
    + rewrite <- (@linspace_first 0 1 k) at 1 by lia.
      apply linspace_up; [exact H01 | lia].
    + rewrite <- (@linspace_last 0 1 k) at 2 by lia.
      apply linspace_up; [exact H01 | lia].
Qed.

Lemma ramp_down_unit (k i : nat) :
  (i < k)%nat -> 0 <= nth i (linspace 1 0 k) 0 <= 1.
Proof.
  intros Hi. destruct (Nat.eq_dec k 1) as [-> | Hk].
  - assert (i = 0%nat) as -> by lia. split; discriminate.
  - assert (H01 : 0 <= 1) by discriminate. split.
    + rewrite <- (@linspace_last 1 0 k) at 1 by lia.
      apply linspace_down; [exact H01 | lia].
    + rewrite <- (@linspace_first 1 0 k) at 2 by lia.
      apply linspace_down; [exact H01 | lia].
Qed.

Lemma attenuated (x m : Q) : 0 <= m <= 1 -> Qabs (x * m) <= Qabs x.
Proof.
  intros [H0 H1]. rewrite Qabs_Qmult, (Qabs_pos m) by exact H0.
  setoid_replace (Qabs x) with (Qabs x * 1) at 2 by ring.
  rewrite (Qmult_comm (Qabs x) m), (Qmult_comm (Qabs x) 1).
  apply Qmult_le_compat_r; [exact H1 | apply Qabs_nonneg].
Qed.

(** X8.  The fades only attenuate: no sample of the buffer returned by
    [apply_fade_in] or [apply_fade_out], whatever the requested number of
    fade samples, is larger in magnitude than the sample it comes
    from. *)
Theorem x8_fades_attenuate (a : list Q) (fade_samples : nat) :
  (forall i, Qabs (nth i (apply_fade_in a fade_samples) 0) <= Qabs (nth i a 0))
  /\ (forall b, apply_fade_out a fade_samples = Ok b ->
        forall i, Qabs (nth i b 0) <= Qabs (nth i a 0)).
Proof.
  split.
  - intros i. destruct (le_lt_dec (window fade_samples a) i) as [Hout | Hin].
    + rewrite fade_in_outside by exact Hout. apply Qle_refl.
    + rewrite fade_in_inside by exact Hin.
      apply attenuated, ramp_up_unit, Hin.
  - intros b Eb i.
    destruct a as [| x a'].
    { unfold apply_fade_out in Eb. rewrite clamp_window in Eb.
      unfold window in Eb. cbn [length] in Eb. rewrite Nat.min_0_r in Eb.
      injection Eb as <-. apply Qle_refl. }
    set (a := x :: a') in *.
    assert (Ha : a <> []) by discriminate.
    destruct fade_samples as [| n].
    { discriminate Eb. }
    assert (Hn : (1 <= S n)%nat) by lia.
    pose proof (@window_le a (S n)) as Hw.
    pose proof (@fade_out_length a (S n) Ha Hn b Eb) as Hlen.
    destruct (le_lt_dec (length a) i) as [Hover | Hunder].
    + rewrite !nth_overflow by lia. apply Qle_refl.
    + destruct (le_lt_dec (length a - window (S n) a) i) as [Hin | Hout].
      * replace i with (length a - window (S n) a
                        + (i - (length a - window (S n) a)))%nat by lia.
        rewrite (@fade_out_inside a (S n) Ha Hn b _ Eb) by lia.
        apply attenuated, ramp_down_unit. lia.
      * rewrite (@fade_out_outside a (S n) Ha Hn b i Eb Hout).
        apply Qle_refl.
Qed.

(** X8 on a short buffer faded out over its two samples. *)
Lemma x8_fades_attenuate_witness :
  exists b, apply_fade_out [1 # 2; - (1 # 4)] 2205 = Ok b
            /\ Qabs (nth 1 b 0) <= Qabs (- (1 # 4)).
Proof.
  destruct (apply_fade_out [1 # 2; - (1 # 4)] 2205) as [b | e] eqn:Eb;
    [| vm_compute in Eb; discriminate Eb].
  exists b. split; [reflexivity |].
  exact (proj2 (@x8_fades_attenuate [1 # 2; - (1 # 4)] 2205) b Eb 1%nat).
Defined.

Lemma fade_in_first_zero (a : list Q) (fade_samples : nat) :
  a <> [] -> (1 <= fade_samples)%nat ->
  nth 0 (apply_fade_in a fade_samples) 0 == 0.
Proof.
  intros Ha Hn.
  pose proof (@window_pos a fade_samples Ha Hn) as Hw.
  rewrite fade_in_inside by lia.
  rewrite (@linspace_first 0 1 (window fade_samples a)) by lia. ring.
Qed.

Lemma fade_out_ends (c b : list Q) (fade_samples : nat) :
  c <> [] -> (2 <= fade_samples)%nat ->
  apply_fade_out c fade_samples = Ok b ->
  (nth 0 c 0 == 0 -> nth 0 b 0 == 0)
  /\ ((2 <= length c)%nat -> nth (length c - 1) b 0 == 0).
Proof.
  intros Hc Hn Eb.
  assert (H1 : (1 <= fade_samples)%nat) by lia.
  pose proof (@window_le c fade_samples) as Hle.
  pose proof (@window_pos c fade_samples Hc H1) as Hpos.
  split.
  - intros H0.
    destruct (Nat.eq_dec (length c - window fade_samples c) 0) as [E | N].
    + pose proof (@fade_out_inside c fade_samples Hc H1 b 0%nat Eb Hpos) as Ei.
      rewrite E in Ei. cbn [Nat.add] in Ei. rewrite Ei, H0. ring.
    + rewrite (@fade_out_outside c fade_samples Hc H1 b 0%nat Eb) by lia.
      exact H0.
  - intros H2.
    assert (Hk : (2 <= window fade_samples c)%nat) by (unfold window; lia).
    pose proof (@fade_out_inside c fade_samples Hc H1 b
                  (window fade_samples c - 1) Eb ltac:(lia)) as Ei.
    replace (length c - window fade_samples c
             + (window fade_samples c - 1))%nat
      with (length c - 1)%nat in Ei by lia.
    rewrite Ei, (@linspace_last 1 0 (window fade_samples c)) by exact Hk.
    ring.
Qed.

(** X9.  After a fade-in over at least one sample and a fade-out over at
    least two, as the pipeline applies them, a non-empty buffer starts
    and ends with a zero sample. *)
Theorem x9_faded_ends_are_zero (a b : list Q) (fade_in fade_out : nat) :
  a <> [] -> (1 <= fade_in)%nat -> (2 <= fade_out)%nat ->
  apply_fade_out (apply_fade_in a fade_in) fade_out = Ok b ->
  length b = length a /\ nth 0 b 0 == 0 /\ last b 0 == 0.
Proof.
  intros Ha Hin Hout Eb.
  set (c := apply_fade_in a fade_in) in *.
  assert (Hlc : length c = length a) by apply fade_in_length.
  assert (Hc : c <> []).
  { intros E. rewrite E in Hlc. destruct a; [congruence | discriminate]. }
  assert (H1 : (1 <= fade_out)%nat) by lia.
  pose proof (@fade_out_length c fade_out Hc H1 b Eb) as Hlb.
  destruct (fade_out_ends Hc Hout Eb) as [Hfirst Hlast].
  pose proof (Hfirst (fade_in_first_zero Ha Hin)) as H0.
  split; [lia |]. split; [exact H0 |].
  rewrite PackingFacts.last_as_nth, Hlb.
  destruct (le_lt_dec 2 (length c)) as [H2 | Hone].
  - apply Hlast, H2.
  - assert (E1 : length c = 1%nat)
      by (destruct c as [| ? [| ? ?]]; cbn in *; try congruence; lia).
    rewrite E1. exact H0.
Qed.

(** X9 with the pipeline's 882 and 2205 samples on three samples. *)
Lemma x9_faded_ends_are_zero_witness :
  exists b, apply_fade_out (apply_fade_in [1; 1; 1] 882) 2205 = Ok b
            /\ nth 0 b 0 == 0 /\ last b 0 == 0.
Proof.
  destruct (apply_fade_out (apply_fade_in [1; 1; 1] 882) 2205)
    as [b | e] eqn:E; [| vm_compute in E; discriminate E].
  exists b. split; [reflexivity |].
  apply (@x9_faded_ends_are_zero [1; 1; 1] b 882 2205);
    [discriminate | lia | lia | exact E].
Defined.

(** *** Normalising twice *)

(** X10.  Peak normalisation is idempotent: normalising a normalised
    buffer succeeds and leaves every sample at its value. *)
Theorem x10_normalize_idempotent (a b : list Q) :
  normalize_audio a = Ok b ->
  exists c, normalize_audio b = Ok c /\ Forall2 Qeq c b.
Proof.
  intros E.
  destruct (@normalize_result a b E) as [Ha [Hlen _]].
  assert (Hb : b <> []).
  { intros ->. destruct a; [congruence | discriminate]. }
  assert (Hrefl : forall l : list Q, Forall2 Qeq l l).
  { induction l; constructor; [reflexivity | assumption]. }
  destruct (Qlt_le_dec 0 (peak a)) as [Hpos | Hnp].
  - unfold normalize_audio in E. rewrite (normalize_scaled 0.9 Ha Hpos) in E.
    injection E as <-.
    set (b := map (fun x => x * (0.9 / peak a)) a) in *.
    assert (Hp : peak b == 0.9)
      by (apply peak_scaled; [exact Ha | discriminate | exact Hpos]).
    assert (Hbpos : 0 < peak b) by (rewrite Hp; reflexivity).
    exists (map (fun x => x * (0.9 / peak b)) b).
    split; [apply normalize_scaled; assumption |].
    assert (Hf : 0.9 / peak b == 1) by (rewrite Hp; reflexivity).
    revert Hf. generalize (0.9 / peak b). intros f Hf.
    clearbody b. clear - Hf.
    induction b as [| x b IH]; constructor; [| exact IH].
    rewrite Hf. ring.
  - assert (Hz : peak a == 0)
      by (apply Qle_antisym; [exact Hnp | apply peak_nonneg, Ha]).
    unfold normalize_audio in E. rewrite (normalize_silent 0.9 Ha Hz) in E.
    injection E as <-. exists a.
    split; [apply normalize_silent; assumption | apply Hrefl].
Qed.

(** X10 on the buffer [1/4; -1/2]. *)
Lemma x10_normalize_idempotent_witness :
  exists b c, normalize_audio [1 # 4; - (1 # 2)] = Ok b
              /\ normalize_audio b = Ok c /\ Forall2 Qeq c b.
Proof.
  destruct (normalize_audio [1 # 4; - (1 # 2)]) as [b | e] eqn:E;
    [| vm_compute in E; discriminate E].
  destruct (@x10_normalize_idempotent [1 # 4; - (1 # 2)] b E) as [c [Ec Hc]].
  exists b, c. split; [reflexivity |]. split; [exact Ec | exact Hc].
Defined.

End NormalizerExtras.

(** ** More on the pipeline *)

Module PipelineExtras.
Import Normalizer Encoder Pipeline.
Local Open Scope Q_scope.

(** *** Channel mixdown *)

Lemma in_firstn (A : Type) (n : nat) (l : list A) (x : A) :
  In x (firstn n l) -> In x l.
Proof.
  intros H. rewrite <- (firstn_skipn n l). apply in_or_app. left. exact H.
Qed.

Lemma in_skipn (A : Type) (n : nat) (l : list A) (x : A) :
  In x (skipn n l) -> In x l.
Proof.
  intros H. rewrite <- (firstn_skipn n l). apply in_or_app. right. exact H.
Qed.

Lemma fold_plus_bound (l : list Q) (B acc : Q) :
  (forall x, In x l -> Qabs x <= B) ->
  Qabs (fold_left Qplus l acc)
    <= Qabs acc + inject_Z (Z.of_nat (length l)) * B.
Proof.
  revert acc. induction l as [| x l IH]; intros acc Hall.
  - cbn [fold_left length Z.of_nat]. rewrite Qmult_0_l, Qplus_0_r.
    apply Qle_refl.
  - cbn [fold_left].
    eapply Qle_trans; [apply IH; intros y Hy; apply Hall; right; exact Hy |].
    assert (Hx : Qabs x <= B) by (apply Hall; left; reflexivity).
    eapply Qle_trans;
      [apply Qplus_le_l; apply Qabs_triangle |].
    rewrite <- Qplus_assoc. apply Qplus_le_r.
    replace (Z.of_nat (length (x :: l))) with (1 + Z.of_nat (length l))%Z
      by (cbn [length]; lia).
    rewrite inject_Z_plus, Qmult_plus_distr_l, Qmult_1_l.
    apply Qplus_le_l. exact Hx.
Qed.

Lemma mean_bound (l : list Q) (B : Q) (n : nat) :
  length l = n -> (1 <= n)%nat ->
  (forall x, In x l -> Qabs x <= B) ->
  Qabs (Qsum l / inject_Z (Z.of_nat n)) <= B.
Proof.
  intros Hlen Hn Hall.
  assert (Hpos : 0 < inject_Z (Z.of_nat n))
    by (apply NormalizerFacts.inject_nat_pos; exact Hn).
  unfold Qdiv. rewrite Qabs_Qmult, Qabs_Qinv.
  rewrite (Qabs_pos (inject_Z (Z.of_nat n))) by (apply Qlt_le_weak, Hpos).
  apply Qle_shift_div_r; [exact Hpos |].
  pose proof (fold_plus_bound l 0 Hall) as Hs.
  rewrite Hlen in Hs. change (Qabs 0) with 0 in Hs. rewrite Qplus_0_l in Hs.
  rewrite (Qmult_comm B). exact Hs.
Qed.

(** X11.  Channel mixdown returns a mono buffer as it is, refuses a
    channel count of zero or one that does not divide the number of
    values, and otherwise gives one sample per frame which is no larger
    in magnitude than the largest value of the input: mixing down never
    clips. *)
Theorem x11_mixdown_in_bounds (a : list Q) (num_channels : nat) (B : Q) :
  (forall x, In x a -> Qabs x <= B) ->
  (num_channels = 1%nat -> convert_to_mono a num_channels = Ok a)
  /\ (num_channels <> 1%nat ->
      (num_channels = 0%nat \/ (length a mod num_channels)%nat <> 0%nat) ->
      convert_to_mono a num_channels = Err ValueError)
  /\ (forall mono, convert_to_mono a num_channels = Ok mono ->
        (length mono * num_channels)%nat = length a
        /\ forall y, In y mono -> Qabs y <= B).
Proof.
  intros Hall. unfold convert_to_mono.
  destruct (Nat.eqb_spec num_channels 1) as [E1 | N1].
  { split; [reflexivity |]. split; [congruence |].
    intros mono E. injection E as <-. split; [lia | exact Hall]. }
  split; [congruence |].
  destruct (Nat.eqb_spec num_channels 0) as [E0 | N0].
  { split; [reflexivity | discriminate]. }
  destruct (Nat.eqb_spec (length a mod num_channels) 0) as [Em | Nm];
    cbn [negb].
  2: { split; [reflexivity | discriminate]. }
  split; [intros _ [H | H]; congruence |].
  intros mono E. injection E as <-.
  pose proof (Nat.div_mod_eq (length a) num_channels) as Hdm.
  rewrite Em, Nat.add_0_r in Hdm.
  split; [rewrite length_map, length_seq; lia |].
  intros y Hy. apply in_map_iff in Hy. destruct Hy as [row [<- Hrow]].
  apply in_seq in Hrow.
  apply mean_bound.
  - rewrite length_firstn, length_skipn. nia.
  - lia.
  - intros x Hx. apply Hall. eapply in_skipn, in_firstn, Hx.
Qed.

(** X11 on two stereo frames. *)
Lemma x11_mixdown_in_bounds_witness :
  convert_to_mono [1 # 2; - (1 # 2); 1; 1 # 2] 3 = Err ValueError
  /\ forall y, In y [(0 + (1 # 2) + - (1 # 2)) / 2; (0 + 1 + (1 # 2)) / 2] ->
               Qabs y <= 1.
Proof.
  assert (Hall : forall x, In x [1 # 2; - (1 # 2); 1; 1 # 2] -> Qabs x <= 1).
  { intros x [<- | [<- | [<- | [<- | []]]]]; discriminate. }
  destruct (@x11_mixdown_in_bounds _ 3%nat 1 Hall) as [_ [Herr _]].
  destruct (@x11_mixdown_in_bounds _ 2%nat 1 Hall) as [_ [_ Hok]].
  split; [apply Herr; [lia | right; cbn; lia] |].
  apply (Hok _ eq_refl).
Defined.

(** *** The ends of a prepared buffer *)

Lemma normalize_keeps_zero (f b : list Q) (i : nat) :
  normalize_audio f = Ok b -> nth i f 0 == 0 -> nth i b 0 == 0.
Proof.
  intros E Hz.
  destruct (@NormalizerFacts.normalize_result f b E) as [Hf [Hlen _]].
  destruct (Qlt_le_dec 0 (peak f)) as [Hpos | Hnp].
  - unfold normalize_audio in E.
    rewrite (NormalizerFacts.normalize_scaled 0.9 Hf Hpos) in E.
    injection E as <-.
    destruct (le_lt_dec (length f) i) as [Hover | Hunder].
    + rewrite nth_overflow by (rewrite length_map; exact Hover). reflexivity.
    + set (g := fun x : Q => x * (0.9 / peak f)).
      rewrite (nth_indep _ 0 (g 0)) by (rewrite length_map; exact Hunder).
      rewrite map_nth. unfold g. rewrite Hz. ring.
  - assert (Hzero : peak f == 0)
      by (apply Qle_antisym;
          [exact Hnp | apply NormalizerFacts.peak_nonneg, Hf]).
    unfold normalize_audio in E.
    rewrite (NormalizerFacts.normalize_silent 0.9 Hf Hzero) in E.
    injection E as <-. exact Hz.
Qed.

Lemma quantize_zero (x : Q) :
  x == 0 -> astype_int16 (round_float32 (x * 32767)) = 0%Z.
Proof.
  intros Hx. unfold astype_int16.
  rewrite EncoderFacts.Qtrunc_zero; [reflexivity |].
  apply EncoderFacts.round_float32_zero. rewrite Hx. reflexivity.
Qed.

(** X12.  Every buffer the normaliser chain returns begins and ends with
    a zero sample, and so does its quantisation: an asset never starts or
    stops on a step. *)
Theorem x12_assets_start_and_end_at_zero
    (signal_resample : option (list Q -> Z -> list Q))
    (audio_data : list Q) (num_channels : nat) (sample_rate : Z)
    (b : list Q) :
  normalizer_chain signal_resample audio_data num_channels sample_rate = Ok b ->
  nth 0 b 0 == 0 /\ last b 0 == 0
  /\ nth 0 (quantize b) 0%Z = 0%Z /\ last (quantize b) 0%Z = 0%Z.
Proof.
  unfold normalizer_chain.
  destruct (convert_to_mono audio_data num_channels) as [mono |];
    cbn [bind]; [| discriminate].
  destruct (resample_audio signal_resample mono sample_rate 44100)
    as [resampled |]; cbn [bind]; [| discriminate].
  destruct (trim_silence resampled) as [trimmed |] eqn:Et;
    cbn [bind]; [| discriminate].
  destruct (apply_fade_out (apply_fade_in trimmed 882) 2205)
    as [faded |] eqn:Ef; cbn [bind]; [| discriminate].
  intros En.
  assert (Hr : resampled <> []) by (intros ->; discriminate Et).
  destruct (NormalizerFacts.trim_silence_spec Hr) as [t [Et' [Ht _]]].
  rewrite Et in Et'. injection Et' as <-.
  set (c := apply_fade_in trimmed 882) in *.
  assert (Hlc : length c = length trimmed)
    by apply NormalizerFacts.fade_in_length.
  assert (Hc : c <> []).
  { intros E. rewrite E in Hlc. destruct trimmed; [congruence | discriminate]. }
  assert (H1 : (1 <= 2205)%nat) by lia.
  assert (H2 : (2 <= 2205)%nat) by lia.
  assert (H882 : (1 <= 882)%nat) by lia.
  pose proof (@NormalizerFacts.fade_out_length c 2205%nat Hc H1 faded Ef)
    as Hlf.
  destruct (NormalizerExtras.fade_out_ends Hc H2 Ef) as [Hfirst Hlast].
  pose proof (Hfirst (NormalizerExtras.fade_in_first_zero Ht H882)) as F0.
  assert (Fl : nth (length faded - 1) faded 0 == 0).
  { rewrite Hlf. destruct (le_lt_dec 2 (length c)) as [Hge | Hone].
    - apply Hlast, Hge.
    - assert (E1 : length c = 1%nat)
        by (destruct c as [| ? [| ? ?]]; cbn in *; try congruence; lia).
      rewrite E1. exact F0. }
  destruct (@NormalizerFacts.normalize_result faded b En) as [Hf [Hlb _]].
  pose proof (@normalize_keeps_zero faded b 0%nat En F0) as B0.
  pose proof (@normalize_keeps_zero faded b (length faded - 1)%nat En Fl)
    as Bl.
  rewrite <- Hlb in Bl.
  assert (Hb : (1 <= length b)%nat)
    by (rewrite Hlb; destruct faded; [congruence | cbn; lia]).
  split; [exact B0 |].
  split; [rewrite PackingFacts.last_as_nth; exact Bl |].
  split.
  - rewrite EncoderFacts.quantize_nth by lia. apply quantize_zero, B0.
  - rewrite PackingFacts.last_as_nth.
    replace (length (quantize b)) with (length b)
      by (symmetry; apply length_map).
    rewrite EncoderFacts.quantize_nth by lia. apply quantize_zero, Bl.
Qed.

(** X12 on a mono 44.1 kHz buffer of three samples. *)
Lemma x12_assets_start_and_end_at_zero_witness :
  exists b,
    normalizer_chain None [1 # 4; - (1 # 2); 1 # 8] 1 44100 = Ok b
    /\ nth 0 (quantize b) 0%Z = 0%Z /\ last (quantize b) 0%Z = 0%Z.
Proof.
  destruct (normalizer_chain None [1 # 4; - (1 # 2); 1 # 8] 1 44100)
    as [b | e] eqn:E; [| vm_compute in E; discriminate E].
  exists b. split; [reflexivity |].
  exact (proj2 (proj2 (@x12_assets_start_and_end_at_zero None _ _ _ b E))).
Defined.

End PipelineExtras.

(** ** The report of a run *)

Module ReportExtras.
Import Encoder Pipeline Report.
Local Open Scope Z_scope.

Section WithResampler.

Variable signal_resample : option (list Q -> Z -> list Q).


Lemma convert_one_error (e : error) (wav : wav_file) :
  convert_one signal_resample (Err e) wav = Err e.
Proof. reflexivity. Qed.

Lemma convert_error_sticks (e : error) (wavs : list wav_file) :
  fold_left (convert_one signal_resample) wavs (Err e) = Err e.
Proof.
  induction wavs as [| w wavs IH]; [reflexivity |].
  cbn [fold_left]. rewrite convert_one_error. exact IH.
Qed.

(** The total is the initial total plus the sizes of the appended
    entries. *)
Lemma convert_from (wavs : list wav_file) (st st' : list entry * Z) :
  fold_left (convert_one signal_resample) wavs (Ok st) = Ok st' ->
  exists added,
    fst st' = fst st ++ added
    /\ snd st' = snd st + fold_right Z.add 0 (map size_bytes added)
    /\ (length added <= length wavs)%nat
    /\ Forall (fun w => exists r, process_wav_file signal_resample w = Ok r)
              wavs.
Proof.
  revert st. induction wavs as [| w wavs IH]; intros st E.
  - cbn in E. injection E as <-. exists []. rewrite app_nil_r.
    cbn. repeat split; try lia. constructor.
  - cbn [fold_left] in E. unfold convert_one at 2 in E. cbn [bind] in E.
    destruct (process_wav_file signal_resample w) as [[r |] | e] eqn:Ew;
      cbn [bind] in E.
    + destruct (IH _ E) as [added [Hf [Hs [Hl Hall]]]]. cbn [fst snd] in *.
      exists (r :: added). rewrite <- app_assoc in Hf.
      split; [exact Hf |].
      split; [cbn [map fold_right]; lia |].
      split; [cbn [length]; lia |].
      constructor; [exists (Some r); exact Ew | exact Hall].
    + destruct (IH _ E) as [added [Hf [Hs [Hl Hall]]]].
      exists added. split; [exact Hf |]. split; [exact Hs |].
      split; [cbn [length]; lia |].
      constructor; [exists None; exact Ew | exact Hall].
    + rewrite convert_error_sticks in E. discriminate.
Qed.

(** X14.  When the conversion loop of [main] completes, every file was
    processed without an exception, there are no more entries than
    files, and the total it reports is the sum of the sizes of the
    entries; a single file that raises ends the whole run with that
    exception: there is no result for any file. *)
Theorem x14_run_totals (wavs : list wav_file) :
  (forall results total_size,
      convert_all signal_resample wavs = Ok (results, total_size) ->
      total_size = fold_right Z.add 0 (map size_bytes results)
      /\ (length results <= length wavs)%nat
      /\ Forall (fun w => exists r, process_wav_file signal_resample w = Ok r)
                wavs)
  /\ (forall before wav after e,
        wavs = before ++ wav :: after ->
        Forall (fun w => exists r, process_wav_file signal_resample w = Ok r)
               before ->
        process_wav_file signal_resample wav = Err e ->
        convert_all signal_resample wavs = Err e).
Proof.
  split.
  - intros results total_size E. unfold convert_all in E.
    destruct (convert_from _ _ E) as [added [Hf [Hs [Hl Hall]]]].
    cbn [fst snd app] in Hf, Hs. subst results.
    split; [lia |]. split; assumption.
  - intros before wav after e -> Hbefore Ew. unfold convert_all.
    rewrite fold_left_app. cbn [fold_left].
    assert (Hb : exists st,
               fold_left (convert_one signal_resample) before (Ok ([], 0))
                 = Ok st).
    { generalize (@nil entry, 0). induction Hbefore as [| w ws [r Hr] _ IH];
        intros st; [exists st; reflexivity |].
      cbn [fold_left]. unfold convert_one at 2. cbn [bind]. rewrite Hr.
      cbn [bind]. destruct r; apply IH. }
    destruct Hb as [st ->].
    unfold convert_one at 2. cbn [bind]. rewrite Ew. cbn [bind].
    apply convert_error_sticks.
Qed.

End WithResampler.


(** X14 on a run over the file of three frames followed by the empty
    one, on which silence trimming raises. *)
Lemma x14_run_totals_witness :
  convert_all None [three_frames; no_frames] = Err ValueError.
Proof.
  apply (proj2 (@x14_run_totals None [three_frames; no_frames])
               [three_frames] no_frames [] ValueError eq_refl).
  - constructor; [| constructor].
    destruct (process_wav_file None three_frames) as [r | err] eqn:E;
      [exists r; reflexivity | vm_compute in E; discriminate E].
  - reflexivity.
Defined.

End ReportExtras.

(** ** More on the drum resolver *)

Module ResolverExtras.
Import Resolver ResolverFacts.
Local Open Scope Z_scope.

Section WithSample.

Variable Sample : Type.
Variable wav_written : Sample -> bool.

Lemma packed_range_low (low high : Z) :
  0 <= low < 256 -> 0 <= high < 256 ->
  Z.land (low + 256 * high) 0xFF = low.
Proof.
  intros Hl Hh. change 0xFF with (Z.ones 8).
  rewrite Z.land_ones by lia. change (2 ^ 8) with 256.
  symmetry. apply Z.mod_unique with (q := high); lia.
Qed.

Lemma packed_range_high (low high : Z) :
  0 <= low < 256 -> 0 <= high < 256 ->
  Z.land (Z.shiftr (low + 256 * high) 8) 0xFF = high.
Proof.
  intros Hl Hh. change 0xFF with (Z.ones 8).
  rewrite Z.land_ones, Z.shiftr_div_pow2 by lia. change (2 ^ 8) with 256.
  replace ((low + 256 * high) / 256) with high
    by (apply Z.div_unique with (r := low); lia).
  apply Z.mod_small. lia.
Qed.

(** X15.  A key range given as one integer, low key in the low byte and
    high key in the next, selects the same notes of the drum range as
    the list of the two keys; the integer 0, which the truth test takes
    for a missing range, would only hold note 0. *)
Theorem x15_integer_key_range (low high note_num : Z) (s : option Sample) :
  0 <= low < 256 -> 0 <= high < 256 -> 27 <= note_num <= 87 ->
  contains_note (Bag (Some (KeyInt (low + 256 * high))) s) note_num
    = contains_note (Bag (Some (KeyList low high)) s) note_num.
Proof.
  intros Hl Hh Hn. unfold contains_note. cbn [key_range truthy key_bounds].
  rewrite (packed_range_low Hl Hh), (packed_range_high Hl Hh).
  destruct (Z.eqb_spec (low + 256 * high) 0) as [E | N]; cbn [negb andb];
    [| reflexivity].
  assert (E0 : low = 0 /\ high = 0) by lia. destruct E0 as [-> ->].
  symmetry. apply andb_false_iff. right. apply Z.leb_gt. lia.
Qed.

Lemma drum_notes_from (first count : nat) :
  StronglySorted Z.lt (map Z.of_nat (seq first count)).
Proof.
  revert first. induction count as [| count IH]; intros first; cbn.
  - constructor.
  - constructor; [apply IH |].
    apply Forall_forall. intros z Hz. apply in_map_iff in Hz.
    destruct Hz as [k [<- Hk]]. apply in_seq in Hk. lia.
Qed.

Lemma filter_strongly_sorted (A : Type) (R : A -> A -> Prop)
    (p : A -> bool) (l : list A) :
  StronglySorted R l -> StronglySorted R (filter p l).
Proof.
  induction 1 as [| x l Hl IH Hx]; cbn [filter]; [constructor |].
  destruct (p x); [| exact IH].
  constructor; [exact IH |].
  apply Forall_forall. intros y Hy. apply filter_In in Hy.
  rewrite Forall_forall in Hx. apply Hx, Hy.
Qed.

Lemma extract_drums_notes (bags : list (bag Sample)) (notes : list Z) :
  map fst
    (flat_map
       (fun note_num =>
          match find_sample bags note_num with
          | Some sample_obj =>
              if wav_written sample_obj then [(note_num, sample_obj)] else []
          | None => []
          end) notes)
    = filter (fun note_num =>
        match find_sample bags note_num with
        | Some sample_obj => wav_written sample_obj
        | None => false
        end) notes.
Proof.
  induction notes as [| n notes IH]; [reflexivity |].
  cbn [flat_map filter]. rewrite map_app, IH.
  destruct (find_sample bags n) as [s |]; [| reflexivity].
  destruct (wav_written s); reflexivity.
Qed.

(** X16.  Whatever the instrument, the list of extracted samples runs
    through the notes in strictly ascending order: every note is one of
    27..87, no note appears twice, and there are at most 61 entries. *)
Theorem x16_extracted_notes_ascend (bags : list (bag Sample)) :
  let notes := map fst (extract_drums wav_written bags) in
  StronglySorted Z.lt notes
  /\ NoDup notes
  /\ Forall (fun note_num => 27 <= note_num <= 87) notes
  /\ (length (extract_drums wav_written bags) <= 61)%nat.
Proof.
  cbn zeta. unfold extract_drums. rewrite extract_drums_notes.
  set (kept := filter _ drum_notes).
  assert (Hs : StronglySorted Z.lt kept)
    by (apply filter_strongly_sorted, drum_notes_from).
  split; [exact Hs |].
  split.
  { clear - Hs. induction Hs as [| x l Hl IH Hx]; constructor; [| exact IH].
    intros Hin. rewrite Forall_forall in Hx. specialize (Hx x Hin). lia. }
  split.
  { apply Forall_forall. intros n Hn. apply filter_In in Hn.
    apply drum_notes_spec, Hn. }
  rewrite <- (length_map fst), extract_drums_notes.
  eapply Nat.le_trans; [apply filter_length_le |].
  unfold drum_notes. rewrite length_map, length_seq. lia.
Qed.

(** X17.  A note has an entry exactly when the first bag containing it
    has a sample whose WAV file could be written; the bags after that one
    play no part, so a first match without a sample, or with a sample
    that fails to convert, silences the note even when a later bag would
    serve it. *)
Theorem x17_only_first_match_counts
    (pre post : list (bag Sample)) (b : bag Sample) (note_num : Z)
    (s : Sample) :
  27 <= note_num <= 87 ->
  Forall (fun b' => contains_note b' note_num = false) pre ->
  contains_note b note_num = true ->
  (In (note_num, s) (extract_drums wav_written (pre ++ b :: post))
   <-> sample b = Some s /\ wav_written s = true)
  /\ (sample b = None ->
      forall s', ~ In (note_num, s')
                      (extract_drums wav_written (pre ++ b :: post))).
Proof.
  intros Hn Hpre Hb. split.
  - rewrite extract_drums_spec,
      (@find_sample_first Sample pre post b note_num Hpre Hb). tauto.
  - intros Hnone s' Hin. apply extract_drums_spec in Hin.
    rewrite (@find_sample_first Sample pre post b note_num Hpre Hb), Hnone
      in Hin.
    destruct Hin as [_ [Hs _]]. discriminate.
Qed.

End WithSample.

(** X15 at the range 35..81 and note 60. *)
Lemma x15_integer_key_range_witness :
  contains_note (Bag (Some (KeyInt 20771)) (@None nat)) 60
    = contains_note (Bag (Some (KeyList 35 81)) (@None nat)) 60.
Proof.
  apply (@x15_integer_key_range nat 35 81 60 None); lia.
Defined.

(** X17 on two bags that both contain note 36, the first without a
    sample. *)
Lemma x17_only_first_match_counts_witness :
  ~ In (36, 7%nat)
       (extract_drums (fun _ : nat => true)
          ([] ++ Bag (Some (KeyList 35 40)) None
              :: [Bag (Some (KeyList 36 36)) (Some 7%nat)])).
Proof.
  apply (proj2 (@x17_only_first_match_counts nat (fun _ => true) []
                  [Bag (Some (KeyList 36 36)) (Some 7%nat)]
                  (Bag (Some (KeyList 35 40)) None) 36 7%nat
                  ltac:(lia) (Forall_nil _) eq_refl) eq_refl).
Defined.

End ResolverExtras.

(** ** More on the source reader *)

Module SourceReaderExtras.
Import SourceReader SourceReaderFacts.
Local Open Scope string_scope.

Lemma filter_perm (A : Type) (p : A -> bool) (l1 l2 : list A) :
  Permutation l1 l2 -> Permutation (filter p l1) (filter p l2).
Proof.
  induction 1 as [| x l1 l2 _ IH | x y l | l1 l2 l3 _ IH1 _ IH2];
    cbn [filter].
  - constructor.
  - destruct (p x); [constructor |]; exact IH.
  - destruct (p x), (p y); try reflexivity. apply perm_swap.
  - etransitivity; eassumption.
Qed.

Lemma name_le_refl (x : string) : name_le x x.
Proof.
  destruct (String.leb_total x x) as [H | H]; exact H.
Qed.

(** Two ascending lists with the same names are the same list. *)
Lemma ascending_unique (l1 l2 : list string) :
  StronglySorted name_le l1 -> StronglySorted name_le l2 ->
  Permutation l1 l2 -> l1 = l2.
Proof.
  intros H1. revert l2.
  induction H1 as [| x l1 Hs1 IH Hx]; intros l2 H2 Hp.
  - apply Permutation_nil in Hp. congruence.
  - destruct H2 as [| y l2 Hs2 Hy].
    + apply Permutation_sym, Permutation_nil in Hp. discriminate.
    + assert (Hxy : name_le x y).
      { assert (Hin : In y (x :: l1))
          by (apply (Permutation_in _ (Permutation_sym Hp)); left; reflexivity).
        destruct Hin as [<- | Hin]; [apply name_le_refl |].
        rewrite Forall_forall in Hx. apply Hx, Hin. }
      assert (Hyx : name_le y x).
      { assert (Hin : In x (y :: l2))
          by (apply (Permutation_in _ Hp); left; reflexivity).
        destruct Hin as [<- | Hin]; [apply name_le_refl |].
        rewrite Forall_forall in Hy. apply Hy, Hin. }
      assert (E : x = y) by (apply String.leb_antisym; assumption).
      subst y. f_equal. apply IH; [exact Hs2 |].
      apply Permutation_cons_inv with x. exact Hp.
Qed.

(** X18.  The files to convert and their order depend on which names the
    directory holds, not on the order in which the system lists them;
    and a directory that lists no name twice yields no file twice. *)
Theorem x18_listing_order_is_irrelevant (dir1 dir2 : list string) :
  Permutation dir1 dir2 ->
  directory_inputs dir1 = directory_inputs dir2
  /\ (NoDup dir1 ->
      forall files, directory_inputs dir1 = Ok files -> NoDup files).
Proof.
  intros Hp.
  assert (Hw : Permutation (wav_files dir1) (wav_files dir2)).
  { unfold wav_files, glob_star.
    apply Permutation_app; apply filter_perm, Hp. }
  assert (Hsorted : sorted (wav_files dir1) = sorted (wav_files dir2)).
  { apply ascending_unique; try apply sorted_sorted.
    rewrite !sorted_perm. exact Hw. }
  split.
  - unfold directory_inputs.
    destruct (wav_files dir1) as [| f1 r1] eqn:E1;
      destruct (wav_files dir2) as [| f2 r2] eqn:E2.
    + reflexivity.
    + apply Permutation_nil in Hw. discriminate.
    + apply Permutation_sym, Permutation_nil in Hw. discriminate.
    + rewrite Hsorted. reflexivity.
  - intros Hnd files E.
    assert (Hall : NoDup (sorted (wav_files dir1))).
    { apply (Permutation_NoDup (Permutation_sym (sorted_perm _))).
      apply (Permutation_NoDup
               (Permutation_sym
                  (filter_either (ends_with ".wav") (ends_with ".WAV") dir1
                     wav_patterns_disjoint))).
      apply NoDup_filter. exact Hnd. }
    unfold directory_inputs in E.
    destruct (wav_files dir1) as [| f1 r1] eqn:E1; [discriminate |].
    injection E as <-. exact Hall.
Qed.

(** X18 on two listings of the same three files. *)
Lemma x18_listing_order_is_irrelevant_witness :
  directory_inputs ["kick.wav"; "SNARE.WAV"; "notes.txt"]
    = directory_inputs ["notes.txt"; "SNARE.WAV"; "kick.wav"].
Proof.
  apply (@x18_listing_order_is_irrelevant
           ["kick.wav"; "SNARE.WAV"; "notes.txt"]
           ["notes.txt"; "SNARE.WAV"; "kick.wav"]).
  apply perm_trans with ["SNARE.WAV"; "kick.wav"; "notes.txt"].
  - apply perm_swap.
  - apply perm_trans with ["SNARE.WAV"; "notes.txt"; "kick.wav"].
    + apply perm_skip, perm_swap.
    + apply perm_swap.
Defined.

End SourceReaderExtras.

(** ** The choice of the drum preset *)

Module PresetsExtras.
Import Presets.
Local Open Scope string_scope.

Section WithInstrument.

Variable Instrument : Type.

Lemma standard_is_drum (p : preset Instrument) :
  named "standard" p = true -> is_drum_preset p = true.
Proof.
  intros H. unfold is_drum_preset. rewrite H. apply orb_true_r.
Qed.

Lemma find_in_filter (A : Type) (p q : A -> bool) (l : list A) :
  (forall x, q x = true -> p x = true) ->
  find q (filter p l) = find q l.
Proof.
  intros Hqp. induction l as [| x l IH]; [reflexivity |].
  cbn [filter find]. destruct (q x) eqn:Eq.
  - rewrite (Hqp x Eq). cbn [find]. rewrite Eq. reflexivity.
  - destruct (p x); [cbn [find]; rewrite Eq |]; exact IH.
Qed.

Lemma find_first (A : Type) (q : A -> bool) (pre post : list A) (x : A) :
  Forall (fun y => q y = false) pre -> q x = true ->
  find q (pre ++ x :: post)%list = Some x.
Proof.
  intros Hpre Hx. induction Hpre as [| y pre Hy _ IH]; cbn.
  - rewrite Hx. reflexivity.
  - rewrite Hy. exact IH.
Qed.

Lemma find_none (A : Type) (q : A -> bool) (l : list A) :
  Forall (fun y => q y = false) l -> find q l = None.
Proof.
  induction 1 as [| y l Hy _ IH]; cbn; [reflexivity |].
  rewrite Hy. exact IH.
Qed.

Lemma filter_first (A : Type) (p : A -> bool) (pre post : list A) (x : A) :
  Forall (fun y => p y = false) pre -> p x = true ->
  filter p (pre ++ x :: post)%list = x :: filter p post.
Proof.
  intros Hpre Hx. induction Hpre as [| y pre Hy _ IH]; cbn.
  - rewrite Hx. reflexivity.
  - rewrite Hy. exact IH.
Qed.

(** X19.  The drum preset is chosen in this order: the first preset in
    the file whose name holds "standard" in any letter case, wherever it
    stands and whatever its bank; failing that, the first preset that is
    in bank 128 or whose name holds "drum" or "kit"; and none at all
    exactly when the file has no such preset. *)
Theorem x19_preset_choice (presets : list (preset Instrument)) :
  (select_preset presets = None
   <-> Forall (fun p => is_drum_preset p = false) presets)
  /\ (forall pre p post,
        presets = (pre ++ p :: post)%list ->
        Forall (fun q => named "standard" q = false) pre ->
        named "standard" p = true ->
        select_preset presets = Some p)
  /\ (forall pre p post,
        presets = (pre ++ p :: post)%list ->
        Forall (fun q => named "standard" q = false) presets ->
        Forall (fun q => is_drum_preset q = false) pre ->
        is_drum_preset p = true ->
        select_preset presets = Some p).
Proof.
  split; [| split].
  - unfold select_preset, drum_presets. split.
    + intros H. apply Forall_forall. intros p Hp.
      destruct (is_drum_preset p) eqn:Ep; [| reflexivity].
      assert (Hin : In p (filter (@is_drum_preset Instrument) presets))
        by (apply filter_In; auto).
      destruct (filter (@is_drum_preset Instrument) presets);
        [destruct Hin | discriminate].
    + intros H.
      assert (E : filter (@is_drum_preset Instrument) presets = []).
      { induction H as [| p l Hp _ IH]; cbn [filter]; [reflexivity |].
        rewrite Hp. exact IH. }
      rewrite E. reflexivity.
  - intros pre p post -> Hpre Hp. unfold select_preset, drum_presets.
    rewrite (@find_in_filter _ (@is_drum_preset Instrument)
               (named "standard") _ standard_is_drum).
    rewrite (@find_first _ (named "standard") pre post p Hpre Hp).
    assert (Hin : In p (filter (@is_drum_preset Instrument)
                               (pre ++ p :: post)%list)).
    { apply filter_In. split; [| apply standard_is_drum, Hp].
      apply in_or_app. right. left. reflexivity. }
    destruct (filter (@is_drum_preset Instrument) (pre ++ p :: post)%list);
      [destruct Hin | reflexivity].
  - intros pre p post -> Hnone Hpre Hp. unfold select_preset, drum_presets.
    rewrite (@find_in_filter _ (@is_drum_preset Instrument)
               (named "standard") _ standard_is_drum).
    rewrite (@find_none _ (named "standard") _ Hnone).
    rewrite (@filter_first _ (@is_drum_preset Instrument) pre post p Hpre Hp).
    reflexivity.
Qed.

End WithInstrument.

(** X19 on a file whose bank-128 preset comes before one named
    "Standard Kit". *)
Lemma x19_preset_choice_witness :
  select_preset [Preset 128 0 "Power" [@None nat];
                 Preset 0 5 "Standard Kit" [Some 1%nat]]
    = Some (Preset 0 5 "Standard Kit" [Some 1%nat]).
Proof.
  apply (proj1 (proj2 (@x19_preset_choice nat _))
               [Preset 128 0 "Power" [@None nat]]
               (Preset 0 5 "Standard Kit" [Some 1%nat]) []).
  - reflexivity.
  - repeat constructor.
  - reflexivity.
Defined.

End PresetsExtras.

(** ** File names and identifiers *)

Module NamesExtras.
Import Names.
Local Open Scope string_scope.

Lemma safe_name_step (c : ascii) (rest : string) :
  safe_name (String c rest)
    = if isalnum (safe_char c) || Ascii.eqb (safe_char c) "_"
      then String (safe_char c) (safe_name rest)
      else safe_name rest.
Proof. reflexivity. Qed.

Lemma safe_char_kept (c : ascii) :
  isalnum (safe_char c) || Ascii.eqb (safe_char c) "_" = true ->
  identifier_char (safe_char c) = true.
Proof.
  destruct c as [[] [] [] [] [] [] [] []]; vm_compute; intros H;
    first [reflexivity | exact H].
Qed.

Lemma identifier_char_fixed (c : ascii) :
  identifier_char c = true ->
  safe_char c = c /\ isalnum c || Ascii.eqb c "_" = true.
Proof.
  destruct c as [[] [] [] [] [] [] [] []]; vm_compute; intros H;
    first [split; reflexivity | discriminate H].
Qed.

(** X20.  A safe name holds lower-case letters, digits and underscores
    only and is no longer than the drum name it is made from; a name that
    already has this form is left as it is, so making a safe name of a
    safe name changes nothing. *)
Theorem x20_safe_name_is_safe (drum_name : string) :
  all_chars identifier_char (safe_name drum_name) = true
  /\ (String.length (safe_name drum_name) <= String.length drum_name)%nat
  /\ (all_chars identifier_char drum_name = true ->
      safe_name drum_name = drum_name)
  /\ safe_name (safe_name drum_name) = safe_name drum_name.
Proof.
  assert (Hsafe : forall s, all_chars identifier_char (safe_name s) = true).
  { induction s as [| c rest IH]; [reflexivity |].
    rewrite safe_name_step.
    destruct (isalnum (safe_char c) || Ascii.eqb (safe_char c) "_") eqn:Ek;
      [| exact IH].
    cbn [all_chars]. rewrite (safe_char_kept c Ek), IH. reflexivity. }
  assert (Hfixed : forall s, all_chars identifier_char s = true ->
                             safe_name s = s).
  { induction s as [| c rest IH]; [reflexivity |].
    cbn [all_chars]. intros H. apply andb_true_iff in H.
    destruct H as [Hc Hrest].
    rewrite safe_name_step.
    destruct (identifier_char_fixed c Hc) as [-> ->].
    rewrite (IH Hrest). reflexivity. }
  split; [apply Hsafe |].
  split.
  { induction drum_name as [| c rest IH]; [cbn; lia |].
    rewrite safe_name_step.
    destruct (isalnum (safe_char c) || Ascii.eqb (safe_char c) "_");
      cbn [String.length]; lia. }
  split; [apply Hfixed | apply Hfixed, Hsafe].
Qed.

(** X21.  For every note of the drum range the drum map has a name, so
    the fallback name is never used; the WAV files of two different notes
    have different names; and in the second phase [main] takes the stem
    of such a file name unchanged as the sample name, which is a valid
    identifier: a lower-case letter followed by lower-case letters,
    digits and underscores. *)
Theorem x21_extracted_file_names (n m : Z) :
  (27 <= n <= 87)%Z -> (27 <= m <= 87)%Z ->
  In (n, drum_name n) GM_DRUM_MAP
  /\ (wav_name n = wav_name m -> n = m)
  /\ stem (wav_name n) = safe_name (drum_name n) ++ "_" ++ str n
  /\ sample_name (wav_name n) = stem (wav_name n)
  /\ is_identifier (sample_name (wav_name n)) = true.
Proof.
  intros Hn Hm.
  apply ResolverFacts.drum_notes_spec in Hn.
  apply ResolverFacts.drum_notes_spec in Hm.
  assert (Hone :
    forallb
      (fun n =>
         existsb (fun kv => (fst kv =? n)%Z && String.eqb (snd kv) (drum_name n))
                 GM_DRUM_MAP
         && String.eqb (stem (wav_name n))
                       (safe_name (drum_name n) ++ "_" ++ str n)
         && String.eqb (sample_name (wav_name n)) (stem (wav_name n))
         && is_identifier (sample_name (wav_name n)))
      Resolver.drum_notes = true) by (vm_compute; reflexivity).
  assert (Htwo :
    forallb
      (fun n =>
         forallb
           (fun m => implb (String.eqb (wav_name n) (wav_name m)) (n =? m)%Z)
           Resolver.drum_notes)
      Resolver.drum_notes = true) by (vm_compute; reflexivity).
  rewrite forallb_forall in Hone, Htwo.
  specialize (Hone n Hn). specialize (Htwo n Hn).
  rewrite forallb_forall in Htwo. specialize (Htwo m Hm).
  apply andb_true_iff in Hone. destruct Hone as [Hone Hid].
  apply andb_true_iff in Hone. destruct Hone as [Hone Hsample].
  apply andb_true_iff in Hone. destruct Hone as [Hmap Hstem].
  split.
  { apply existsb_exists in Hmap. destruct Hmap as [[k v] [Hin Hkv]].
    cbn [fst snd] in Hkv. apply andb_true_iff in Hkv.
    destruct Hkv as [Hk Hv]. apply Z.eqb_eq in Hk. apply String.eqb_eq in Hv.
    subst k v. exact Hin. }
  split.
  { intros E. apply String.eqb_eq in E. rewrite E in Htwo.
    cbn [implb] in Htwo. apply Z.eqb_eq, Htwo. }
  split; [apply String.eqb_eq, Hstem |].
  split; [apply String.eqb_eq, Hsample | exact Hid].
Qed.

(** X21 at the notes 36 and 38. *)
Lemma x21_extracted_file_names_witness :
  wav_name 36 = "bass_drum_1_36.wav"
  /\ sample_name (wav_name 36) = "bass_drum_1_36"
  /\ wav_name 36 <> wav_name 38.
Proof.
  destruct (@x21_extracted_file_names 36 38) as [_ [Hinj [Hstem [Hs _]]]];
    [lia | lia |].
  split; [reflexivity |]. split.
  - rewrite Hs, Hstem. reflexivity.
  - intros E. apply Hinj in E. discriminate E.
Defined.

(** X22.  The notes suggested for a sample are those of the first
    pattern, in the order of the table, that occurs in its name, whatever
    later patterns occur too; no line is printed exactly when no pattern
    occurs; and every suggested note has an entry in the drum map, so the
    name printed for it is never "Unknown". *)
Theorem x22_note_suggestions (name : string) :
  (forall before pattern note_list after,
      mapping = (before ++ (pattern, note_list) :: after)%list ->
      Forall (fun entry => Presets.contains (fst entry) name = false) before ->
      Presets.contains pattern name = true ->
      suggest name = note_list)
  /\ (suggest name = []
      <-> Forall (fun entry => Presets.contains (fst entry) name = false)
                 mapping)
  /\ (forall n, In n (suggest name) -> exists v, In (n, v) GM_DRUM_MAP).
Proof.
  split; [| split].
  - intros before pattern note_list after E Hbefore Hp. unfold suggest.
    rewrite E.
    rewrite (@PresetsExtras.find_first _
               (fun entry => Presets.contains (fst entry) name)
               before after (pattern, note_list) Hbefore Hp).
    reflexivity.
  - unfold suggest. split.
    + intros E. apply Forall_forall. intros entry Hin.
      destruct (Presets.contains (fst entry) name) eqn:Ec; [| reflexivity].
      destruct (find (fun entry => Presets.contains (fst entry) name) mapping)
        as [[p l] |] eqn:Ef.
      * apply find_some in Ef. destruct Ef as [Hl _]. subst l.
        exfalso. revert Hl. unfold mapping.
        intros Hl. repeat (destruct Hl as [Hl | Hl]; [discriminate Hl |]).
        destruct Hl.
      * exfalso. apply (find_none _ _ Ef) in Hin. congruence.
    + intros Hall.
      rewrite (@PresetsExtras.find_none _
                 (fun entry => Presets.contains (fst entry) name)
                 mapping Hall).
      reflexivity.
  - intros n Hn. unfold suggest in Hn.
    destruct (find (fun entry => Presets.contains (fst entry) name) mapping)
      as [[p l] |] eqn:Ef; [| destruct Hn].
    apply find_some in Ef. destruct Ef as [Hl _].
    assert (Hnamed :
      forallb
        (fun entry =>
           forallb (fun n => existsb (fun kv => (fst kv =? n)%Z) GM_DRUM_MAP)
                   (snd entry))
        mapping = true) by (vm_compute; reflexivity).
    rewrite forallb_forall in Hnamed. specialize (Hnamed _ Hl).
    cbn [snd] in Hnamed. rewrite forallb_forall in Hnamed.
    specialize (Hnamed n Hn). apply existsb_exists in Hnamed.
    destruct Hnamed as [[k v] [Hin Hk]]. cbn [fst] in Hk.
    apply Z.eqb_eq in Hk. subst k. exists v. exact Hin.
Qed.

(** X22 on a name that holds two patterns. *)
Lemma x22_note_suggestions_witness :
  suggest "snare_kick_01" = [35; 36]%Z.
Proof.
  apply (proj1 (x22_note_suggestions "snare_kick_01")
               [] "kick" [35; 36]%Z (tl mapping)).
  - reflexivity.
  - constructor.
  - reflexivity.
Defined.

End NamesExtras.
